(** * PlugData: the canvas reconciler and the patch accessor

    A shallow embedding of [Source/Pd/PdPatch.cpp] (the accessor over one
    pure-data patch) and of [Source/Canvas.cpp] (the visual canvas:
    [synchronise], [keyPressed], [deselectAll]), with the properties of
    the specification stated over it. It is followed by the selection and
    the lasso of the canvas, its value listener, its copy, paste, duplicate
    and remove, the editing members of the accessor and the console of
    [Source/PluginProcessor.h], with properties of their own.

    Conventions.
    - A C++ [int] is a [Z], without wrap-around: the counters that are
      incremented walk a list and stay below its length, and the one sum
      adds a port index to a port count.
    - A pointer that may be null is an [option]; [None] is [nullptr].
    - A [juce::String] that is read character by character is the list of
      its code points; one that is only split into tokens and compared is
      the string of its bytes.
    - Objects that live on the C++ heap and are compared by address (boxes,
      connections) carry that address as a field.
    - A run that dereferences a null or dangling pointer has no defined
      result: functions that can do so return an [outcome]. *)

From Stdlib Require Import String.
From Stdlib Require Import List ZArith Lia Bool Arith PeanoNat.
From Stdlib Require Import Permutation Sorted.
Import ListNotations.
Local Open Scope Z_scope.

(** ** Runs that may leave defined behaviour *)

Inductive fault : Type :=
| NullDereference      (* a member of a null pointer is read *)
| DanglingBox          (* a connection's box pointer no longer names a box *)
| MalformedConnection. (* a Connection built from two edges of one polarity *)

Inductive outcome (A : Type) : Type :=
| Done (a : A)
| Undefined (f : fault).

Arguments Done {A} a.
Arguments Undefined {A} f.

Definition bind {A B : Type} (m : outcome A) (k : A -> outcome B) : outcome B :=
  match m with
  | Done a => k a
  | Undefined f => Undefined f
  end.

Notation "x <- m ;; k" := (bind m (fun x => k))
  (at level 61, m at next level, right associativity).

(** ** The engine side: one pure-data canvas *)

(** The address of an engine object ([t_gobj*]; a [t_object] starts with its
    [te_g], so [&obj->te_g] is the same address). *)
Definition t_gobj := nat.
Bind Scope nat_scope with t_gobj.

(** A [void*] that holds an engine object or null. *)
Definition voidp := option t_gobj.

Definition voidp_eqb (a b : voidp) : bool :=
  match a, b with
  | Some x, Some y => Nat.eqb x y
  | None, None => true
  | _, _ => false
  end.

(** One patch cord as [t_linetraverser] reports it: outlet [tr_outno] of
    [tr_ob] feeds inlet [tr_inno] of [tr_ob2]. *)
Record t_line : Type := {
  tr_ob : t_gobj;
  tr_outno : Z;
  tr_ob2 : t_gobj;
  tr_inno : Z
}.

Record Rectangle : Type := { rx : Z; ry : Z; rw : Z; rh : Z }.

(** What the accessor and the canvas read from a [t_canvas]: the [g_next]
    chain that starts at [gl_list], the cords the line traverser
    enumerates, and per object the answers of the engine queries used on
    it. *)
Record t_canvas : Type := {
  gl_list : list t_gobj;
  isInfoParent : t_gobj -> bool;     (* Storage::isInfoParent(y) *)
  gl_lines : list t_line;            (* linetraverser_start / _next *)
  gui_defined : t_gobj -> bool;      (* Gui(y).getType() != Type::Undefined *)
  obj_ninlets : t_gobj -> nat;       (* libpd_ninlets *)
  obj_noutlets : t_gobj -> nat;      (* libpd_noutlets *)
  obj_bounds : t_gobj -> Rectangle   (* engine-reported geometry *)
}.

(** [canvas_isconnected] of pure-data's g_canvas.c: a line traversal that
    looks for the cord by comparing pointers and indices. *)
Definition canvas_isconnected (x : t_canvas) (ob1 : voidp) (n1 : Z)
    (ob2 : voidp) (n2 : Z) : bool :=
  existsb (fun t => voidp_eqb (Some (tr_ob t)) ob1 && Z.eqb (tr_outno t) n1
                    && voidp_eqb (Some (tr_ob2 t)) ob2 && Z.eqb (tr_inno t) n2)
          (gl_lines x).

(** The value of an [int] stored in a [t_float], a 32-bit float, as
    [SETFLOAT] does: the integer itself up to 2^24 in magnitude, beyond that
    the nearest float, ties going to the even mantissa. *)
Definition float_of_int (n : Z) : Z :=
  let a := Z.abs n in
  if a <? 2 ^ 24 then n
  else
    let ulp := 2 ^ (Z.log2 a - 23) in
    let q := a / ulp in
    let r := a mod ulp in
    let q := if 2 * r <? ulp then q
             else if ulp <? 2 * r then q + 1
             else if Z.even q then q else q + 1 in
    Z.sgn n * (q * ulp).

(** ** Patch accessor (PdPatch.cpp) *)

Module Patch.

(** The loop of [Patch::getIndex]: [y] runs over the chain, [i] counts the
    objects that are not the info parent. *)
Fixpoint getIndex_loop (cnv : t_canvas) (obj : voidp) (y : list t_gobj) (i : Z) : Z :=
  match y with
  | [] => -1
  | g :: rest =>
      if isInfoParent cnv g then getIndex_loop cnv obj rest i
      else if voidp_eqb obj (Some g) then i
      else getIndex_loop cnv obj rest (i + 1)
  end.

(** [int Patch::getIndex(void* obj)] on a patch whose pointer is [cnv]. *)
Definition getIndex (cnv : t_canvas) (obj : voidp) : Z :=
  getIndex_loop cnv obj (gl_list cnv) 0.

(** [Patch::getObjects(bool onlyGui)]; [ptr] is the patch pointer, and a
    null patch has no objects. An [Object] is identified by the engine
    pointer it wraps. *)
Definition getObjects (ptr : option t_canvas) (onlyGui : bool) : list t_gobj :=
  match ptr with
  | Some cnv =>
      filter (fun y => negb (isInfoParent cnv y)
                       && (if onlyGui then gui_defined cnv y else true))
             (gl_list cnv)
  | None => []
  end.

(** A connection tuple [{tr_inno, tr_ob, tr_outno, tr_ob2}]. *)
Definition Connections := list (Z * t_gobj * Z * t_gobj)%type.

(** [Patch::getConnections]. *)
Definition getConnections (cnv : t_canvas) : Connections :=
  map (fun t => (tr_inno t, tr_ob t, tr_outno t, tr_ob2 t)) (gl_lines cnv).


(** *** The mutation queue and the engine calls

    The engine is pure-data, outside this program. What the accessor asks
    of it is recorded call by call; what a call does to the canvas is the
    engine's business and is a parameter. *)

(** An [Object*] handed to the accessor: null, or an [Object] that wraps
    an engine pointer. *)
Definition Object := t_gobj.

Inductive pd_call : Type :=
  | call_canconnect (src : voidp) (nout : Z) (sink : voidp) (nin : Z)
  | call_setCurrent            (* the engine calls of Patch::setCurrent, 140-155 *)
  | call_createconnection (src : voidp) (nout : Z) (sink : voidp) (nin : Z)
  | call_noselect              (* glist_noselect *)
  | call_select (obj : voidp)  (* glist_select *)
  | call_moveselection (dx dy : Z)
  | call_reset_undo_move       (* EDITOR->canvas_undo_already_set_move = 0 *)
  | call_key (keycode : Z) (shift : bool). (* pd_typedmess(ptr, "key", 1 keycode shift),
                                              the three as float atoms *)

(** The closures that the modelled functions hand to [enqueueFunction],
    with what they capture. *)
Inductive mutation : Type :=
  | createConnection_fn (src : Object) (nout : Z) (sink : Object) (nin : Z)
  | moveObjects_fn (objects : list (option Object)) (dx dy : Z).

(** A patch: its canvas pointer, the closures its instance has queued and
    not yet run, and the engine calls made so far. *)
Record t : Type := {
  ptr : option t_canvas;
  queue : list mutation;
  calls : list pd_call
  }.

Section Engine.

(** [libpd_canconnect], [pd_checkobject] and the effect of an engine call
    on the canvas. *)
Variable libpd_canconnect : t_canvas -> voidp -> Z -> voidp -> Z -> bool.
Variable pd_checkobject : t_canvas -> t_gobj -> voidp.
Variable pd_effect : pd_call -> t_canvas -> t_canvas.

(** The engine thread's view while closures run: canvas and call log. *)
Definition engine := (t_canvas * list pd_call)%type.

(** A call that changes the canvas, and a query that only reads it. *)
Definition call (c : pd_call) (e : engine) : engine :=
  (pd_effect c (fst e), snd e ++ [c]).

Definition query (c : pd_call) (e : engine) : engine :=
  (fst e, snd e ++ [c]).

(** [Patch::checkObject]. *)
Definition checkObject (e : engine) (obj : Object) : voidp :=
  pd_checkobject (fst e) obj.

(** The closure of [Patch::createConnection] (534-543); the boolean is
    what it leaves in the captured [canConnect]. *)
Definition run_createConnection (src : Object) (nout : Z) (sink : Object) (nin : Z)
    (e : engine) : bool * engine :=
  let canConnect :=
    libpd_canconnect (fst e) (checkObject e src) nout (checkObject e sink) nin in
  let e := query (call_canconnect (checkObject e src) nout (checkObject e sink) nin) e in
  if negb canConnect then (canConnect, e)
  else
    let e := call call_setCurrent e in
    let e := call (call_createconnection (checkObject e src) nout
                                         (checkObject e sink) nin) e in
    (canConnect, e).

(** The closure of [Patch::moveObjects] (568-586). *)
Definition run_moveObjects (objects : list (option Object)) (dx dy : Z)
    (e : engine) : engine :=
  let e := call call_setCurrent e in
  let e := call call_noselect e in
  let e := fold_left (fun e obj =>
                        match obj with
                        | None => e
                        | Some o => call (call_select (checkObject e o)) e
                        end) objects e in
  let e := call (call_moveselection dx dy) e in
  let e := call call_noselect e in
  let e := call call_reset_undo_move e in
  call call_setCurrent e.

Definition run (m : mutation) (e : engine) : engine :=
  match m with
  | createConnection_fn src nout sink nin =>
      snd (run_createConnection src nout sink nin e)
  | moveObjects_fn objects dx dy => run_moveObjects objects dx dy e
  end.

(** Modelled from the spec: [instance->enqueueFunction] (PdInstance is not
    among the sources) schedules the closure behind those already
    queued. *)
Definition enqueueFunction (m : mutation) (p : t) : t :=
  {| ptr := ptr p; queue := queue p ++ [m]; calls := calls p |}.

(** Modelled from the spec: the queue is served first in, first out; this
    is the engine state once the closures [ms] have run in order. *)
Definition drain (ms : list mutation) (e : engine) : engine :=
  fold_left (fun e m => run m e) ms e.

Definition settled (e : engine) : t :=
  {| ptr := Some (fst e); queue := []; calls := snd e |}.

(** Modelled from the spec: [instance->waitForStateUpdate] (PdInstance is
    not among the sources) returns once everything queued has run. The
    closures dereference the canvas pointer; with nothing queued the patch
    is left as it is. *)
Definition waitForStateUpdate (p : t) : outcome t :=
  match queue p, ptr p with
  | [], _ => Done p
  | ms, Some cnv => Done (settled (drain ms (cnv, calls p)))
  | _ :: _, None => Undefined NullDereference
  end.

(** [bool Patch::createConnection(Object* src, int nout, Object* sink,
    int nin)] (527-548): after the null checks the closure is queued
    behind what is pending, the caller waits, and returns what the
    closure left in [canConnect]. *)
Definition createConnection (src : option Object) (nout : Z)
    (sink : option Object) (nin : Z) (p : t) : bool * t :=
  match src, sink, ptr p with
  | Some s, Some k, Some cnv =>
      let e := drain (queue p) (cnv, calls p) in
      let r := run_createConnection s nout k nin e in
      (fst r, settled (snd r))
  | _, _, _ => (false, p)
  end.

(** [void Patch::moveObjects] (563-587): the closure is queued, nothing
    waits for it. *)
Definition moveObjects (objects : list (option Object)) (dx dy : Z) (p : t) : t :=
  enqueueFunction (moveObjects_fn objects dx dy) p.

(** [void Patch::keyPress(int keycode, int shift)] (653-662): the message
    goes to the canvas at once, not through the queue; the key code
    travels in a float atom. *)
Definition keyPress (keycode : Z) (shift : bool) (p : t) : outcome t :=
  match ptr p with
  | Some cnv =>
      let e := call (call_key (float_of_int keycode) shift) (cnv, calls p) in
      Done {| ptr := Some (fst e); queue := queue p; calls := snd e |}
  | None => Undefined NullDereference
  end.

End Engine.

End Patch.

(** Position of the first occurrence of [x], as [std::find(..) - begin()]
    computes it: the length when [x] does not occur. *)
Fixpoint find_offset (x : voidp) (l : list t_gobj) : nat :=
  match l with
  | [] => 0%nat
  | y :: rest => if voidp_eqb x (Some y) then 0%nat else S (find_offset x rest)
  end.

(** ** The visual side: boxes, edges, connections *)

(** Modelled from the spec: [Edge] (Edge.h is not among the sources). An
    edge belongs to one box, has a polarity and an index within that
    polarity. It is identified by these three: an edge destroyed and made
    again at the same place of the same box is not told apart. *)
Record Edge : Type := {
  edge_box : nat;        (* address of the owning Box *)
  isInlet : bool;
  edgeIdx : nat
}.

Definition Edge_eqb (a b : Edge) : bool :=
  Nat.eqb (edge_box a) (edge_box b) && Bool.eqb (isInlet a) (isInlet b)
  && Nat.eqb (edgeIdx a) (edgeIdx b).

(** Modelled from the spec: the members of [Box] that Canvas.cpp reads
    (Box.h is not among the sources). [box_this] is the address of the Box,
    [getPointer] the engine object it stands for, [gui] whether its embedded
    widget pointer is non-null. *)
Record Box : Type := {
  box_this : nat;
  getPointer : voidp;
  gui : bool;
  numInputs : nat;
  numOutputs : nat;
  edges : list Edge;
  box_bounds : Rectangle
}.

(** Modelled from the spec: the members of [Connection] that Canvas.cpp
    reads (Connection.h is not among the sources). [inlet] and [outlet] are
    weak pointers to edges, [inbox] and [outbox] the addresses of the boxes
    that own them. *)
Record Connection : Type := {
  con_this : nat;
  inlet : option Edge;
  outlet : option Edge;
  inbox : nat;
  outbox : nat;
  inIdx : Z;
  outIdx : Z
}.

(** The members of [Canvas] that the modelled functions touch (Canvas.h is
    not among the sources; [add], [remove(int)] and [size()] show [boxes]
    and [connections] to be [OwnedArray]s). [selectedComponents] holds the
    addresses of the selected components, [heap_next] is the next address
    operator new hands out (no address is handed out twice), [console] what
    [pd->logError] has printed. *)
Record Canvas : Type := {
  isGraph : bool;
  presentationMode : bool;
  boxes : list Box;
  connections : list Connection;
  selectedComponents : list nat;
  heap_next : nat;
  console : list string
}.

(** [OwnedArray::operator[]]: null when the index is out of range. *)
Definition at_index {A : Type} (l : list A) (i : Z) : option A :=
  if i <? 0 then None else nth_error l (Z.to_nat i).

(** [OwnedArray::size()], an [int]. *)
Definition size {A : Type} (l : list A) : Z := Z.of_nat (length l).

(** The box a [Box*] points to, if it still is in the canvas. *)
Definition deref_box (bs : list Box) (a : nat) : option Box :=
  find (fun b => Nat.eqb (box_this b) a) bs.

(** A weak edge pointer tests as null once its edge is gone. *)
Definition edge_alive (bs : list Box) (e : Edge) : bool :=
  match deref_box bs (edge_box e) with
  | Some b => existsb (Edge_eqb e) (edges b)
  | None => false
  end.

Definition is_null (bs : list Box) (p : option Edge) : bool :=
  match p with
  | Some e => negb (edge_alive bs e)
  | None => true
  end.

(** Modelled from the spec: the edge list of a box with [nin] inlets and
    [nout] outlets, inlets first. *)
Definition make_edges (this : nat) (nin nout : nat) : list Edge :=
  map (fun i => {| edge_box := this; isInlet := true; edgeIdx := i |}) (seq 0 nin)
  ++ map (fun i => {| edge_box := this; isInlet := false; edgeIdx := i |}) (seq 0 nout).

(** Modelled from the spec: [Box::updatePorts] (Box.cpp is not among the
    sources) gives the box the port count the engine reports for its
    object; a box without object has no ports. *)
Definition updatePorts (cnv : t_canvas) (b : Box) : Box :=
  let nin := match getPointer b with Some p => obj_ninlets cnv p | None => 0%nat end in
  let nout := match getPointer b with Some p => obj_noutlets cnv p | None => 0%nat end in
  {| box_this := box_this b; getPointer := getPointer b; gui := gui b;
     numInputs := nin; numOutputs := nout;
     edges := make_edges (box_this b) nin nout;
     box_bounds := box_bounds b |}.

(** Modelled from the spec: [Box::updateBounds] takes the screen bounds from
    the engine-reported geometry. *)
Definition updateBounds (cnv : t_canvas) (b : Box) : Box :=
  match getPointer b with
  | Some p =>
      {| box_this := box_this b; getPointer := getPointer b; gui := gui b;
         numInputs := numInputs b; numOutputs := numOutputs b;
         edges := edges b; box_bounds := obj_bounds cnv p |}
  | None => b
  end.

(** Modelled from the spec: [new Box(object, this)] at address [this_]: the
    proxy of [object], with its widget if the object is of a GUI kind, and
    the ports and bounds of the engine. *)
Definition new_Box (cnv : t_canvas) (object : t_gobj) (this_ : nat) : Box :=
  updateBounds cnv (updatePorts cnv
    {| box_this := this_; getPointer := Some object; gui := gui_defined cnv object;
       numInputs := 0; numOutputs := 0; edges := [];
       box_bounds := {| rx := 0; ry := 0; rw := 0; rh := 0 |} |}).

(** Modelled from the spec: [new Connection(this, s, e, true)] at address
    [this_]. A connection references one outlet edge and one inlet edge,
    each owned by a box; it takes its indices and boxes from them. Null
    edges are dereferenced, and two edges of one polarity make no
    connection. *)
Definition new_Connection (this_ : nat) (s e : option Edge) : outcome Connection :=
  match s, e with
  | Some s, Some e =>
      let o := if isInlet s then e else s in
      let i := if isInlet s then s else e in
      if Bool.eqb (isInlet o) (isInlet i) then Undefined MalformedConnection
      else Done {| con_this := this_; inlet := Some i; outlet := Some o;
                   inbox := edge_box i; outbox := edge_box o;
                   inIdx := Z.of_nat (edgeIdx i); outIdx := Z.of_nat (edgeIdx o) |}
  | _, _ => Undefined NullDereference
  end.

(** ** Canvas::deselectAll (Canvas.cpp 650-658)

    Repaints the selected components that still exist, empties the
    selection and hides the sidebar parameters; of these only the selection
    is canvas state. *)
Definition deselectAll (cv : Canvas) : Canvas :=
  {| isGraph := isGraph cv; presentationMode := presentationMode cv;
     boxes := boxes cv; connections := connections cv;
     selectedComponents := [];
     heap_next := heap_next cv; console := console cv |}.

(** ** Canvas::synchronise (Canvas.cpp 135-287) *)

(** The lambda [isObjectDeprecated] (143-148): [obj] differs from every
    object of the engine. *)
Definition isObjectDeprecated (objects : list t_gobj) (obj : voidp) : bool :=
  forallb (fun obj2 => negb (voidp_eqb obj (Some obj2))) objects.

(** The test of lines 157-170 on one connection: [true] when it is to be
    removed. The boxes are read through the connection's pointers only once
    both edges are known to be there. *)
Definition connection_deprecated (cnv : t_canvas) (objects : list t_gobj)
    (bs : list Box) (connection : Connection) : outcome bool :=
  if is_null bs (inlet connection) || is_null bs (outlet connection) then Done true
  else
    match deref_box bs (inbox connection) with
    | None => Undefined DanglingBox
    | Some ib =>
        if isObjectDeprecated objects (getPointer ib) then Done true
        else
          match deref_box bs (outbox connection) with
          | None => Undefined DanglingBox
          | Some ob =>
              if isObjectDeprecated objects (getPointer ob) then Done true
              else Done (negb (canvas_isconnected cnv (getPointer ob) (outIdx connection)
                                                  (getPointer ib) (inIdx connection)))
          end
    end.

(** The loop of lines 153-171. It walks from the last connection to the
    first, so the tail is handled before the head. *)
Fixpoint remove_deprecated_connections (cnv : t_canvas) (objects : list t_gobj)
    (bs : list Box) (cs : list Connection) : outcome (list Connection) :=
  match cs with
  | [] => Done []
  | c :: rest =>
      rest' <- remove_deprecated_connections cnv objects bs rest ;;
      gone <- connection_deprecated cnv objects bs c ;;
      Done (if gone then rest' else c :: rest')
  end.

(** The loop of lines 175-182: a box goes when it has a gui and its object
    is deprecated. *)
Definition clear_deleted_boxes (objects : list t_gobj) (bs : list Box) : list Box :=
  filter (fun box => negb (gui box && isObjectDeprecated objects (getPointer box))) bs.

(** The predicate of [std::find_if] at line 186. *)
Definition points_to (object : t_gobj) (b : Box) : bool :=
  match getPointer b with
  | Some p => Nat.eqb p object
  | None => false
  end.

(** Lines 198-208 on the box that was found. *)
Definition refresh_box (cnv : t_canvas) (updatePosition : bool) (box : Box) : Box :=
  let box := updatePorts cnv box in
  if updatePosition then updateBounds cnv box else box.

(** [find_if] followed by the in-place update of the box it returns;
    [None] when it returns [boxes.end()]. *)
Fixpoint refresh_first (cnv : t_canvas) (updatePosition : bool) (object : t_gobj)
    (bs : list Box) : option (list Box) :=
  match bs with
  | [] => None
  | b :: rest =>
      if points_to object b then Some (refresh_box cnv updatePosition b :: rest)
      else option_map (cons b) (refresh_first cnv updatePosition object rest)
  end.

(** One turn of the loop of lines 184-210; the state is the box list and
    the next free address. *)
Definition add_or_refresh (cnv : t_canvas) (updatePosition : bool)
    (st : list Box * nat) (object : t_gobj) : list Box * nat :=
  match refresh_first cnv updatePosition object (fst st) with
  | None => (fst st ++ [new_Box cnv object (snd st)], S (snd st))
  | Some bs => (bs, snd st)
  end.

(** The comparator of lines 214-220. *)
Definition box_before (objects : list t_gobj) (first second : Box) : bool :=
  Nat.ltb (find_offset (getPointer first) objects)
          (find_offset (getPointer second) objects).

(** The predicate of [std::find_if] at lines 243-254. *)
Definition same_connection (bs : list Box) (inno outno : Z) (srcBox sinkBox : Box)
    (c : Connection) : bool :=
  if is_null bs (inlet c) || is_null bs (outlet c) then false
  else
    let sameStart := Nat.eqb (outbox c) (box_this srcBox) in
    let sameEnd := Nat.eqb (inbox c) (box_this sinkBox) in
    Z.eqb (inIdx c) inno && Z.eqb (outIdx c) outno && sameStart && sameEnd.

(** The member [edges] of what [boxes[n]] returned, at the place where it is
    first read. *)
Definition edges_of (b : option Box) : outcome (list Edge) :=
  match b with
  | Some b => Done (edges b)
  | None => Undefined NullDereference
  end.

Definition impossible_connection : string := "Error: impossible connection".

(** One turn of the loop of lines 226-271; the state is the connection
    list, the next free address and the console. Lines 233-234 bind
    references to the [edges] of [boxes[srcno]] and [boxes[sinkno]], which
    are null for an index out of range; binding reads nothing, the run
    leaves defined behaviour where [edges] is read through a null box. The
    guard of line 237 is evaluated left to right and stops at the first
    true disjunct. *)
Definition connect (cnv : t_canvas) (bs : list Box)
    (st : list Connection * nat * list string)
    (connection : Z * t_gobj * Z * t_gobj) : outcome (list Connection * nat * list string) :=
  let '(cs, next, log) := st in
  let '(inno, inobj, outno, outobj) := connection in
  let srcno := Patch.getIndex cnv (Some inobj) in
  let sinkno := Patch.getIndex cnv (Some outobj) in
  let skipped := Done (cs, next, log ++ [impossible_connection]) in
  if (srcno >=? size bs) || (sinkno >=? size bs) then skipped
  else
    srcEdges <- edges_of (at_index bs srcno) ;;
    if outno >=? size srcEdges then skipped
    else
      sinkEdges <- edges_of (at_index bs sinkno) ;;
      if inno >=? size sinkEdges then skipped
      else
        match at_index bs srcno, at_index bs sinkno with
        | Some srcBox, Some sinkBox =>
            if existsb (same_connection bs inno outno srcBox sinkBox) cs
            then Done (cs, next, log)
            else
              c <- new_Connection next
                     (at_index srcEdges (Z.of_nat (numInputs srcBox) + outno))
                     (at_index sinkEdges inno) ;;
              Done (cs ++ [c], S next, log)
        | _, _ => Undefined NullDereference
        end.

Fixpoint connect_all (cnv : t_canvas) (bs : list Box)
    (st : list Connection * nat * list string)
    (pdConnections : Patch.Connections) : outcome (list Connection * nat * list string) :=
  match pdConnections with
  | [] => Done st
  | connection :: rest =>
      st' <- connect cnv bs st connection ;;
      connect_all cnv bs st' rest
  end.

Section Synchronise.

(** [std::sort]: the library's sort, of which the standard fixes the
    result only up to the order of elements that compare equivalent. *)
Variable std_sort : (Box -> Box -> bool) -> list Box -> list Box.

(** [cnv] is the patch of the canvas as the engine holds it once
    [waitForStateUpdate] has returned; the patch pointer is not null, the
    constructor of the canvas reads through it. [getObjects()] is called
    without argument: all objects, not only those with a widget. Painting
    ([repaint], [toFront], [setTransform]) and the refresh of a reused
    connection's stored path leave the box list, the connection list and
    the selection as they are, and are left out. The [checkBounds] of lines
    278-282 is handed to [callAsync]: it runs in a later turn of the message
    loop, after synchronise has returned, and is not part of this run; it
    then calls [updateBounds] on every box. *)
Definition synchronise (updatePosition : bool) (cnv : t_canvas) (cv : Canvas)
    : outcome Canvas :=
  let cv := deselectAll cv in
  let objects := Patch.getObjects (Some cnv) false in
  let editing := negb (isGraph cv || presentationMode cv) in
  cs1 <- (if editing
          then remove_deprecated_connections cnv objects (boxes cv) (connections cv)
          else Done (connections cv)) ;;
  let bs1 := clear_deleted_boxes objects (boxes cv) in
  let '(bs2, next2) :=
    fold_left (add_or_refresh cnv updatePosition) objects (bs1, heap_next cv) in
  let bs3 := std_sort (box_before objects) bs2 in
  let pdConnections := Patch.getConnections cnv in
  st <- (if editing
         then connect_all cnv bs3 (cs1, next2, console cv) pdConnections
         else Done (cs1, next2, console cv)) ;;
  let '(cs2, next3, log) := st in
  Done {| isGraph := isGraph cv; presentationMode := presentationMode cv;
          boxes := bs3; connections := cs2;
          selectedComponents := selectedComponents cv;
          heap_next := next3; console := log |}.

(** Successive calls, each with its flag and the engine state it finds. *)
Fixpoint synchronise_all (calls : list (bool * t_canvas)) (cv : Canvas)
    : outcome Canvas :=
  match calls with
  | [] => Done cv
  | (updatePosition, cnv) :: rest =>
      cv' <- synchronise updatePosition cnv cv ;;
      synchronise_all rest cv'
  end.

End Synchronise.

(** ** Canvas::keyPressed (Canvas.cpp 588-648) *)

(** The key codes of [juce::KeyPress] that the handler compares with; their
    values depend on the platform. *)
Record KeyCodes : Type := {
  leftKey : Z; rightKey : Z; upKey : Z; downKey : Z;
  backspaceKey : Z; pageUpKey : Z; pageDownKey : Z; homeKey : Z;
  escapeKey : Z; deleteKey : Z; returnKey : Z; tabKey : Z
}.

(** Modelled from the spec: [getSelectionOfType<Box>()] (Canvas.h is not
    among the sources), the selected components that are boxes of this
    canvas. *)
Definition getSelectionOfType_Box (cv : Canvas) : list Box :=
  flat_map (fun a => match deref_box (boxes cv) a with
                     | Some b => [b]
                     | None => []
                     end) (selectedComponents cv).

Section KeyPressed.

Variable pd_effect : Patch.pd_call -> t_canvas -> t_canvas.
Variable keys : KeyCodes.

(** The lambda [moveSelection] (594-615). The bounds refresh of the moved
    boxes that follows the call is geometry and is left out. *)
Definition moveSelection (x y : Z) (cv : Canvas) (p : Patch.t) : Patch.t :=
  let boxes := getSelectionOfType_Box cv in
  let objects := map getPointer boxes in
  Patch.moveObjects objects x y p.

(** [isCurrent] is [main.getCurrentCanvas() == this]; the result is the
    returned boolean (the key was consumed) and the patch afterwards. *)
Definition keyPressed (isCurrent : bool) (keycode : Z) (shiftDown : bool)
    (cv : Canvas) (p : Patch.t) : outcome (bool * Patch.t) :=
  if negb isCurrent || isGraph cv then Done (false, p)
  else if keycode =? leftKey keys then Done (true, moveSelection (-10) 0 cv p)
  else if keycode =? rightKey keys then Done (true, moveSelection 10 0 cv p)
  else if keycode =? upKey keys then Done (true, moveSelection 0 (-10) cv p)
  else if keycode =? downKey keys then Done (true, moveSelection 0 10 cv p)
  else if (keycode =? backspaceKey keys) || (keycode =? pageUpKey keys)
          || (keycode =? pageDownKey keys) || (keycode =? homeKey keys)
          || (keycode =? escapeKey keys) || (keycode =? deleteKey keys)
          || (keycode =? returnKey keys) || (keycode =? tabKey keys)
  then Done (false, p)
  else
    p' <- Patch.keyPress pd_effect keycode shiftDown p ;;
    Done (false, p').

End KeyPressed.

(** ** A sort that meets the contract of [std::sort]

    [sort_stable] returns the boxes in an order in which no box comes
    before one that the comparator puts strictly first, and keeps boxes
    that compare equivalent in their old order (an insertion sort, as
    library implementations use on short ranges). *)

Fixpoint insert_stable (before : Box -> Box -> bool) (x : Box) (l : list Box) : list Box :=
  match l with
  | [] => [x]
  | y :: rest => if before y x then y :: insert_stable before x rest else x :: y :: rest
  end.

Definition sort_stable (before : Box -> Box -> bool) (l : list Box) : list Box :=
  fold_right (insert_stable before) [] l.

(** ** The sort of the GNU C++ library

    [std::sort] as libstdc++ implements it (bits/stl_algo.h and
    bits/stl_heap.h of GCC 12): an introsort that partitions ranges of more
    than sixteen elements around a median of three, falls back to a heap
    sort when the recursion gets too deep, and finishes with an insertion
    sort. The array is a list, an iterator an index into it. *)

Module libstdcxx.

Local Open Scope nat_scope.

Section Sort.

Variable A : Type.

(** The comparator, and the value read where an iterator has left the
    array, which does not happen when the comparator is a strict weak
    order. *)
Variable comp : A -> A -> bool.
Variable d : A.

Definition deref (v : list A) (i : nat) : A := nth i v d.

Fixpoint assign (v : list A) (i : nat) (x : A) : list A :=
  match v, i with
  | [], _ => []
  | _ :: rest, O => x :: rest
  | y :: rest, S i => y :: assign rest i x
  end.

Definition iter_swap (v : list A) (a b : nat) : list A :=
  assign (assign v a (deref v b)) b (deref v a).

Definition move_median_to_first (v : list A) (result a b c : nat) : list A :=
  if comp (deref v a) (deref v b) then
    if comp (deref v b) (deref v c) then iter_swap v result b
    else if comp (deref v a) (deref v c) then iter_swap v result c
    else iter_swap v result a
  else if comp (deref v a) (deref v c) then iter_swap v result a
  else if comp (deref v b) (deref v c) then iter_swap v result c
  else iter_swap v result b.

(** The two inner loops of [__unguarded_partition]. *)
Fixpoint advance (fuel : nat) (v : list A) (first pivot : nat) : nat :=
  match fuel with
  | O => first
  | S fuel =>
      if comp (deref v first) (deref v pivot) then advance fuel v (S first) pivot
      else first
  end.

Fixpoint retreat (fuel : nat) (v : list A) (last pivot : nat) : nat :=
  match fuel with
  | O => last
  | S fuel =>
      if comp (deref v pivot) (deref v last) then retreat fuel v (Nat.pred last) pivot
      else last
  end.

Fixpoint unguarded_partition (fuel : nat) (v : list A) (first last pivot : nat)
    : nat * list A :=
  match fuel with
  | O => (first, v)
  | S fuel =>
      let first := advance (length v) v first pivot in
      let last := Nat.pred last in
      let last := retreat (length v) v last pivot in
      if negb (Nat.ltb first last) then (first, v)
      else unguarded_partition fuel (iter_swap v first last) (S first) last pivot
  end.

Definition unguarded_partition_pivot (v : list A) (first last : nat) : nat * list A :=
  let mid := (first + (last - first) / 2)%nat in
  let v := move_median_to_first v first (S first) mid (Nat.pred last) in
  unguarded_partition (length v) v (S first) last first.

(** The loop of [__unguarded_linear_insert]; [val] is the value taken out
    at the start. *)
Fixpoint linear_insert_loop (fuel : nat) (v : list A) (last : nat) (val : A) : list A :=
  match fuel, last with
  | S fuel, S next =>
      if comp val (deref v next)
      then linear_insert_loop fuel (assign v last (deref v next)) next val
      else assign v last val
  | _, _ => assign v last val
  end.

Definition unguarded_linear_insert (v : list A) (last : nat) : list A :=
  linear_insert_loop (length v) v last (deref v last).

(** [std::move_backward(first, i, i + 1)] on the [n] elements from
    [first]. *)
Fixpoint move_backward (n : nat) (v : list A) (first : nat) : list A :=
  match n with
  | O => v
  | S m => move_backward m (assign v (first + S m) (deref v (first + m))) first
  end.

(** [n] turns of the loop of [__insertion_sort], from [i] on. *)
Fixpoint insertion_sort_loop (n : nat) (v : list A) (first i : nat) : list A :=
  match n with
  | O => v
  | S n =>
      let v :=
        if comp (deref v i) (deref v first)
        then let val := deref v i in
             assign (move_backward (i - first) v first) first val
        else unguarded_linear_insert v i in
      insertion_sort_loop n v first (S i)
  end.

Definition insertion_sort (v : list A) (first last : nat) : list A :=
  if Nat.eqb first last then v
  else insertion_sort_loop (last - S first) v first (S first).

Fixpoint unguarded_insertion_sort_loop (n : nat) (v : list A) (i : nat) : list A :=
  match n with
  | O => v
  | S n => unguarded_insertion_sort_loop n (unguarded_linear_insert v i) (S i)
  end.

Definition unguarded_insertion_sort (v : list A) (first last : nat) : list A :=
  unguarded_insertion_sort_loop (last - first) v first.

Definition S_threshold : nat := 16.

Definition final_insertion_sort (v : list A) (first last : nat) : list A :=
  if Nat.ltb S_threshold (last - first)
  then unguarded_insertion_sort (insertion_sort v first (first + S_threshold))
                                (first + S_threshold) last
  else insertion_sort v first last.

(** The heap routines; indices count from [first]. *)
Fixpoint push_heap_loop (fuel : nat) (v : list A) (first holeIndex topIndex : nat)
    (value : A) : list A :=
  match fuel with
  | O => assign v (first + holeIndex) value
  | S fuel =>
      let parent := ((holeIndex - 1) / 2)%nat in
      if Nat.ltb topIndex holeIndex && comp (deref v (first + parent)) value
      then push_heap_loop fuel (assign v (first + holeIndex) (deref v (first + parent)))
                          first parent topIndex value
      else assign v (first + holeIndex) value
  end.

Definition push_heap (v : list A) (first holeIndex topIndex : nat) (value : A) : list A :=
  push_heap_loop (S holeIndex) v first holeIndex topIndex value.

(** The first loop of [__adjust_heap]; the result is the array, the hole
    and [secondChild]. *)
Fixpoint sift_down (fuel : nat) (v : list A) (first holeIndex secondChild len : nat)
    : list A * nat * nat :=
  match fuel with
  | O => (v, holeIndex, secondChild)
  | S fuel =>
      if Nat.ltb secondChild ((len - 1) / 2)
      then
        let secondChild := (2 * (secondChild + 1))%nat in
        let secondChild :=
          if comp (deref v (first + secondChild)) (deref v (first + (secondChild - 1)))
          then Nat.pred secondChild else secondChild in
        sift_down fuel (assign v (first + holeIndex) (deref v (first + secondChild)))
                  first secondChild secondChild len
      else (v, holeIndex, secondChild)
  end.

(** [len] is at least one where the library calls this. *)
Definition adjust_heap (v : list A) (first holeIndex len : nat) (value : A) : list A :=
  let topIndex := holeIndex in
  let '(v, holeIndex, secondChild) := sift_down len v first holeIndex holeIndex len in
  let '(v, holeIndex) :=
    if Nat.even len && Nat.eqb secondChild ((len - 2) / 2)
    then let secondChild := (2 * (secondChild + 1))%nat in
         (assign v (first + holeIndex) (deref v (first + (secondChild - 1))),
          (secondChild - 1)%nat)
    else (v, holeIndex) in
  push_heap v first holeIndex topIndex value.

Definition pop_heap (v : list A) (first last result : nat) : list A :=
  let value := deref v result in
  let v := assign v result (deref v first) in
  adjust_heap v first 0 (last - first) value.

Fixpoint make_heap_loop (fuel : nat) (v : list A) (first len parent : nat) : list A :=
  match fuel with
  | O => v
  | S fuel =>
      let v := adjust_heap v first parent len (deref v (first + parent)) in
      if Nat.eqb parent 0 then v else make_heap_loop fuel v first len (Nat.pred parent)
  end.

Definition make_heap (v : list A) (first last : nat) : list A :=
  if Nat.ltb (last - first) 2 then v
  else let len := (last - first)%nat in
       make_heap_loop len v first len ((len - 2) / 2).

Fixpoint heap_select_loop (n : nat) (v : list A) (first middle i : nat) : list A :=
  match n with
  | O => v
  | S n =>
      let v := if comp (deref v i) (deref v first) then pop_heap v first middle i else v in
      heap_select_loop n v first middle (S i)
  end.

Definition heap_select (v : list A) (first middle last : nat) : list A :=
  heap_select_loop (last - middle) (make_heap v first middle) first middle middle.

Fixpoint sort_heap (fuel : nat) (v : list A) (first last : nat) : list A :=
  match fuel with
  | O => v
  | S fuel =>
      if Nat.ltb 1 (last - first)
      then let last := Nat.pred last in
           sort_heap fuel (pop_heap v first last last) first last
      else v
  end.

Definition partial_sort (v : list A) (first middle last : nat) : list A :=
  sort_heap (length v) (heap_select v first middle last) first middle.

Fixpoint introsort_loop (fuel : nat) (v : list A) (first last depth_limit : nat)
    : list A :=
  match fuel with
  | O => v
  | S fuel =>
      if Nat.ltb S_threshold (last - first)
      then
        if Nat.eqb depth_limit 0 then partial_sort v first last last
        else
          let depth_limit := Nat.pred depth_limit in
          let '(cut, v) := unguarded_partition_pivot v first last in
          let v := introsort_loop fuel v cut last depth_limit in
          introsort_loop fuel v first cut depth_limit
      else v
  end.

End Sort.

(** [std::sort(first, last, comp)] on the whole array; [std::__lg] is the
    binary logarithm rounded down. *)
Definition sort {A : Type} (comp : A -> A -> bool) (v : list A) : list A :=
  match v with
  | [] => []
  | d :: _ =>
      let n := length v in
      final_insertion_sort A comp d
        (introsort_loop A comp d n v 0 n (2 * Nat.log2 n)) 0 n
  end.

End libstdcxx.

(** ** Sample patches and canvases *)

Definition no_bounds : Rectangle := {| rx := 0; ry := 0; rw := 0; rh := 0 |}.

(** Three objects and the info parent [9]; outlet 0 of object 1 feeds
    inlet 0 of object 2. Every object has one inlet and one outlet. *)
Definition sample_patch : t_canvas :=
  {| gl_list := [1; 2; 9; 3]%nat;
     isInfoParent := fun g => Nat.eqb g 9;
     gl_lines := [ {| tr_ob := 1%nat; tr_outno := 0; tr_ob2 := 2%nat; tr_inno := 0 |} ];
     gui_defined := fun g => Nat.eqb g 2;
     obj_ninlets := fun _ => 1%nat;
     obj_noutlets := fun _ => 1%nat;
     obj_bounds := fun _ => no_bounds |}.

(** A canvas that shows nothing yet. *)
Definition empty_canvas : Canvas :=
  {| isGraph := false; presentationMode := false;
     boxes := []; connections := []; selectedComponents := [];
     heap_next := 100; console := [] |}.

Definition sample_box (this_ : nat) (object : t_gobj) (widget : bool) : Box :=
  {| box_this := this_; getPointer := Some object; gui := widget;
     numInputs := 1; numOutputs := 1; edges := make_edges this_ 1 1;
     box_bounds := no_bounds |}.

(** The canvas that shows [sample_patch], with the box of object 1
    selected. *)
Definition sample_canvas : Canvas :=
  {| isGraph := false; presentationMode := false;
     boxes := [sample_box 100 1%nat false; sample_box 101 2%nat true;
               sample_box 102 3%nat false];
     connections :=
       [ {| con_this := 103;
            inlet := Some {| edge_box := 101; isInlet := true; edgeIdx := 0 |};
            outlet := Some {| edge_box := 100; isInlet := false; edgeIdx := 0 |};
            inbox := 101; outbox := 100; inIdx := 0; outIdx := 0 |} ];
     selectedComponents := [100%nat];
     heap_next := 104; console := [] |}.

(** A box without widget whose object (77) the engine no longer lists,
    next to the box of object 1. *)
Definition stale_box : Box := sample_box 50 77%nat false.

Definition canvas_with_stale_box : Canvas :=
  {| isGraph := false; presentationMode := false;
     boxes := [stale_box; sample_box 100 1%nat false];
     connections := []; selectedComponents := [];
     heap_next := 104; console := [] |}.

(** A patch in which a cord ends at the info parent: outlet 0 of object 1
    feeds inlet 0 of object 9, which [getObjects] and [getIndex] skip. *)
Definition patch_with_cord_to_info_parent : t_canvas :=
  {| gl_list := [1; 9]%nat;
     isInfoParent := fun g => Nat.eqb g 9;
     gl_lines := [ {| tr_ob := 1%nat; tr_outno := 0; tr_ob2 := 9%nat; tr_inno := 0 |} ];
     gui_defined := fun _ => false;
     obj_ninlets := fun _ => 1%nat;
     obj_noutlets := fun _ => 1%nat;
     obj_bounds := fun _ => no_bounds |}.

(** ** Vocabulary of the properties *)

(** The number of boxes that stand for the engine object [o]. *)
Definition proxies (o : t_gobj) (bs : list Box) : nat :=
  length (filter (points_to o) bs).


(** The sort key of a box: where its engine object stands in [objects], or
    their number when it is not among them. *)
Definition position (objects : list t_gobj) (b : Box) : nat :=
  find_offset (getPointer b) objects.

(** Every edge of a box names that box as its owner. *)
Definition edges_owned (b : Box) : Prop :=
  Forall (fun e => edge_box e = box_this b) (edges b).

(** What the C++ heap guarantees of the boxes of a canvas: they sit at
    distinct addresses below the next free one, and own their edges. *)
Definition heap_wf (cv : Canvas) : Prop :=
  NoDup (map box_this (boxes cv))
  /\ Forall (fun b => (box_this b < heap_next cv)%nat) (boxes cv)
  /\ Forall edges_owned (boxes cv).

(** The box pointer [a] of a connection leads to a box whose engine object
    is one of [objects]. *)
Definition endpoint_live (objects : list t_gobj) (bs : list Box) (a : nat) : Prop :=
  exists b o, deref_box bs a = Some b /\ getPointer b = Some o /\ In o objects.



(** The key codes differ from one another, as those of JUCE do. *)
Definition distinct_keys (keys : KeyCodes) : Prop :=
  NoDup [leftKey keys; rightKey keys; upKey keys; downKey keys;
         backspaceKey keys; pageUpKey keys; pageDownKey keys; homeKey keys;
         escapeKey keys; deleteKey keys; returnKey keys; tabKey keys].

(** The keys that line 640 of Canvas.cpp lists. *)
Definition ignored_keys (keys : KeyCodes) : list Z :=
  [backspaceKey keys; pageUpKey keys; pageDownKey keys; homeKey keys;
   escapeKey keys; deleteKey keys; returnKey keys; tabKey keys].

Definition arrow_keys (keys : KeyCodes) : list Z :=
  [leftKey keys; rightKey keys; upKey keys; downKey keys].

(** A set of distinct key codes, in the style of JUCE on X11: the low byte
    of the key symbol, with a flag bit for the extended keys. *)
Definition sample_keys : KeyCodes :=
  {| leftKey := 268435537; rightKey := 268435539; upKey := 268435538;
     downKey := 268435540; backspaceKey := 8; pageUpKey := 268435541;
     pageDownKey := 268435542; homeKey := 268435536; escapeKey := 27;
     deleteKey := 268435711; returnKey := 13; tabKey := 9 |}.

(** An engine that accepts a connection only into inlet 0, finds every
    object patchable, and whose calls leave the canvas as it is. *)
Definition sample_canconnect (_ : t_canvas) (_ : voidp) (_ : Z) (_ : voidp) (nin : Z) : bool :=
  nin =? 0.
Definition sample_checkobject (_ : t_canvas) (obj : t_gobj) : voidp := Some obj.
Definition sample_effect (_ : Patch.pd_call) (cnv : t_canvas) : t_canvas := cnv.

(** The patch of [sample_patch] with nothing queued and no call made. *)
Definition idle_patch : Patch.t :=
  {| Patch.ptr := Some sample_patch; Patch.queue := []; Patch.calls := [] |}.


(** A box that has no engine object yet: no pointer, no widget, no ports. *)
Definition blank_box (this_ : nat) : Box :=
  {| box_this := this_; getPointer := None; gui := false;
     numInputs := 0; numOutputs := 0; edges := [];
     box_bounds := no_bounds |}.

(** A canvas with two such boxes; both have the same sort key. *)
Definition canvas_with_two_blank_boxes : Canvas :=
  {| isGraph := false; presentationMode := false;
     boxes := [blank_box 50; blank_box 51];
     connections := []; selectedComponents := [];
     heap_next := 104; console := [] |}.

(** A canvas with twenty such boxes, at the addresses 50 to 69. *)
Definition canvas_with_twenty_blank_boxes : Canvas :=
  {| isGraph := false; presentationMode := false;
     boxes := map blank_box (seq 50 20);
     connections := []; selectedComponents := [];
     heap_next := 104; console := [] |}.

(** No engine object has two boxes. *)
Definition unique_boxes (bs : list Box) : Prop :=
  forall o, (proxies o bs <= 1)%nat.

(** What the constructor of Connection establishes: the two weak edge
    pointers, unless one is null, name inlet [inIdx] of the box [inbox] and
    outlet [outIdx] of the box [outbox]. *)
Definition con_wf (c : Connection) : Prop :=
  inlet c = None \/ outlet c = None
  \/ (0 <= inIdx c /\ 0 <= outIdx c
      /\ inlet c = Some {| edge_box := inbox c; isInlet := true;
                           edgeIdx := Z.to_nat (inIdx c) |}
      /\ outlet c = Some {| edge_box := outbox c; isInlet := false;
                            edgeIdx := Z.to_nat (outIdx c) |}).

(** What the engine guarantees of its cords: both ends are listed objects,
    and the outlet and inlet indices exist on them. *)
Definition cords_consistent (cnv : t_canvas) : Prop :=
  Forall (fun t =>
            In (tr_ob t) (Patch.getObjects (Some cnv) false)
            /\ In (tr_ob2 t) (Patch.getObjects (Some cnv) false)
            /\ 0 <= tr_outno t < Z.of_nat (obj_noutlets cnv (tr_ob t))
            /\ 0 <= tr_inno t < Z.of_nat (obj_ninlets cnv (tr_ob2 t)))
         (gl_lines cnv).


(** The connection that stands for the engine cord from outlet [outno] of
    the object of [srcBox] to inlet [inno] of the object of [sinkBox]. *)
Definition cord_connection (this_ : nat) (srcBox sinkBox : Box) (inno outno : Z) : Connection :=
  {| con_this := this_;
     inlet := Some {| edge_box := box_this sinkBox; isInlet := true;
                      edgeIdx := Z.to_nat inno |};
     outlet := Some {| edge_box := box_this srcBox; isInlet := false;
                       edgeIdx := Z.to_nat outno |};
     inbox := box_this sinkBox; outbox := box_this srcBox;
     inIdx := inno; outIdx := outno |}.

(** The engine tuple resolves to two boxes of [bs], passes the guard of
    line 237, and one of the connections [cs] stands for it. *)
Definition matched (cnv : t_canvas) (bs : list Box) (cs : list Connection)
    (connection : Z * t_gobj * Z * t_gobj) : Prop :=
  let '(inno, inobj, outno, outobj) := connection in
  exists srcBox sinkBox,
    at_index bs (Patch.getIndex cnv (Some inobj)) = Some srcBox
    /\ at_index bs (Patch.getIndex cnv (Some outobj)) = Some sinkBox
    /\ outno < size (edges srcBox) /\ inno < size (edges sinkBox)
    /\ existsb (same_connection bs inno outno srcBox sinkBox) cs = true.

(** The box list is in step with the engine: distinct addresses, one box
    per object, sorted by position, a box for every listed object, and the
    boxes of listed objects up to date. *)
Definition in_step (cnv : t_canvas) (upd : bool) (bs : list Box) : Prop :=
  let objects := Patch.getObjects (Some cnv) false in
  NoDup (map box_this bs)
  /\ unique_boxes bs
  /\ StronglySorted (fun a b => (position objects a <= position objects b)%nat) bs
  /\ (forall o, In o objects -> exists b, In b bs /\ getPointer b = Some o)
  /\ (forall b o, In b bs -> In o objects -> getPointer b = Some o ->
                  refresh_box cnv upd b = b).


(** The connection [c] stands for a cord of the engine between two boxes
    of [bs] that show the edges it uses. *)
Definition cord_of (cnv : t_canvas) (bs : list Box) (c : Connection) : Prop :=
  exists t srcBox sinkBox,
    In t (gl_lines cnv)
    /\ In srcBox bs /\ In sinkBox bs
    /\ getPointer srcBox = Some (tr_ob t) /\ getPointer sinkBox = Some (tr_ob2 t)
    /\ In {| edge_box := box_this srcBox; isInlet := false;
             edgeIdx := Z.to_nat (tr_outno t) |} (edges srcBox)
    /\ In {| edge_box := box_this sinkBox; isInlet := true;
             edgeIdx := Z.to_nat (tr_inno t) |} (edges sinkBox)
    /\ c = cord_connection (con_this c) srcBox sinkBox (tr_inno t) (tr_outno t).

(** The tuple that [getConnections] makes of a cord. *)
Definition tuple_of (t : t_line) : Z * t_gobj * Z * t_gobj :=
  (tr_inno t, tr_ob t, tr_outno t, tr_ob2 t).


(** The canvas shows the patch: the boxes are in step with the engine, no
    box with a widget is left of a deprecated object, nothing is selected,
    and, unless the canvas is a graph or in presentation mode, every
    connection passes the test of lines 157-170 and every cord of the
    engine has its connection. *)
Definition reconciled (cnv : t_canvas) (upd : bool) (cv : Canvas) : Prop :=
  let objects := Patch.getObjects (Some cnv) false in
  in_step cnv upd (boxes cv)
  /\ (forall b, In b (boxes cv) ->
        gui b && isObjectDeprecated objects (getPointer b) = false)
  /\ selectedComponents cv = []
  /\ (isGraph cv || presentationMode cv = false ->
      (forall c, In c (connections cv) ->
         connection_deprecated cnv objects (boxes cv) c = Done false)
      /\ (forall t, In t (gl_lines cnv) ->
            matched cnv (boxes cv) (connections cv) (tuple_of t))).

(** The same canvas as a graph, on which synchronise runs the box passes
    only. *)
Definition as_graph (cv : Canvas) : Canvas :=
  {| isGraph := true; presentationMode := presentationMode cv;
     boxes := boxes cv; connections := connections cv;
     selectedComponents := selectedComponents cv;
     heap_next := heap_next cv; console := console cv |}.


(** A box keeps its address, its engine pointer and its widget when it is
    refreshed. *)
Definition same_identity (b b' : Box) : Prop :=
  box_this b' = box_this b /\ getPointer b' = getPointer b /\ gui b' = gui b.

(** How a box of the list may differ after the loop over [objects]: it was
    refreshed, and only if its object is one of them. *)
Definition evolves (cnv : t_canvas) (upd : bool) (objects : list t_gobj) (b b' : Box) : Prop :=
  b' = b
  \/ ((exists o, In o objects /\ getPointer b = Some o) /\ b' = refresh_box cnv upd b).

(** Boxes that the loop of lines 184-210 appends: fresh proxies of listed
    objects at fresh addresses. *)
Definition fresh_box (cnv : t_canvas) (objects : list t_gobj) (lo hi : nat) (b : Box) : Prop :=
  exists o a, In o objects /\ (lo <= a < hi)%nat /\ b = new_Box cnv o a.

(** A connection that the loop made for one of the engine's tuples. *)
Definition made_for (cnv : t_canvas) (bs : list Box) (pdConnections : Patch.Connections)
    (c : Connection) : Prop :=
  exists inno inobj outno outobj srcBox sinkBox,
    In (inno, inobj, outno, outobj) pdConnections
    /\ at_index bs (Patch.getIndex cnv (Some inobj)) = Some srcBox
    /\ at_index bs (Patch.getIndex cnv (Some outobj)) = Some sinkBox
    /\ new_Connection (con_this c)
         (at_index (edges srcBox) (Z.of_nat (numInputs srcBox) + outno))
         (at_index (edges sinkBox) inno) = Done c.

(** ** Further members of the accessor (PdPatch.cpp) *)

Module PatchMore.

(** The loop of the static helper [glist_getindex] (389-396): [indx]
    counts the chain objects in front of [y]; the walk ends at [y] or
    where the chain ends. *)
Fixpoint glist_getindex_loop (y2 : list t_gobj) (y : voidp) (indx : Z) : Z :=
  match y2 with
  | [] => indx
  | g :: rest =>
      if voidp_eqb (Some g) y then indx else glist_getindex_loop rest y (indx + 1)
  end.

Definition glist_getindex (x : t_canvas) (y : voidp) : Z :=
  glist_getindex_loop (gl_list x) y 0.

Section Engine.

Variable libpd_canconnect : t_canvas -> voidp -> Z -> voidp -> Z -> bool.
Variable pd_checkobject : t_canvas -> t_gobj -> voidp.
Variable pd_effect : Patch.pd_call -> t_canvas -> t_canvas.

(** The closure of [Patch::canConnect] (520): one query of the engine, the
    answer goes to the captured [canConnect]. *)
Definition run_canConnect (src : Patch.Object) (nout : Z) (sink : Patch.Object) (nin : Z)
    (e : Patch.engine) : bool * Patch.engine :=
  let src' := Patch.checkObject pd_checkobject e src in
  let sink' := Patch.checkObject pd_checkobject e sink in
  (libpd_canconnect (fst e) src' nout sink' nin,
   Patch.query (Patch.call_canconnect src' nout sink' nin) e).

(** [bool Patch::canConnect(Object* src, int nout, Object* sink, int nin)]
    (516-525). There is no null check: the closure is queued behind what is
    pending and the caller waits for it; [checkObject] reads through [src]
    and [sink], the engine through the canvas pointer. *)
Definition canConnect (src : option Patch.Object) (nout : Z)
    (sink : option Patch.Object) (nin : Z) (p : Patch.t) : outcome (bool * Patch.t) :=
  match src, sink, Patch.ptr p with
  | Some s, Some k, Some cnv =>
      let e := Patch.drain libpd_canconnect pd_checkobject pd_effect
                 (Patch.queue p) (cnv, Patch.calls p) in
      let r := run_canConnect s nout k nin e in
      Done (fst r, Patch.settled (snd r))
  | _, _, _ => Undefined NullDereference
  end.

End Engine.

(** *** The argument vector of [Patch::createObject] (275-357)

    A string is the sequence of the bytes of its UTF-8 text. *)

(** [StringArray::operator[]]: the empty string when the index is out of
    range. *)
Definition token (tokens : list string) (i : nat) : string := nth i tokens EmptyString.

(** [String::containsOnly]: every character of [s] is one of [chars]. *)
Definition containsOnly (chars s : string) : bool :=
  forallb (fun c => existsb (Ascii.eqb c) (list_ascii_of_string chars))
          (list_ascii_of_string s).

(** Where the value of a float atom comes from: an [int] that is cast, or
    a token that [getFloatValue] parses. *)
Inductive float_source : Type :=
| of_int (x : Z)
| of_token (tok : string).

Inductive t_atom : Type :=
| A_FLOAT (f : float_source)
| A_SYMBOL (s : string).

(** One [if] of lines 312-336: when the first token is one of [keywords],
    the type symbol becomes [symbol] and the token is removed. *)
Definition strip_keyword (keywords : list string) (symbol : string)
    (st : string * list string) : string * list string :=
  if existsb (String.eqb (token (snd st) 0)) keywords
  then (symbol, tl (snd st))
  else st.

(** Lines 310-336: the five tests run one after the other, each on what
    the one before left. *)
Definition type_and_arguments (tokens : list string) : string * list string :=
  let st := ("obj"%string, tokens) in
  let st := strip_keyword ["msg"; "message"]%string "msg" st in
  let st := strip_keyword ["comment"]%string "text" st in
  let st := strip_keyword ["floatatom"]%string "floatatom" st in
  let st := strip_keyword ["listbox"]%string "listbox" st in
  strip_keyword ["symbolatom"]%string "symbolatom" st.

(** The test of line 349 and the atom it makes of a token. *)
Definition atom_of_token (tok : string) : t_atom :=
  if containsOnly "0123456789e.-+" tok && negb (String.eqb tok "-")
  then A_FLOAT (of_token tok)
  else A_SYMBOL tok.

(** What [Patch::createObject] asks of the engine. *)
Inductive creation : Type :=
| graph_array (name : string) (size : string) (* createGraph(tokens[1], tokens[2].getIntValue(), x, y) *)
| graph_on_parent                             (* createGraphOnParent(x, y) *)
| createobj (typesymbol : string) (argv : list t_atom).

(** Lines 301-357, on the tokens that line 299 leaves. The length of [argv]
    is [argc]. *)
Definition createObject_request (tokens : list string) (x y : Z) : creation :=
  if String.eqb (token tokens 0) "graph" && Nat.eqb (length tokens) 3
  then graph_array (token tokens 1) (token tokens 2)
  else if String.eqb (token tokens 0) "graph" then graph_on_parent
  else
    let '(typesymbol, tokens) := type_and_arguments tokens in
    createobj typesymbol
      (A_FLOAT (of_int x) :: A_FLOAT (of_int y) :: map atom_of_token tokens).

Section CreateObject.

(** [StringArray::addTokens(text, false)] and [String::replace] of JUCE:
    the tokens of a text, and a text with every occurrence of one string
    replaced by another. *)
Variable addTokens : string -> list string.
Variable replace : string -> string -> string -> string.

(** [guiDefaults] (declared in PdPatch.h): the preset parameters of an
    object name, for the names that have them. *)
Variable guiDefaults : string -> option string.

(** The colours of the instance as lines 289-291 write them: the
    background, the foreground, and the colour that contrasts with the
    background. *)
Variable bg fg lbl : string.

(** Lines 292-294: the colours are filled in. *)
Definition coloured (preset : string) : string :=
  let preset := replace preset "bgColour" ("#" ++ bg) in
  let preset := replace preset "fgColour" ("#" ++ fg) in
  replace preset "lblColour" ("#" ++ lbl).

(** Lines 279-299: the tokens of the name, followed by those of the preset
    that [guiDefaults] holds for the first of them. *)
Definition createObject_tokens (name : string) : list string :=
  let tokens := addTokens name in
  match guiDefaults (token tokens 0) with
  | Some preset => tokens ++ addTokens (coloured preset)
  | None => tokens
  end.

(** [std::unique_ptr<Object> Patch::createObject(const String& name, int x,
    int y)] up to line 357: on a patch without canvas it returns at once
    and asks nothing of the engine. *)
Definition createObject (ptr : option t_canvas) (name : string) (x y : Z)
    : option creation :=
  match ptr with
  | None => None
  | Some _ => Some (createObject_request (createObject_tokens name) x y)
  end.

End CreateObject.

End PatchMore.

(** ** The console of the processor (PluginProcessor.h 76-93) *)

(** A [juce::String] is a sequence of Unicode characters, whatever the
    bytes that store it; a character is given by its code point. *)
Definition juce_wchar : Type := N.
Definition juce_String : Type := list juce_wchar.

(** A string literal of the source; its characters are ASCII. *)
Definition literal (s : string) : juce_String :=
  map Ascii.N_of_ascii (list_ascii_of_string s).

(** Modelled from the spec: [logMessage] and [logError] (PdInstance is not
    among the sources) print one line each to the console, a message or an
    error. *)
Inductive console_line : Type :=
| logMessage (text : juce_String)
| logError (text : juce_String).

(** [String::startsWith]: the first characters of [text] are those of
    [other]. *)
Fixpoint startsWith (text other : juce_String) : bool :=
  match other, text with
  | [], _ => true
  | o :: other, c :: text => N.eqb c o && startsWith text other
  | _ :: _, [] => false
  end.

(** [String::substring(start)]: the string from the character of index
    [start] on, empty when the string is shorter. *)
Fixpoint substring (start : nat) (s : juce_String) : juce_String :=
  match start, s with
  | O, _ => s
  | S n, _ :: rest => substring n rest
  | S _, [] => []
  end.

(** [void receivePrint(const String& message)]. *)
Definition receivePrint (message : juce_String) (log : list console_line)
    : list console_line :=
  match message with
  | [] => log
  | _ :: _ =>
      if startsWith message (literal "error:")
      then log ++ [logError (substring 7 message)]
      else if startsWith message (literal "verbose(4):")
      then log ++ [logError (substring 12 message)]
      else log ++ [logMessage message]
  end.

(** ** The selection of the canvas (Canvas.cpp 892-914, 1090-1093)

    A component (a box or a connection) is given by its address. *)

(** [SelectedItemSet::addToSelection]: the item is appended unless it is
    selected already. *)
Definition addToSelection (item : nat) (selectedItems : list nat) : list nat :=
  if existsb (Nat.eqb item) selectedItems then selectedItems else selectedItems ++ [item].

(** [SelectedItemSet::deselect]: the item is removed where [indexOf] finds
    it, which is its first occurrence. *)
Fixpoint deselect (item : nat) (selectedItems : list nat) : list nat :=
  match selectedItems with
  | [] => []
  | x :: rest => if Nat.eqb x item then rest else x :: deselect item rest
  end.

Definition with_selection (cv : Canvas) (selected : list nat) : Canvas :=
  {| isGraph := isGraph cv; presentationMode := presentationMode cv;
     boxes := boxes cv; connections := connections cv;
     selectedComponents := selected;
     heap_next := heap_next cv; console := console cv |}.

(** [bool Canvas::isSelected(Component* component) const] (911-914). *)
Definition isSelected (cv : Canvas) (component : nat) : bool :=
  existsb (fun c => Nat.eqb c component) (selectedComponents cv).

(** [void Canvas::removeSelectedComponent(Component* component)]
    (1090-1093). *)
Definition removeSelectedComponent (component : nat) (cv : Canvas) : Canvas :=
  with_selection cv (deselect component (selectedComponents cv)).

(** [void Canvas::setSelected(Component* component, bool
    shouldNowBeSelected)] (892-909); repainting and the command status of
    the main window are not canvas state. *)
Definition setSelected (component : nat) (shouldNowBeSelected : bool) (cv : Canvas)
    : Canvas :=
  let isAlreadySelected := isSelected cv component in
  let cv := if negb isAlreadySelected && shouldNowBeSelected
            then with_selection cv (addToSelection component (selectedComponents cv))
            else cv in
  if isAlreadySelected && negb shouldNowBeSelected
  then removeSelectedComponent component cv
  else cv.

(** ** Canvas::findLassoItemsInArea (Canvas.cpp 1095-1128) *)

(** [juce::Rectangle<int>::intersects]. *)
Definition intersects (a b : Rectangle) : bool :=
  (rx a + rw a >? rx b) && (ry a + rh a >? ry b)
  && (rx a <? rx b + rw b) && (ry a <? ry b + rh b)
  && (rw a >? 0) && (rh a >? 0) && (rw b >? 0) && (rh b >? 0).

(** [juce::Rectangle<int>::translated]. *)
Definition translated (r : Rectangle) (dx dy : Z) : Rectangle :=
  {| rx := rx r + dx; ry := ry r + dy; rw := rw r; rh := rh r |}.

Section Lasso.

(** [ModifierKeys::getCurrentModifiers().isAnyModifierKeyDown()] during the
    call, the bounds of the lasso component, and of a connection its
    bounds and the hit test of its path ([Connection::intersects];
    Connection.cpp is not among the sources). *)
Variable isAnyModifierKeyDown : bool.
Variable lasso_getBounds : Rectangle.
Variable Connection_getBounds : Connection -> Rectangle.
Variable Connection_intersects : Connection -> Rectangle -> bool.

(** One turn of the loop of lines 1097-1109; the state is [itemsFound] and
    the canvas. *)
Definition lasso_box (area : Rectangle) (st : list nat * Canvas) (element : Box)
    : list nat * Canvas :=
  if intersects area (box_bounds element)
  then (fst st ++ [box_this element], setSelected (box_this element) true (snd st))
  else if negb isAnyModifierKeyDown
       then (fst st, setSelected (box_this element) false (snd st))
       else st.

(** One turn of the loop of lines 1111-1127. *)
Definition lasso_connection (st : list nat * Canvas) (con : Connection)
    : list nat * Canvas :=
  if negb (intersects (Connection_getBounds con) lasso_getBounds) then st
  else if Connection_intersects con
            (translated lasso_getBounds (- rx (Connection_getBounds con))
                                        (- ry (Connection_getBounds con)))
       then (fst st ++ [con_this con], setSelected (con_this con) true (snd st))
       else if negb isAnyModifierKeyDown
            then (fst st, setSelected (con_this con) false (snd st))
            else st.

Definition findLassoItemsInArea (itemsFound : list nat) (area : Rectangle) (cv : Canvas)
    : list nat * Canvas :=
  fold_left lasso_connection (connections cv)
            (fold_left (lasso_box area) (boxes cv) (itemsFound, cv)).

End Lasso.

(** ** Canvas::valueChanged (Canvas.cpp 830-880) *)

(** The [Value] that changed, as [refersToSameSourceAs] tells them apart. *)
Inductive Value : Type :=
| locked_value
| commandLocked_value
| presentationMode_value
| isGraphChild_value
| hideNameAndArgs_value
| unrelated_value.

(** The canvas with the further members that [valueChanged] reads and
    writes (Canvas.h is not among the sources): the edges of a connection
    in the making, the content of the values [commandLocked],
    [isGraphChild] and [hideNameAndArgs], the address of the graph area or
    null, and the two flags of the patch's [t_canvas] that are written
    through [patch.getPointer()], which is not null. *)
Record Editor : Type := {
  canvas : Canvas;
  connectingEdges : list Edge;
  commandLocked : bool;
  isGraphChild : bool;
  hideNameAndArgs : bool;
  graphArea : option nat;
  gl_isgraph : bool;
  gl_hidetext : bool
}.

(** [connections.clear()]. *)
Definition clear_connections (cv : Canvas) : Canvas :=
  {| isGraph := isGraph cv; presentationMode := presentationMode cv;
     boxes := boxes cv; connections := [];
     selectedComponents := selectedComponents cv;
     heap_next := heap_next cv; console := console cv |}.

(** The canvas after operator new has handed out the next address. *)
Definition after_new (cv : Canvas) : Canvas :=
  {| isGraph := isGraph cv; presentationMode := presentationMode cv;
     boxes := boxes cv; connections := connections cv;
     selectedComponents := selectedComponents cv;
     heap_next := S (heap_next cv); console := console cv |}.

Section ValueChanged.

Variable std_sort : (Box -> Box -> bool) -> list Box -> list Box.

(** [cnv] is the engine state that the call of [synchronise()] finds; its
    argument defaults to [true]. The value has its new content when the
    listener runs. Repainting and the keyboard focus are left out. *)
Definition valueChanged (v : Value) (cnv : t_canvas) (ed : Editor) : outcome Editor :=
  match v with
  | locked_value =>
      Done {| canvas := deselectAll (canvas ed); connectingEdges := [];
              commandLocked := commandLocked ed; isGraphChild := isGraphChild ed;
              hideNameAndArgs := hideNameAndArgs ed; graphArea := graphArea ed;
              gl_isgraph := gl_isgraph ed; gl_hidetext := gl_hidetext ed |}
  | commandLocked_value => Done ed
  | presentationMode_value =>
      let cv := deselectAll (canvas ed) in
      let cv := if presentationMode cv then clear_connections cv else cv in
      cv' <- synchronise std_sort true cnv cv ;;
      Done {| canvas := cv'; connectingEdges := connectingEdges ed;
              commandLocked := presentationMode (canvas ed);
              isGraphChild := isGraphChild ed;
              hideNameAndArgs := hideNameAndArgs ed; graphArea := graphArea ed;
              gl_isgraph := gl_isgraph ed; gl_hidetext := gl_hidetext ed |}
  | isGraphChild_value =>
      if isGraphChild ed && negb (isGraph (canvas ed))
      then Done {| canvas := after_new (canvas ed); connectingEdges := connectingEdges ed;
                   commandLocked := commandLocked ed; isGraphChild := isGraphChild ed;
                   hideNameAndArgs := hideNameAndArgs ed;
                   graphArea := Some (heap_next (canvas ed));
                   gl_isgraph := isGraphChild ed; gl_hidetext := gl_hidetext ed |}
      else Done {| canvas := canvas ed; connectingEdges := connectingEdges ed;
                   commandLocked := commandLocked ed; isGraphChild := isGraphChild ed;
                   hideNameAndArgs := hideNameAndArgs ed; graphArea := None;
                   gl_isgraph := isGraphChild ed; gl_hidetext := gl_hidetext ed |}
  | hideNameAndArgs_value =>
      Done {| canvas := canvas ed; connectingEdges := connectingEdges ed;
              commandLocked := commandLocked ed; isGraphChild := isGraphChild ed;
              hideNameAndArgs := hideNameAndArgs ed; graphArea := graphArea ed;
              gl_isgraph := gl_isgraph ed; gl_hidetext := hideNameAndArgs ed |}
  | unrelated_value => Done ed
  end.

End ValueChanged.

(** ** The editing members of the accessor and the canvas

    [Patch::selectObject], [deselectAll], [removeObject],
    [removeConnection], [finishRemove], [removeSelection], [copy], [paste],
    [duplicate], [undo] and [redo] (PdPatch.cpp 450-514, 550-638) queue a
    closure and return; [Canvas::copySelection], [pasteSelection],
    [duplicateSelection] and [removeSelection] (Canvas.cpp 660-769) call
    them. The queue of [Patch] above holds two kinds of closure; here it
    holds all of them. *)

Module PatchEdit.

Inductive pd_call : Type :=
| base (c : Patch.pd_call)        (* the calls of the accessor above *)
| call_removeconnection (src : voidp) (nout : Z) (sink : voidp) (nin : Z)
| call_removeobj (obj : voidp)
| call_removeselection
| call_finishremove
| call_copy
| call_paste (text : string)
| call_duplicate
| call_undo
| call_redo.

Inductive mutation : Type :=
| base_fn (m : Patch.mutation)    (* the closures of the accessor above *)
| selectObject_fn (obj : option Patch.Object)
| deselectAll_fn
| removeObject_fn (obj : Patch.Object)
| removeConnection_fn (src : Patch.Object) (nout : Z) (sink : Patch.Object) (nin : Z)
| finishRemove_fn
| removeSelection_fn
| copy_fn
| paste_fn (text : string)
| duplicate_fn
| undo_fn
| redo_fn.

Record t : Type := {
  ptr : option t_canvas;
  queue : list mutation;
  calls : list pd_call
}.

Section Engine.

(** [libpd_canconnect], [pd_checkobject], [glist_isselected] and the
    effect of an engine call on the canvas. *)
Variable libpd_canconnect : t_canvas -> voidp -> Z -> voidp -> Z -> bool.
Variable pd_checkobject : t_canvas -> t_gobj -> voidp.
Variable glist_isselected : t_canvas -> voidp -> bool.
Variable pd_effect : pd_call -> t_canvas -> t_canvas.

Definition engine := (t_canvas * list pd_call)%type.

Definition call (c : pd_call) (e : engine) : engine :=
  (pd_effect c (fst e), snd e ++ [c]).

(** [setCurrent()] inside a closure. *)
Definition setCurrent (e : engine) : engine := call (base Patch.call_setCurrent) e.

(** A closure of the accessor above, run on this engine: the same calls in
    the same order. *)
Definition run_base (m : Patch.mutation) (e : engine) : engine :=
  let r := Patch.run libpd_canconnect pd_checkobject (fun c => pd_effect (base c)) m
                     (fst e, []) in
  (fst r, snd e ++ map base (snd r)).

(** The closures, in the order of PdPatch.cpp. That of [selectObject]
    reads through [obj] without a test. That of [copy] also hands the text
    it gets from the engine to the system clipboard, asynchronously; the
    clipboard is not part of the patch. *)
Definition run (m : mutation) (e : engine) : outcome engine :=
  match m with
  | base_fn m => Done (run_base m e)
  | copy_fn => Done (call call_copy e)
  | paste_fn text => Done (call (call_paste text) e)
  | duplicate_fn => Done (call call_duplicate (setCurrent e))
  | selectObject_fn None => Undefined NullDereference
  | selectObject_fn (Some obj) =>
      let checked := pd_checkobject (fst e) obj in
      if negb (glist_isselected (fst e) checked)
      then Done (call (base (Patch.call_select checked)) e)
      else Done e
  | deselectAll_fn =>
      Done (call (base Patch.call_reset_undo_move) (call (base Patch.call_noselect) e))
  | removeObject_fn obj =>
      let e := setCurrent e in
      Done (call (call_removeobj (pd_checkobject (fst e) obj)) e)
  | removeConnection_fn src nout sink nin =>
      let e := setCurrent e in
      Done (call (call_removeconnection (pd_checkobject (fst e) src) nout
                                        (pd_checkobject (fst e) sink) nin) e)
  | finishRemove_fn => Done (call call_finishremove (setCurrent e))
  | removeSelection_fn => Done (call call_removeselection (setCurrent e))
  | undo_fn =>
      let e := setCurrent e in
      let e := call (base Patch.call_noselect) e in
      let e := call (base Patch.call_reset_undo_move) e in
      let e := call call_undo e in
      Done (setCurrent e)
  | redo_fn =>
      let e := setCurrent e in
      let e := call (base Patch.call_noselect) e in
      let e := call (base Patch.call_reset_undo_move) e in
      let e := call call_redo e in
      Done (setCurrent e)
  end.

(** Modelled from the spec: [enqueueFunction] and [waitForStateUpdate] of
    the instance, as for [Patch] above: first in, first out, and the wait
    returns once everything queued has run. *)
Definition enqueueFunction (m : mutation) (p : t) : t :=
  {| ptr := ptr p; queue := queue p ++ [m]; calls := calls p |}.

Fixpoint drain (ms : list mutation) (e : engine) : outcome engine :=
  match ms with
  | [] => Done e
  | m :: rest => e' <- run m e ;; drain rest e'
  end.

Definition settled (e : engine) : t :=
  {| ptr := Some (fst e); queue := []; calls := snd e |}.

Definition waitForStateUpdate (p : t) : outcome t :=
  match queue p, ptr p with
  | [], _ => Done p
  | ms, Some cnv => e <- drain ms (cnv, calls p) ;; Done (settled e)
  | _ :: _, None => Undefined NullDereference
  end.

(** The members of [Patch]. [paste] is given the text it reads from the
    system clipboard. *)
Definition copy (p : t) : t := enqueueFunction copy_fn p.
Definition paste (text : string) (p : t) : t := enqueueFunction (paste_fn text) p.
Definition duplicate (p : t) : t := enqueueFunction duplicate_fn p.
Definition selectObject (obj : option Patch.Object) (p : t) : t :=
  enqueueFunction (selectObject_fn obj) p.
Definition deselectAll (p : t) : t := enqueueFunction deselectAll_fn p.

Definition removeObject (obj : option Patch.Object) (p : t) : t :=
  match obj, ptr p with
  | Some o, Some _ => enqueueFunction (removeObject_fn o) p
  | _, _ => p
  end.

Definition removeConnection (src : option Patch.Object) (nout : Z)
    (sink : option Patch.Object) (nin : Z) (p : t) : t :=
  match src, sink, ptr p with
  | Some s, Some k, Some _ => enqueueFunction (removeConnection_fn s nout k nin) p
  | _, _, _ => p
  end.

Definition moveObjects (objects : list (option Patch.Object)) (dx dy : Z) (p : t) : t :=
  enqueueFunction (base_fn (Patch.moveObjects_fn objects dx dy)) p.
Definition finishRemove (p : t) : t := enqueueFunction finishRemove_fn p.
Definition removeSelection (p : t) : t := enqueueFunction removeSelection_fn p.
Definition undo (p : t) : t := enqueueFunction undo_fn p.
Definition redo (p : t) : t := enqueueFunction redo_fn p.

End Engine.

End PatchEdit.

Section CanvasEdit.

Variable libpd_canconnect : t_canvas -> voidp -> Z -> voidp -> Z -> bool.
Variable pd_checkobject : t_canvas -> t_gobj -> voidp.
Variable glist_isselected : t_canvas -> voidp -> bool.
Variable pd_effect : PatchEdit.pd_call -> t_canvas -> t_canvas.
Variable std_sort : (Box -> Box -> bool) -> list Box -> list Box.

(** [Canvas::synchronise] with its patch: the wait of line 137, then
    [patch.setCurrent(true)], which calls the engine at once, then the
    passes on what the engine holds. *)
Definition synchronise_patch (updatePosition : bool) (st : Canvas * PatchEdit.t)
    : outcome (Canvas * PatchEdit.t) :=
  p <- PatchEdit.waitForStateUpdate libpd_canconnect pd_checkobject glist_isselected
         pd_effect (snd st) ;;
  match PatchEdit.ptr p with
  | None => Undefined NullDereference
  | Some cnv =>
      let e := PatchEdit.setCurrent pd_effect (cnv, PatchEdit.calls p) in
      cv <- synchronise std_sort updatePosition (fst e) (fst st) ;;
      Done (cv, {| PatchEdit.ptr := Some (fst e); PatchEdit.queue := PatchEdit.queue p;
                   PatchEdit.calls := snd e |})
  end.

(** The loops of lines 663-669 and 698-704: every selected box has its
    pointer handed to [selectObject], null or not. *)
Definition select_in_engine (cv : Canvas) (p : PatchEdit.t) : PatchEdit.t :=
  fold_left (fun p box => PatchEdit.selectObject (getPointer box) p)
            (getSelectionOfType_Box cv) p.

(** [void Canvas::copySelection()] (660-674). *)
Definition copySelection (st : Canvas * PatchEdit.t) : Canvas * PatchEdit.t :=
  let p := select_in_engine (fst st) (snd st) in
  (fst st, PatchEdit.deselectAll (PatchEdit.copy p)).

(** The loops of lines 684-690 and 713-719: the boxes whose object the
    engine holds selected become selected. *)
Definition select_from_engine (cnv : t_canvas) (cv : Canvas) : Canvas :=
  fold_left (fun cv box =>
               if glist_isselected cnv (getPointer box)
               then setSelected (box_this box) true cv
               else cv)
            (boxes cv) cv.

(** Lines 681-692 and 709-721, which the two functions share: synchronise
    without update of the positions, take the selection from the engine,
    and have the engine deselect. *)
Definition show_engine_selection (st : Canvas * PatchEdit.t)
    : outcome (Canvas * PatchEdit.t) :=
  st <- synchronise_patch false st ;;
  match PatchEdit.ptr (snd st) with
  | None => Undefined NullDereference
  | Some cnv =>
      Done (select_from_engine cnv (fst st), PatchEdit.deselectAll (snd st))
  end.

(** [void Canvas::pasteSelection()] (676-693); [text] is what the system
    clipboard holds. *)
Definition pasteSelection (text : string) (st : Canvas * PatchEdit.t)
    : outcome (Canvas * PatchEdit.t) :=
  show_engine_selection (fst st, PatchEdit.paste text (snd st)).

(** [void Canvas::duplicateSelection()] (695-722). *)
Definition duplicateSelection (st : Canvas * PatchEdit.t)
    : outcome (Canvas * PatchEdit.t) :=
  let p := select_in_engine (fst st) (snd st) in
  show_engine_selection (fst st, PatchEdit.duplicate p).

(** The pointers that the loop of lines 733-744 collects in [objects]: those
    of the selected boxes that are not null. *)
Definition selected_objects (cv : Canvas) : list t_gobj :=
  flat_map (fun box => match getPointer box with
                       | Some o => [o]
                       | None => []
                       end) (getSelectionOfType_Box cv).

(** [Array<void*>::contains]. *)
Definition contains (objects : list t_gobj) (obj : voidp) : bool :=
  existsb (fun o => voidp_eqb (Some o) obj) objects.

(** One turn of the loop of lines 750-759. The boxes are read through the
    connection's pointers, the second only when the first test fails. *)
Definition remove_selected_cord (cv : Canvas) (objects : list t_gobj)
    (p : PatchEdit.t) (con : Connection) : outcome PatchEdit.t :=
  if isSelected cv (con_this con) then
    match deref_box (boxes cv) (outbox con) with
    | None => Undefined DanglingBox
    | Some ob =>
        if contains objects (getPointer ob) then Done p
        else
          match deref_box (boxes cv) (inbox con) with
          | None => Undefined DanglingBox
          | Some ib =>
              if contains objects (getPointer ib) then Done p
              else Done (PatchEdit.removeConnection (getPointer ob) (outIdx con)
                                                    (getPointer ib) (inIdx con) p)
          end
    end
  else Done p.

Fixpoint remove_selected_cords (cv : Canvas) (objects : list t_gobj)
    (cons : list Connection) (p : PatchEdit.t) : outcome PatchEdit.t :=
  match cons with
  | [] => Done p
  | con :: rest =>
      p' <- remove_selected_cord cv objects p con ;;
      remove_selected_cords cv objects rest p'
  end.

(** Lines 730-761 of [Canvas::removeSelection]: what it queues. *)
Definition removeSelection_requests (cv : Canvas) (p : PatchEdit.t) : outcome PatchEdit.t :=
  let p := PatchEdit.deselectAll p in
  let objects := selected_objects cv in
  let p := fold_left (fun p o => PatchEdit.selectObject (Some o) p) objects p in
  let p := PatchEdit.removeSelection p in
  p <- remove_selected_cords cv objects (connections cv) p ;;
  Done (PatchEdit.finishRemove p).

(** [void Canvas::removeSelection()] (724-769). *)
Definition removeSelection (st : Canvas * PatchEdit.t) : outcome (Canvas * PatchEdit.t) :=
  p <- removeSelection_requests (fst st) (snd st) ;;
  st <- synchronise_patch false (deselectAll (fst st), p) ;;
  Done (fst st, PatchEdit.deselectAll (snd st)).

End CanvasEdit.


(** What one turn of a loop of [findLassoItemsInArea] does with the
    component at address [a]: it is found and selected, deselected, or
    left as it is. *)
Definition lasso_turn (st : list nat * Canvas) (turn : nat * option bool)
    : list nat * Canvas :=
  match snd turn with
  | Some true => (fst st ++ [fst turn], setSelected (fst turn) true (snd st))
  | Some false => (fst st, setSelected (fst turn) false (snd st))
  | None => st
  end.

(** The turn that the loop of lines 1097-1109 takes on a box. *)
Definition box_turn (isAnyModifierKeyDown : bool) (area : Rectangle) (element : Box)
    : nat * option bool :=
  (box_this element,
   if intersects area (box_bounds element) then Some true
   else if negb isAnyModifierKeyDown then Some false else None).

(** The lasso reaches the bounds of the connection, and its path. *)
Definition lasso_reaches (lasso_getBounds : Rectangle)
    (Connection_getBounds : Connection -> Rectangle) (con : Connection) : bool :=
  intersects (Connection_getBounds con) lasso_getBounds.

Definition lasso_hits (lasso_getBounds : Rectangle)
    (Connection_getBounds : Connection -> Rectangle)
    (Connection_intersects : Connection -> Rectangle -> bool) (con : Connection) : bool :=
  Connection_intersects con
    (translated lasso_getBounds (- rx (Connection_getBounds con))
                                (- ry (Connection_getBounds con))).

(** The turn that the loop of lines 1111-1127 takes on a connection. *)
Definition connection_turn (isAnyModifierKeyDown : bool) (lasso_getBounds : Rectangle)
    (Connection_getBounds : Connection -> Rectangle)
    (Connection_intersects : Connection -> Rectangle -> bool) (con : Connection)
    : nat * option bool :=
  (con_this con,
   if negb (lasso_reaches lasso_getBounds Connection_getBounds con) then None
   else if lasso_hits lasso_getBounds Connection_getBounds Connection_intersects con
        then Some true
        else if negb isAnyModifierKeyDown then Some false else None).


(** ** Further sample data *)

(** A box with a widget whose object (77) the engine no longer lists, next
    to the box of object 1. *)
Definition stale_widget : Box := sample_box 50 77%nat true.

Definition canvas_with_stale_widget : Canvas :=
  {| isGraph := false; presentationMode := false;
     boxes := [stale_widget; sample_box 100 1%nat false];
     connections := []; selectedComponents := [];
     heap_next := 104; console := [] |}.

(** [sample_canvas] in presentation mode, and with its further members. *)
Definition presented_canvas : Canvas :=
  {| isGraph := false; presentationMode := true;
     boxes := boxes sample_canvas; connections := connections sample_canvas;
     selectedComponents := selectedComponents sample_canvas;
     heap_next := heap_next sample_canvas; console := console sample_canvas |}.

Definition sample_editor : Editor :=
  {| canvas := presented_canvas; connectingEdges := [];
     commandLocked := false; isGraphChild := false; hideNameAndArgs := false;
     graphArea := None; gl_isgraph := false; gl_hidetext := false |}.

(** Three boxes A, B and C of ten by ten pixels and the connection from A
    to B; A is selected. *)
Definition placed_box (this_ : nat) (object : t_gobj) (x y : Z) : Box :=
  {| box_this := this_; getPointer := Some object; gui := false;
     numInputs := 1; numOutputs := 1; edges := make_edges this_ 1 1;
     box_bounds := {| rx := x; ry := y; rw := 10; rh := 10 |} |}.

Definition placed_canvas : Canvas :=
  {| isGraph := false; presentationMode := false;
     boxes := [placed_box 100 1%nat 0 0; placed_box 101 2%nat 50 50;
               placed_box 102 3%nat 60 40];
     connections := connections sample_canvas;
     selectedComponents := [100%nat];
     heap_next := 104; console := [] |}.

(** A lasso that reaches B and C but not A, and the bounds and the path
    test of a connection that it reaches and misses. *)
Definition sample_area : Rectangle := {| rx := 40; ry := 30; rw := 40; rh := 40 |}.
Definition sample_connection_bounds (_ : Connection) : Rectangle :=
  {| rx := 5; ry := 5; rw := 50; rh := 50 |}.
Definition sample_connection_path (_ : Connection) (_ : Rectangle) : bool := false.

(** An engine that holds object 3 selected and whose calls leave the
    canvas as it is, and the patch of [sample_patch] with nothing queued. *)
Definition sample_isselected (_ : t_canvas) (obj : voidp) : bool :=
  voidp_eqb obj (Some 3%nat).
Definition sample_edit_effect (_ : PatchEdit.pd_call) (cnv : t_canvas) : t_canvas := cnv.

Definition idle_edit_patch : PatchEdit.t :=
  {| PatchEdit.ptr := Some sample_patch; PatchEdit.queue := []; PatchEdit.calls := [] |}.

(** [sample_canvas] with a box that has no engine object yet; that box
    and the box of object 1 are selected. *)
Definition canvas_with_selected_blank_box : Canvas :=
  {| isGraph := false; presentationMode := false;
     boxes := blank_box 50 :: boxes sample_canvas;
     connections := connections sample_canvas;
     selectedComponents := [50%nat; 100%nat];
     heap_next := 104; console := [] |}.

(** [sample_canvas] with the box of object 3 and the connection from
    object 1 to object 2 selected. *)
Definition canvas_with_selected_cord : Canvas :=
  {| isGraph := false; presentationMode := false;
     boxes := boxes sample_canvas; connections := connections sample_canvas;
     selectedComponents := [102%nat; 103%nat];
     heap_next := 104; console := [] |}.

(** A patch whose chain starts with the info parent. *)
Definition patch_with_leading_info_parent : t_canvas :=
  {| gl_list := [9; 1; 2]%nat;
     isInfoParent := fun g => Nat.eqb g 9;
     gl_lines := [];
     gui_defined := fun _ => false;
     obj_ninlets := fun _ => 1%nat;
     obj_noutlets := fun _ => 1%nat;
     obj_bounds := fun _ => no_bounds |}.


(** A patch with a cord from an outlet that its object does not have:
    outlet 5 of object 1, which has one inlet and one outlet. *)
Definition patch_with_outlet_out_of_range : t_canvas :=
  {| gl_list := [1; 2]%nat;
     isInfoParent := fun _ => false;
     gl_lines := [ {| tr_ob := 1%nat; tr_outno := 5; tr_ob2 := 2%nat; tr_inno := 0 |} ];
     gui_defined := fun _ => false;
     obj_ninlets := fun _ => 1%nat;
     obj_noutlets := fun _ => 1%nat;
     obj_bounds := fun _ => no_bounds |}.

(** An engine in which [libpd_createconnection] adds the cord it is asked
    for behind the others, when both ends are objects; its other calls
    leave the canvas as it is. *)
Definition connecting_effect (c : Patch.pd_call) (cnv : t_canvas) : t_canvas :=
  match c with
  | Patch.call_createconnection (Some s) nout (Some k) nin =>
      {| gl_list := gl_list cnv; isInfoParent := isInfoParent cnv;
         gl_lines := gl_lines cnv
                     ++ [ {| tr_ob := s; tr_outno := nout; tr_ob2 := k; tr_inno := nin |} ];
         gui_defined := gui_defined cnv; obj_ninlets := obj_ninlets cnv;
         obj_noutlets := obj_noutlets cnv; obj_bounds := obj_bounds cnv |}
  | _ => cnv
  end.


(** ** The engine calls of a move *)

Section MoveCalls.

Variable pd_checkobject : t_canvas -> t_gobj -> voidp.
Variable pd_effect : Patch.pd_call -> t_canvas -> t_canvas.

(** The canvas after the engine calls [cs], made in this order. *)
Definition replay (cs : list Patch.pd_call) (cnv : t_canvas) : t_canvas :=
  fold_left (fun cnv c => pd_effect c cnv) cs cnv.

(** One [glist_select] for every entry that is not null, in the order of
    the entries: each selects the entry's own object, as [checkObject]
    finds it on the canvas that the selections before it have left. *)
Fixpoint select_calls (objects : list (option Patch.Object)) (cnv : t_canvas)
    : list Patch.pd_call :=
  match objects with
  | [] => []
  | None :: rest => select_calls rest cnv
  | Some o :: rest =>
      let c := Patch.call_select (pd_checkobject cnv o) in
      c :: select_calls rest (pd_effect c cnv)
  end.

(** The calls of one move of [objects] by [dx], [dy] on the canvas [cnv]:
    the selection is emptied and built up, moved by one
    [libpd_moveselection], emptied again, and the flag that makes the
    engine record a move as a step of its own to undo is reset. *)
Definition move_calls (objects : list (option Patch.Object)) (dx dy : Z)
    (cnv : t_canvas) : list Patch.pd_call :=
  let opening := [Patch.call_setCurrent; Patch.call_noselect] in
  opening ++ select_calls objects (replay opening cnv)
  ++ [Patch.call_moveselection dx dy; Patch.call_noselect;
      Patch.call_reset_undo_move; Patch.call_setCurrent].

End MoveCalls.

(** The entries that are not null. *)
Definition not_null (objects : list (option Patch.Object)) : list Patch.Object :=
  flat_map (fun obj => match obj with Some o => [o] | None => [] end) objects.


(** [canvas_with_stale_widget] on a heap whose next free address is the one
    of the stale widget's box: the allocator hands out the address that the
    removal of that box frees. *)
Definition canvas_on_reused_heap : Canvas :=
  {| isGraph := false; presentationMode := false;
     boxes := boxes canvas_with_stale_widget;
     connections := []; selectedComponents := [];
     heap_next := 50; console := [] |}.


(** The closure [m] asks for the removal of the connection [con] of the
    canvas as the engine knows it: from outlet [outIdx] of [s], the object
    of the box at the outlet end of [con], to inlet [inIdx] of [k], the
    object of the box at its inlet end. *)
Definition removal_of (cv : Canvas) (con : Connection) (s k : t_gobj)
    (m : PatchEdit.mutation) : Prop :=
  (exists ob, deref_box (boxes cv) (outbox con) = Some ob /\ getPointer ob = Some s)
  /\ (exists ib, deref_box (boxes cv) (inbox con) = Some ib /\ getPointer ib = Some k)
  /\ m = PatchEdit.removeConnection_fn s (outIdx con) k (inIdx con).


(** A tokeniser that ends a token at every blank, a replacement of every
    occurrence from left to right, and one preset, for the toggle. *)
Fixpoint split_at_blanks (word text : string) : list string :=
  match text with
  | EmptyString => [word]
  | String c rest =>
      if Ascii.eqb c (Ascii.ascii_of_nat 32) then word :: split_at_blanks EmptyString rest
      else split_at_blanks (word ++ String c EmptyString) rest
  end.

Definition sample_addTokens (text : string) : list string :=
  match text with
  | EmptyString => []
  | _ => split_at_blanks EmptyString text
  end.

Fixpoint replace_from (skip : nat) (text stringToReplace stringToInsert : string) : string :=
  match text with
  | EmptyString => EmptyString
  | String c rest =>
      match skip with
      | S k => replace_from k rest stringToReplace stringToInsert
      | O =>
          if String.prefix stringToReplace text
             && negb (String.eqb stringToReplace EmptyString)
          then stringToInsert
               ++ replace_from (String.length stringToReplace - 1) rest
                    stringToReplace stringToInsert
          else String c (replace_from 0 rest stringToReplace stringToInsert)
      end
  end.

Definition sample_replace : string -> string -> string -> string := replace_from 0.

Definition sample_guiDefaults (name : string) : option string :=
  if String.eqb name "tgl" then Some "25 bgColour fgColour"%string else None.

(** * Properties *)

(** ** Basic facts *)

Lemma bind_Done_inv {A B : Type} (m : outcome A) (k : A -> outcome B) (b : B) :
  bind m k = Done b -> exists a, m = Done a /\ k a = Done b.
Proof.
  destruct m as [a | f]; simpl; intros H.
  - exists a. split; [reflexivity | exact H].
  - discriminate H.
Qed.

Lemma voidp_eqb_eq (a b : voidp) : voidp_eqb a b = true <-> a = b.
Proof.
  destruct a as [x |], b as [y |]; simpl; try (split; congruence).
  rewrite Nat.eqb_eq. split; congruence.
Qed.

Lemma voidp_eqb_refl (a : voidp) : voidp_eqb a a = true.
Proof. apply voidp_eqb_eq. reflexivity. Qed.

Lemma voidp_eqb_neq (a b : voidp) : voidp_eqb a b = false <-> a <> b.
Proof.
  rewrite <- voidp_eqb_eq. destruct (voidp_eqb a b); split; congruence.
Qed.

(** [find_offset] is the position of the first occurrence. *)
Lemma find_offset_In (g : t_gobj) (l : list t_gobj) :
  In g l ->
  nth_error l (find_offset (Some g) l) = Some g
  /\ forall m, (m < find_offset (Some g) l)%nat -> nth_error l m <> Some g.
Proof.
  induction l as [| y rest IH]; simpl; intros Hin; [contradiction |].
  destruct (Nat.eqb g y) eqn:E.
  - apply Nat.eqb_eq in E. subst y. split; [reflexivity | intros m Hm; lia].
  - apply Nat.eqb_neq in E. destruct Hin as [-> | Hin]; [congruence |].
    destruct (IH Hin) as [Hn Hmin]. split; [exact Hn |].
    intros [| m] Hm; simpl.
    + congruence.
    + apply Hmin. lia.
Qed.

Lemma find_offset_le (x : voidp) (l : list t_gobj) :
  (find_offset x l <= length l)%nat.
Proof.
  induction l as [| y rest IH]; simpl; [lia |].
  destruct (voidp_eqb x (Some y)); lia.
Qed.

Lemma find_offset_lt_In (x : voidp) (l : list t_gobj) :
  (find_offset x l < length l)%nat <-> exists g, x = Some g /\ In g l.
Proof.
  induction l as [| y rest IH]; simpl.
  - split; [lia | intros (g & _ & [])].
  - destruct (voidp_eqb x (Some y)) eqn:E.
    + apply voidp_eqb_eq in E. split; [| lia].
      intros _. exists y. auto.
    + apply voidp_eqb_neq in E. rewrite <- Nat.succ_lt_mono, IH.
      split; intros (g & -> & Hg); exists g; split; auto.
      * destruct Hg as [-> | Hg]; [congruence | exact Hg].
Qed.

Lemma isObjectDeprecated_false (objects : list t_gobj) (obj : voidp) :
  isObjectDeprecated objects obj = false <-> exists g, obj = Some g /\ In g objects.
Proof.
  unfold isObjectDeprecated. induction objects as [| y rest IH]; simpl.
  - split; [discriminate | intros (g & _ & [])].
  - destruct (voidp_eqb obj (Some y)) eqn:E; simpl.
    + apply voidp_eqb_eq in E. split; [| reflexivity]. intros _. exists y. auto.
    + apply voidp_eqb_neq in E. rewrite IH.
      split; intros (g & -> & Hg); exists g; split; auto.
      destruct Hg as [-> | Hg]; [congruence | exact Hg].
Qed.

Lemma isObjectDeprecated_true (objects : list t_gobj) (obj : voidp) :
  isObjectDeprecated objects obj = true <-> forall g, obj = Some g -> ~ In g objects.
Proof.
  destruct (isObjectDeprecated objects obj) eqn:E.
  - split; [| reflexivity]. intros _ g -> Hin.
    assert (H : isObjectDeprecated objects (Some g) = false)
      by (apply isObjectDeprecated_false; eauto).
    congruence.
  - apply isObjectDeprecated_false in E. destruct E as (g & -> & Hin).
    split; [discriminate |]. intros H. exfalso. exact (H g eq_refl Hin).
Qed.

(** ** getIndex and getObjects (C8) *)

Lemma getIndex_loop_offset (cnv : t_canvas) (obj : voidp) (y : list t_gobj) (i : Z) :
  let objs := filter (fun g => negb (isInfoParent cnv g) && true) y in
  Patch.getIndex_loop cnv obj y i =
    if (find_offset obj objs <? length objs)%nat
    then i + Z.of_nat (find_offset obj objs)
    else -1.
Proof.
  revert i. induction y as [| g rest IH]; intros i; simpl; [reflexivity |].
  destruct (isInfoParent cnv g); simpl.
  - apply IH.
  - destruct (voidp_eqb obj (Some g)); simpl.
    + lia.
    + rewrite IH. simpl.
      change (S (find_offset obj (filter (fun g => negb (isInfoParent cnv g) && true) rest))
              <=? length (filter (fun g => negb (isInfoParent cnv g) && true) rest))%nat
        with (find_offset obj (filter (fun g => negb (isInfoParent cnv g) && true) rest)
              <? length (filter (fun g => negb (isInfoParent cnv g) && true) rest))%nat.
      destruct (_ <? _)%nat; lia.
Qed.

(** The result of [getIndex] is the sentinel or a position of the object
    list. *)
Lemma getIndex_range (cnv : t_canvas) (obj : voidp) :
  -1 <= Patch.getIndex cnv obj < size (Patch.getObjects (Some cnv) false).
Proof.
  unfold Patch.getIndex, Patch.getObjects, size.
  rewrite getIndex_loop_offset. simpl.
  destruct (_ <? _)%nat eqn:E.
  - apply Nat.ltb_lt in E. lia.
  - lia.
Qed.

(** C8. For an object that [getObjects()] lists, [getIndex] returns its
    position in that list (both walks skip the info parent and otherwise
    count along the engine's chain); for every other pointer, null
    included, it returns -1. *)
Theorem getIndex_position (cnv : t_canvas) (obj : voidp) :
  let objects := Patch.getObjects (Some cnv) false in
  (forall g, obj = Some g -> In g objects ->
     exists n : nat,
       Patch.getIndex cnv obj = Z.of_nat n
       /\ nth_error objects n = Some g
       /\ forall m, (m < n)%nat -> nth_error objects m <> Some g)
  /\ ((forall g, obj = Some g -> ~ In g objects) -> Patch.getIndex cnv obj = -1).
Proof.
  intros objects. unfold Patch.getIndex. rewrite getIndex_loop_offset.
  fold (Patch.getObjects (Some cnv) false). fold objects. split.
  - intros g -> Hin.
    destruct (find_offset_In g objects Hin) as [Hn Hmin].
    assert (Hlt : (find_offset (Some g) objects < length objects)%nat)
      by (apply find_offset_lt_In; eauto).
    apply Nat.ltb_lt in Hlt. rewrite Hlt.
    exists (find_offset (Some g) objects). auto.
  - intros Hnot.
    destruct (find_offset obj objects <? length objects)%nat eqn:E; [| reflexivity].
    apply Nat.ltb_lt, find_offset_lt_In in E. destruct E as (g & Hg & Hin).
    exfalso. exact (Hnot g Hg Hin).
Qed.

(** ** The passes of synchronise *)

Lemma same_identity_refl (b : Box) : same_identity b b.
Proof. repeat split. Qed.

Lemma same_identity_trans (a b c : Box) :
  same_identity a b -> same_identity b c -> same_identity a c.
Proof. unfold same_identity. intuition congruence. Qed.

Lemma updatePorts_identity (cnv : t_canvas) (b : Box) :
  same_identity b (updatePorts cnv b).
Proof. repeat split. Qed.


Lemma updateBounds_identity (cnv : t_canvas) (b : Box) :
  same_identity b (updateBounds cnv b).
Proof.
  unfold updateBounds, same_identity. destruct (getPointer b) eqn:E; simpl; auto.
Qed.

Lemma refresh_box_identity (cnv : t_canvas) (upd : bool) (b : Box) :
  same_identity b (refresh_box cnv upd b).
Proof.
  unfold refresh_box. destruct upd.
  - eapply same_identity_trans; [apply updatePorts_identity | apply updateBounds_identity].
  - apply updatePorts_identity.
Qed.

Lemma refresh_box_idempotent (cnv : t_canvas) (upd : bool) (b : Box) :
  refresh_box cnv upd (refresh_box cnv upd b) = refresh_box cnv upd b.
Proof.
  destruct b as [a p g ni no es r]. unfold refresh_box, updateBounds, updatePorts.
  destruct upd, p; reflexivity.
Qed.

Lemma refresh_new_Box (cnv : t_canvas) (upd : bool) (o : t_gobj) (a : nat) :
  refresh_box cnv upd (new_Box cnv o a) = new_Box cnv o a.
Proof. destruct upd; reflexivity. Qed.

Lemma new_Box_fields (cnv : t_canvas) (o : t_gobj) (a : nat) :
  box_this (new_Box cnv o a) = a
  /\ getPointer (new_Box cnv o a) = Some o
  /\ gui (new_Box cnv o a) = gui_defined cnv o.
Proof. repeat split. Qed.

Lemma points_to_spec (o : t_gobj) (b : Box) :
  points_to o b = true <-> getPointer b = Some o.
Proof.
  unfold points_to. destruct (getPointer b) as [p |].
  - rewrite Nat.eqb_eq. split; congruence.
  - split; discriminate.
Qed.

Lemma evolves_identity (cnv : t_canvas) (upd : bool) (objects : list t_gobj) (b b' : Box) :
  evolves cnv upd objects b b' -> same_identity b b'.
Proof.
  intros [-> | [_ ->]]; [apply same_identity_refl | apply refresh_box_identity].
Qed.

Lemma evolves_refl (cnv : t_canvas) (upd : bool) (objects : list t_gobj) (b : Box) :
  evolves cnv upd objects b b.
Proof. left. reflexivity. Qed.

Lemma evolves_trans (cnv : t_canvas) (upd : bool) (objects : list t_gobj) (a b c : Box) :
  evolves cnv upd objects a b -> evolves cnv upd objects b c -> evolves cnv upd objects a c.
Proof.
  intros [-> | [Ha ->]] [-> | [Hb ->]]; unfold evolves; auto.
  right. split; [exact Ha | apply refresh_box_idempotent].
Qed.

Lemma evolves_weaken (cnv : t_canvas) (upd : bool) (objects objects' : list t_gobj) (b b' : Box) :
  incl objects objects' -> evolves cnv upd objects b b' -> evolves cnv upd objects' b b'.
Proof.
  intros Hincl [-> | [(o & Ho & Hp) ->]]; [left; reflexivity |].
  right. split; [exists o; auto | reflexivity].
Qed.

Lemma Forall2_evolves_refl (cnv : t_canvas) (upd : bool) (objects : list t_gobj) (bs : list Box) :
  Forall2 (evolves cnv upd objects) bs bs.
Proof. induction bs; constructor; auto using evolves_refl. Qed.

Lemma Forall2_evolves_trans (cnv : t_canvas) (upd : bool) (objects : list t_gobj)
    (xs ys zs : list Box) :
  Forall2 (evolves cnv upd objects) xs ys -> Forall2 (evolves cnv upd objects) ys zs ->
  Forall2 (evolves cnv upd objects) xs zs.
Proof.
  intros H. revert zs. induction H; intros zs Hz; inversion Hz; subst; constructor.
  - eapply evolves_trans; eassumption.
  - auto.
Qed.

Lemma Forall2_evolves_weaken (cnv : t_canvas) (upd : bool) (objects objects' : list t_gobj)
    (xs ys : list Box) :
  incl objects objects' -> Forall2 (evolves cnv upd objects) xs ys ->
  Forall2 (evolves cnv upd objects') xs ys.
Proof.
  intros Hincl H. induction H; constructor; eauto using evolves_weaken.
Qed.

Lemma refresh_first_Some (cnv : t_canvas) (upd : bool) (o : t_gobj) (bs bs' : list Box) :
  refresh_first cnv upd o bs = Some bs' ->
  Forall2 (evolves cnv upd [o]) bs bs' /\ exists b, In b bs /\ getPointer b = Some o.
Proof.
  revert bs'. induction bs as [| b rest IH]; simpl; intros bs' H; [discriminate |].
  destruct (points_to o b) eqn:E.
  - injection H as <-. apply points_to_spec in E. split.
    + constructor; [| apply Forall2_evolves_refl].
      right. split; [exists o; simpl; auto | reflexivity].
    + exists b. auto.
  - destruct (refresh_first cnv upd o rest) as [rest' |] eqn:R; [| discriminate].
    injection H as <-. destruct (IH rest' eq_refl) as (HF & b0 & Hin & Hp). split.
    + constructor; [apply evolves_refl | exact HF].
    + exists b0. auto.
Qed.

Lemma refresh_first_None (cnv : t_canvas) (upd : bool) (o : t_gobj) (bs : list Box) :
  refresh_first cnv upd o bs = None ->
  forall b, In b bs -> getPointer b <> Some o.
Proof.
  induction bs as [| b rest IH]; simpl; intros H b0 Hin; [contradiction |].
  destruct (points_to o b) eqn:E; [discriminate |].
  destruct (refresh_first cnv upd o rest) eqn:R; [discriminate |].
  destruct Hin as [<- | Hin].
  - intros Hp. apply points_to_spec in Hp. congruence.
  - apply IH; auto.
Qed.

(** The loop of lines 184-210 as a whole: the boxes it started with are all
    still there, in place, and behind them come the boxes it made, at the
    addresses handed out in between. *)
Lemma add_or_refresh_all (cnv : t_canvas) (upd : bool) (objects : list t_gobj) :
  forall (bs : list Box) (next : nat) (bs' : list Box) (next' : nat),
    fold_left (add_or_refresh cnv upd) objects (bs, next) = (bs', next') ->
    exists kept made,
      bs' = kept ++ made
      /\ Forall2 (evolves cnv upd objects) bs kept
      /\ Forall (fresh_box cnv objects next next') made
      /\ (next <= next')%nat
      /\ map box_this made = seq next (next' - next).
Proof.
  induction objects as [| o rest IH]; simpl; intros bs next bs' next' H.
  - injection H as <- <-. exists bs, []. rewrite app_nil_r, Nat.sub_diag.
    repeat split; auto using Forall2_evolves_refl.
  - unfold add_or_refresh at 2 in H. simpl in H.
    destruct (refresh_first cnv upd o bs) as [bs1 |] eqn:R.
    + destruct (IH _ _ _ _ H) as (kept & made & -> & HF & Hm & Hle & Hseq).
      apply refresh_first_Some in R. destruct R as [R _].
      exists kept, made. repeat split; auto.
      * eapply Forall2_evolves_trans.
        -- eapply Forall2_evolves_weaken; [| exact R]. intros x [-> | []]. left. reflexivity.
        -- eapply Forall2_evolves_weaken; [| exact HF]. apply incl_tl, incl_refl.
      * eapply Forall_impl; [| exact Hm].
        intros b (o' & a & Ho & Ha & ->). exists o', a. simpl. auto.
    + destruct (IH _ _ _ _ H) as (kept & made & -> & HF & Hm & Hle & Hseq).
      apply Forall2_app_inv_l in HF.
      destruct HF as (k1 & k2 & HF1 & HF2 & ->).
      inversion HF2 as [| x y xs ys Hxy Hnil]; subst. inversion Hnil; subst.
      assert (Hy : y = new_Box cnv o next)
        by (destruct Hxy as [-> | [_ ->]]; [reflexivity | apply refresh_new_Box]).
      exists k1, (y :: made). rewrite <- app_assoc. simpl. repeat split.
      * eapply Forall2_evolves_weaken; [| exact HF1]. apply incl_tl, incl_refl.
      * constructor.
        -- exists o, next. split; [simpl; auto |]. split; [lia | exact Hy].
        -- eapply Forall_impl; [| exact Hm].
           intros b (o' & a & Ho & Ha & ->). exists o', a. simpl. split; auto. split; [lia | auto].
      * lia.
      * replace (next' - next)%nat with (S (next' - S next)) by lia.
        simpl. rewrite Hseq, Hy. reflexivity.
Qed.

(** ** The loop over the engine's connections *)

(** What one turn of the loop of lines 226-271 does when it completes:
    nothing to the list (the tuple was skipped with a log line, or a
    matching connection was found), or one new connection between edges of
    the boxes at the two resolved positions. *)
Lemma connect_Done (cnv : t_canvas) (bs : list Box) (cs : list Connection) (next : nat)
    (log : list string) (inno : Z) (inobj : t_gobj) (outno : Z) (outobj : t_gobj)
    (cs' : list Connection) (next' : nat) (log' : list string) :
  connect cnv bs (cs, next, log) (inno, inobj, outno, outobj) = Done (cs', next', log') ->
  (cs' = cs /\ next' = next)
  \/ exists c srcBox sinkBox,
       cs' = cs ++ [c] /\ next' = S next /\ log' = log
       /\ at_index bs (Patch.getIndex cnv (Some inobj)) = Some srcBox
       /\ at_index bs (Patch.getIndex cnv (Some outobj)) = Some sinkBox
       /\ outno < size (edges srcBox) /\ inno < size (edges sinkBox)
       /\ existsb (same_connection bs inno outno srcBox sinkBox) cs = false
       /\ new_Connection next
            (at_index (edges srcBox) (Z.of_nat (numInputs srcBox) + outno))
            (at_index (edges sinkBox) inno) = Done c.
Proof.
  unfold connect. intros H.
  destruct (_ || _) eqn:G1; [injection H as <- <- <-; auto |].
  apply bind_Done_inv in H. destruct H as (srcEdges & Hsrc & H).
  destruct (outno >=? size srcEdges) eqn:G2; [injection H as <- <- <-; auto |].
  apply bind_Done_inv in H. destruct H as (sinkEdges & Hsink & H).
  destruct (inno >=? size sinkEdges) eqn:G3; [injection H as <- <- <-; auto |].
  destruct (at_index bs (Patch.getIndex cnv (Some inobj))) as [srcBox |]; [| discriminate].
  destruct (at_index bs (Patch.getIndex cnv (Some outobj))) as [sinkBox |]; [| discriminate].
  simpl in Hsrc, Hsink. injection Hsrc as <-. injection Hsink as <-.
  destruct (existsb _ cs) eqn:Ex; [injection H as <- <- <-; auto |].
  apply bind_Done_inv in H. destruct H as (c & Hc & H). injection H as <- <- <-.
  right. exists c, srcBox, sinkBox. repeat split; auto; lia.
Qed.

Lemma new_Connection_this (a : nat) (s e : option Edge) (c : Connection) :
  new_Connection a s e = Done c -> con_this c = a.
Proof.
  unfold new_Connection. destruct s as [s |], e as [e |]; try discriminate.
  destruct (Bool.eqb _ _); [discriminate |]. intros [= <-]. reflexivity.
Qed.

Lemma connect_all_Done (cnv : t_canvas) (bs : list Box) (pdConnections : Patch.Connections) :
  forall (cs : list Connection) (next : nat) (log : list string)
         (cs' : list Connection) (next' : nat) (log' : list string),
    connect_all cnv bs (cs, next, log) pdConnections = Done (cs', next', log') ->
    exists added,
      cs' = cs ++ added
      /\ Forall (made_for cnv bs pdConnections) added
      /\ (next <= next')%nat
      /\ map con_this added = seq next (next' - next).
Proof.
  induction pdConnections as [| t rest IH]; simpl; intros cs next log cs' next' log' H.
  - injection H as <- <- <-. exists []. rewrite app_nil_r, Nat.sub_diag. auto.
  - apply bind_Done_inv in H. destruct H as ([[cs1 next1] log1] & Hstep & H).
    destruct t as [[[inno inobj] outno] outobj].
    apply IH in H. destruct H as (added & -> & Hadded & Hle & Hseq).
    assert (Hweak : Forall (made_for cnv bs ((inno, inobj, outno, outobj) :: rest)) added).
    { eapply Forall_impl; [| exact Hadded].
      intros c (i & io & o & oo & sb & kb & Hin & Hrest).
      exists i, io, o, oo, sb, kb. split; [right; exact Hin | exact Hrest]. }
    apply connect_Done in Hstep.
    destruct Hstep as [[-> ->] | (c & srcBox & sinkBox & -> & -> & _ & Hs & Hk & _ & _ & _ & Hc)].
    + exists added. auto.
    + exists (c :: added). rewrite <- app_assoc. simpl. repeat split.
      * constructor; [| exact Hweak].
        exists inno, inobj, outno, outobj, srcBox, sinkBox.
        rewrite (new_Connection_this _ _ _ _ Hc). repeat split; auto. left. reflexivity.
      * lia.
      * replace (next' - next)%nat with (S (next' - S next)) by lia.
        simpl. rewrite Hseq, (new_Connection_this _ _ _ _ Hc). reflexivity.
Qed.

(** ** The two sample sorts meet the contract *)

Lemma insert_stable_Permutation (before : Box -> Box -> bool) (x : Box) (l : list Box) :
  Permutation (x :: l) (insert_stable before x l).
Proof.
  induction l as [| y rest IH]; simpl; [reflexivity |].
  destruct (before y x); [| reflexivity].
  rewrite perm_swap. constructor. exact IH.
Qed.

Lemma sort_stable_Permutation (before : Box -> Box -> bool) (l : list Box) :
  Permutation l (sort_stable before l).
Proof.
  induction l as [| x rest IH]; simpl; [constructor |].
  rewrite <- insert_stable_Permutation. constructor. exact IH.
Qed.

Section SortedByKey.

Variable key : Box -> nat.

Let le_key (a b : Box) : Prop := (key a <= key b)%nat.
Let lt_key (a b : Box) : bool := Nat.ltb (key a) (key b).

Lemma insert_stable_sorted (x : Box) (l : list Box) :
  StronglySorted le_key l -> StronglySorted le_key (insert_stable lt_key x l).
Proof.
  induction l as [| y rest IH]; simpl; intros Hs.
  - constructor; constructor.
  - inversion Hs as [| ? ? Hrest Hall]; subst.
    unfold lt_key at 1. destruct (key y <? key x)%nat eqn:E.
    + apply Nat.ltb_lt in E. constructor; [apply IH; exact Hrest |].
      eapply Permutation_Forall; [apply insert_stable_Permutation |].
      constructor; [unfold le_key; lia | exact Hall].
    + apply Nat.ltb_ge in E. constructor; [exact Hs |].
      constructor; [exact E |].
      eapply Forall_impl; [| exact Hall]. unfold le_key. intros; lia.
Qed.

Lemma sort_stable_sorted (l : list Box) :
  StronglySorted le_key (sort_stable lt_key l).
Proof.
  induction l as [| x rest IH]; simpl; [constructor |].
  apply insert_stable_sorted. exact IH.
Qed.

End SortedByKey.

Lemma Forall2_In_left {A B : Type} (R : A -> B -> Prop) (xs : list A) (ys : list B) (x : A) :
  Forall2 R xs ys -> In x xs -> exists y, In y ys /\ R x y.
Proof.
  induction 1 as [| a b xs ys Hab _ IH]; simpl; intros Hin; [contradiction |].
  destruct Hin as [<- | Hin].
  - exists b. auto.
  - destruct (IH Hin) as (y & Hy & HR). exists y. auto.
Qed.

Lemma Forall2_In_right {A B : Type} (R : A -> B -> Prop) (xs : list A) (ys : list B) (y : B) :
  Forall2 R xs ys -> In y ys -> exists x, In x xs /\ R x y.
Proof.
  induction 1 as [| a b xs ys Hab _ IH]; simpl; intros Hin; [contradiction |].
  destruct Hin as [<- | Hin].
  - exists a. auto.
  - destruct (IH Hin) as (x & Hx & HR). exists x. auto.
Qed.

(** ** What a completed run of synchronise consists of *)

Section Reconciler.

Variable std_sort : (Box -> Box -> bool) -> list Box -> list Box.

(** The contract of [std::sort]: the range is permuted, and afterwards no
    element is ordered strictly before one that precedes it. Nothing is
    promised on the order of elements that compare equivalent. *)
Hypothesis std_sort_Permutation :
  forall before l, Permutation l (std_sort before l).
Hypothesis std_sort_ordered :
  forall (key : Box -> nat) l,
    StronglySorted (fun a b => (key a <= key b)%nat)
                   (std_sort (fun a b => Nat.ltb (key a) (key b)) l).

Lemma synchronise_Done (upd : bool) (cnv : t_canvas) (cv cv' : Canvas) :
  synchronise std_sort upd cnv cv = Done cv' ->
  let objects := Patch.getObjects (Some cnv) false in
  let editing := negb (isGraph cv || presentationMode cv) in
  exists cs1 bs2 next2 cs2 next3 log,
    (if editing
     then remove_deprecated_connections cnv objects (boxes cv) (connections cv)
     else Done (connections cv)) = Done cs1
    /\ fold_left (add_or_refresh cnv upd) objects
         (clear_deleted_boxes objects (boxes cv), heap_next cv) = (bs2, next2)
    /\ (if editing
        then connect_all cnv (std_sort (box_before objects) bs2)
               (cs1, next2, console cv) (Patch.getConnections cnv)
        else Done (cs1, next2, console cv)) = Done (cs2, next3, log)
    /\ cv' = {| isGraph := isGraph cv; presentationMode := presentationMode cv;
                boxes := std_sort (box_before objects) bs2;
                connections := cs2; selectedComponents := [];
                heap_next := next3; console := log |}.
Proof.
  intros H objects editing. unfold synchronise in H.
  cbn [deselectAll isGraph presentationMode boxes connections
       heap_next console selectedComponents] in H.
  fold objects in H. fold editing in H.
  apply bind_Done_inv in H. destruct H as (cs1 & Hcs1 & H).
  destruct (fold_left (add_or_refresh cnv upd) objects
              (clear_deleted_boxes objects (boxes cv), heap_next cv))
    as [bs2 next2] eqn:Hfold.
  apply bind_Done_inv in H. destruct H as ([[cs2 next3] log] & Hcs2 & H).
  injection H as <-.
  exists cs1, bs2, next2, cs2, next3, log. auto.
Qed.

(** On a graph, or in presentation mode, synchronise runs the box passes
    only and always completes. *)
Lemma synchronise_completes_on_graph (upd : bool) (cnv : t_canvas) (cv : Canvas) :
  isGraph cv || presentationMode cv = true ->
  exists cv', synchronise std_sort upd cnv cv = Done cv'
              /\ connections cv' = connections cv.
Proof.
  intros Hmode. unfold synchronise.
  cbn [deselectAll isGraph presentationMode boxes connections heap_next console
       selectedComponents].
  rewrite Hmode. cbn [negb bind].
  destruct (fold_left _ _ _) as [bs2 next2]. cbn [bind].
  eexists. split; reflexivity.
Qed.

(** ** The selection (C4) *)

(** C4, amended. synchronise empties the selection: its first action
    after waiting for the engine is [deselectAll()], so after a completed
    run nothing is selected, whether or not the objects of the selected
    elements are still live. *)
Theorem synchronise_clears_selection (upd : bool) (cnv : t_canvas) (cv cv' : Canvas) :
  synchronise std_sort upd cnv cv = Done cv' ->
  selectedComponents cv' = [].
Proof.
  intros H. apply synchronise_Done in H.
  destruct H as (cs1 & bs2 & next2 & cs2 & next3 & log & _ & _ & _ & ->).
  reflexivity.
Qed.

(** ** Boxes without widget (C10) *)

Lemma clear_deleted_boxes_In (objects : list t_gobj) (bs : list Box) (b : Box) :
  In b (clear_deleted_boxes objects bs) <->
  In b bs /\ (gui b = false \/ isObjectDeprecated objects (getPointer b) = false).
Proof.
  unfold clear_deleted_boxes. rewrite filter_In.
  destruct (gui b), (isObjectDeprecated objects (getPointer b)); simpl; intuition congruence.
Qed.

(** What becomes of the boxes of the canvas in a completed run. *)
Lemma synchronise_boxes (upd : bool) (cnv : t_canvas) (cv cv' : Canvas) :
  synchronise std_sort upd cnv cv = Done cv' ->
  let objects := Patch.getObjects (Some cnv) false in
  exists kept made next2,
    boxes cv' = std_sort (box_before objects) (kept ++ made)
    /\ Forall2 (evolves cnv upd objects) (clear_deleted_boxes objects (boxes cv)) kept
    /\ Forall (fresh_box cnv objects (heap_next cv) next2) made
    /\ map box_this made = seq (heap_next cv) (next2 - heap_next cv)
    /\ (heap_next cv <= next2 <= heap_next cv')%nat.
Proof.
  intros H objects. apply synchronise_Done in H. fold objects in H.
  destruct H as (cs1 & bs2 & next2 & cs2 & next3 & log & _ & Hfold & Hcon & ->).
  apply add_or_refresh_all in Hfold.
  destruct Hfold as (kept & made & -> & HF & Hm & Hle & Hseq).
  exists kept, made, next2. cbn [boxes heap_next]. repeat split; auto.
  destruct (negb (isGraph cv || presentationMode cv)).
  - apply connect_all_Done in Hcon. destruct Hcon as (added & _ & _ & Hle' & _). exact Hle'.
  - injection Hcon as _ <- _. lia.
Qed.

Lemma synchronise_boxes_In (upd : bool) (cnv : t_canvas) (cv cv' : Canvas) (b' : Box) :
  synchronise std_sort upd cnv cv = Done cv' ->
  let objects := Patch.getObjects (Some cnv) false in
  In b' (boxes cv') ->
  (exists b, In b (boxes cv)
             /\ (gui b = false \/ isObjectDeprecated objects (getPointer b) = false)
             /\ evolves cnv upd objects b b')
  \/ exists next2, fresh_box cnv objects (heap_next cv) next2 b'
                   /\ (next2 <= heap_next cv')%nat.
Proof.
  intros H objects Hin. apply synchronise_boxes in H. fold objects in H.
  destruct H as (kept & made & next2 & Hb & HF & Hm & _ & Hle).
  rewrite Hb in Hin.
  apply (Permutation_in _ (Permutation_sym (std_sort_Permutation _ _))) in Hin.
  apply in_app_or in Hin. destruct Hin as [Hin | Hin].
  - left. destruct (Forall2_In_right _ _ _ _ HF Hin) as (b & Hb0 & Hev).
    apply clear_deleted_boxes_In in Hb0. exists b. tauto.
  - right. exists next2. split; [| lia].
    rewrite Forall_forall in Hm. auto.
Qed.

(** C10. The pass that clears deleted boxes removes a box only if its gui
    is non-null. A box whose gui is null is still in the box list after
    a completed run (the same box: same address, engine pointer and null
    gui), and if its engine object is not among the engine's objects the
    box is there untouched. *)
Theorem box_without_gui_survives (upd : bool) (cnv : t_canvas) (cv cv' : Canvas) (b : Box) :
  synchronise std_sort upd cnv cv = Done cv' ->
  In b (boxes cv) ->
  gui b = false ->
  (exists b', In b' (boxes cv') /\ same_identity b b')
  /\ (isObjectDeprecated (Patch.getObjects (Some cnv) false) (getPointer b) = true ->
      In b (boxes cv')).
Proof.
  intros H Hin Hgui. apply synchronise_boxes in H.
  destruct H as (kept & made & next2 & Hb & HF & _).
  assert (Hc : In b (clear_deleted_boxes (Patch.getObjects (Some cnv) false) (boxes cv)))
    by (apply clear_deleted_boxes_In; auto).
  destruct (Forall2_In_left _ _ _ _ HF Hc) as (b' & Hb' & Hev).
  assert (Hin' : In b' (boxes cv')).
  { rewrite Hb. apply (Permutation_in _ (std_sort_Permutation _ _)).
    apply in_or_app. left. exact Hb'. }
  split.
  - exists b'. split; [exact Hin' | eapply evolves_identity; exact Hev].
  - intros Hdep. destruct Hev as [-> | [(o & Ho & Hp) _]]; [exact Hin' |].
    exfalso. rewrite isObjectDeprecated_true in Hdep. exact (Hdep o Hp Ho).
Qed.

(** ** One box per engine object (C7) *)

Lemma proxies_app (o : t_gobj) (xs ys : list Box) :
  proxies o (xs ++ ys) = (proxies o xs + proxies o ys)%nat.
Proof. unfold proxies. rewrite filter_app, length_app. reflexivity. Qed.

Lemma proxies_Permutation (o : t_gobj) (xs ys : list Box) :
  Permutation xs ys -> proxies o xs = proxies o ys.
Proof.
  unfold proxies. induction 1 as [| x xs ys _ IH | x y l | xs ys zs _ IH1 _ IH2]; simpl.
  - reflexivity.
  - destruct (points_to o x); simpl; congruence.
  - destruct (points_to o x), (points_to o y); reflexivity.
  - congruence.
Qed.

Lemma proxies_filter_le (o : t_gobj) (f : Box -> bool) (bs : list Box) :
  (proxies o (filter f bs) <= proxies o bs)%nat.
Proof.
  unfold proxies. induction bs as [| b rest IH]; simpl; [lia |].
  destruct (f b); simpl; destruct (points_to o b); simpl; lia.
Qed.

Lemma proxies_zero (o : t_gobj) (bs : list Box) :
  (forall b, In b bs -> getPointer b <> Some o) -> proxies o bs = 0%nat.
Proof.
  unfold proxies. induction bs as [| b rest IH]; simpl; intros H; [reflexivity |].
  destruct (points_to o b) eqn:E.
  - apply points_to_spec in E. exfalso. exact (H b (or_introl eq_refl) E).
  - apply IH. intros b0 Hb0. apply H. right. exact Hb0.
Qed.

Lemma proxies_evolves (cnv : t_canvas) (upd : bool) (objects : list t_gobj)
    (o : t_gobj) (xs ys : list Box) :
  Forall2 (evolves cnv upd objects) xs ys -> proxies o xs = proxies o ys.
Proof.
  unfold proxies. induction 1 as [| x y xs ys Hxy _ IH]; simpl; [reflexivity |].
  apply evolves_identity in Hxy. destruct Hxy as (_ & Hp & _).
  assert (E : points_to o y = points_to o x) by (unfold points_to; rewrite Hp; reflexivity).
  rewrite E. destruct (points_to o x); simpl; congruence.
Qed.

(** One turn of the loop of lines 184-210 makes a box for [object] only
    when no box points to it. *)
Lemma add_or_refresh_proxies (cnv : t_canvas) (upd : bool) (st : list Box * nat)
    (object o : t_gobj) :
  (proxies o (fst (add_or_refresh cnv upd st object)) <= Nat.max 1 (proxies o (fst st)))%nat.
Proof.
  unfold add_or_refresh.
  destruct (refresh_first cnv upd object (fst st)) as [bs' |] eqn:R; cbn [fst].
  - apply refresh_first_Some in R. destruct R as [R _].
    rewrite <- (proxies_evolves _ _ _ o _ _ R). lia.
  - rewrite proxies_app.
    assert (E : proxies o [new_Box cnv object (snd st)]
                = if Nat.eqb object o then 1%nat else 0%nat).
    { unfold proxies. cbn [filter]. unfold points_to at 1.
      cbn [new_Box updateBounds updatePorts getPointer].
      destruct (Nat.eqb object o); reflexivity. }
    rewrite E. destruct (Nat.eqb object o) eqn:Eo.
    + apply Nat.eqb_eq in Eo. subst o.
      rewrite (proxies_zero object (fst st) (refresh_first_None _ _ _ _ R)). lia.
    + lia.
Qed.

Lemma fold_add_or_refresh_proxies (cnv : t_canvas) (upd : bool) (objects : list t_gobj)
    (o : t_gobj) :
  forall st,
    (proxies o (fst (fold_left (add_or_refresh cnv upd) objects st))
     <= Nat.max 1 (proxies o (fst st)))%nat.
Proof.
  induction objects as [| object rest IH]; cbn [fold_left]; intros st; [lia |].
  specialize (IH (add_or_refresh cnv upd st object)).
  pose proof (add_or_refresh_proxies cnv upd st object o). lia.
Qed.

Lemma synchronise_proxies (upd : bool) (cnv : t_canvas) (cv cv' : Canvas) (o : t_gobj) :
  synchronise std_sort upd cnv cv = Done cv' ->
  (proxies o (boxes cv') <= Nat.max 1 (proxies o (boxes cv)))%nat.
Proof.
  intros H. apply synchronise_Done in H.
  destruct H as (cs1 & bs2 & next2 & cs2 & next3 & log & _ & Hfold & _ & ->).
  cbn [boxes]. rewrite <- (proxies_Permutation o _ _ (std_sort_Permutation _ bs2)).
  pose proof (fold_add_or_refresh_proxies cnv upd
                (Patch.getObjects (Some cnv) false) o
                (clear_deleted_boxes (Patch.getObjects (Some cnv) false) (boxes cv),
                 heap_next cv)) as Hle.
  rewrite Hfold in Hle. cbn [fst] in Hle.
  pose proof (proxies_filter_le o
                (fun box => negb (gui box && isObjectDeprecated
                                    (Patch.getObjects (Some cnv) false) (getPointer box)))
                (boxes cv)) as Hf.
  unfold clear_deleted_boxes in Hle. lia.
Qed.

(** C7. Through any sequence of completed synchronise calls, whatever the
    engine holds at each of them, the number of boxes that point to an
    engine object never rises above one unless it was above one before:
    a box is made for an object only when no box points to it. So an
    object with at most one box before has at most one box after. *)
Theorem at_most_one_box_per_object (calls : list (bool * t_canvas)) (cv cv' : Canvas)
    (o : t_gobj) :
  synchronise_all std_sort calls cv = Done cv' ->
  (proxies o (boxes cv') <= Nat.max 1 (proxies o (boxes cv)))%nat
  /\ ((proxies o (boxes cv) <= 1)%nat -> (proxies o (boxes cv') <= 1)%nat).
Proof.
  revert cv. induction calls as [| [upd cnv] rest IH]; cbn [synchronise_all]; intros cv H.
  - injection H as <-. lia.
  - apply bind_Done_inv in H. destruct H as (cv1 & H1 & H).
    apply IH in H. apply (synchronise_proxies _ _ _ _ o) in H1. lia.
Qed.

(** ** The order of the boxes (C2) *)

Lemma StronglySorted_nth {A : Type} (R : A -> A -> Prop) (l : list A) :
  StronglySorted R l ->
  forall i j a b, (i < j)%nat -> nth_error l i = Some a -> nth_error l j = Some b -> R a b.
Proof.
  induction 1 as [| x l Hs IH Hall]; intros i j a b Hij Hi Hj.
  - destruct i; discriminate.
  - destruct j as [| j]; [lia |]. simpl in Hj. destruct i as [| i]; simpl in Hi.
    + injection Hi as <-. rewrite Forall_forall in Hall.
      apply Hall. eapply nth_error_In. exact Hj.
    + apply (IH i j); auto. lia.
Qed.

Lemma synchronise_sorted (upd : bool) (cnv : t_canvas) (cv cv' : Canvas) :
  synchronise std_sort upd cnv cv = Done cv' ->
  StronglySorted
    (fun a b => (position (Patch.getObjects (Some cnv) false) a
                 <= position (Patch.getObjects (Some cnv) false) b)%nat)
    (boxes cv').
Proof.
  intros H. apply synchronise_Done in H.
  destruct H as (cs1 & bs2 & next2 & cs2 & next3 & log & _ & _ & _ & ->).
  cbn [boxes].
  exact (std_sort_ordered (position (Patch.getObjects (Some cnv) false)) bs2).
Qed.

(** C2, amended. After a completed run the box list is ordered by the
    position of each box's engine object in [getObjects()], boxes whose
    object is not listed coming last: of two boxes whose objects stand at
    different positions, the one whose object comes earlier precedes the
    other. The order among boxes with the same position is whatever
    [std::sort] leaves. *)
Theorem boxes_follow_engine_order (upd : bool) (cnv : t_canvas) (cv cv' : Canvas) :
  synchronise std_sort upd cnv cv = Done cv' ->
  let objects := Patch.getObjects (Some cnv) false in
  StronglySorted (fun a b => (position objects a <= position objects b)%nat) (boxes cv')
  /\ forall i j a b,
       nth_error (boxes cv') i = Some a ->
       nth_error (boxes cv') j = Some b ->
       (position objects a < position objects b)%nat ->
       (i < j)%nat.
Proof.
  intros H objects. pose proof (synchronise_sorted _ _ _ _ H) as Hs. fold objects in Hs.
  split; [exact Hs |].
  intros i j a b Hi Hj Hlt.
  destruct (Nat.lt_trichotomy i j) as [Hij | [-> | Hji]]; [exact Hij | |].
  - rewrite Hi in Hj. injection Hj as ->. lia.
  - pose proof (StronglySorted_nth _ _ Hs j i b a Hji Hj Hi) as Hle. simpl in Hle. lia.
Qed.

(** ** Connections and deprecated objects (C1) *)

Lemma deref_box_In (bs : list Box) (a : nat) (b : Box) :
  deref_box bs a = Some b -> In b bs /\ box_this b = a.
Proof.
  unfold deref_box. intros H. apply find_some in H.
  rewrite Nat.eqb_eq in H. exact H.
Qed.

Lemma deref_box_NoDup (bs : list Box) (b : Box) :
  NoDup (map box_this bs) -> In b bs -> deref_box bs (box_this b) = Some b.
Proof.
  unfold deref_box. induction bs as [| x rest IH]; simpl; intros Hnd Hin; [contradiction |].
  inversion Hnd as [| ? ? Hx Hrest]; subst.
  destruct Hin as [-> | Hin].
  - rewrite Nat.eqb_refl. reflexivity.
  - destruct (Nat.eqb (box_this x) (box_this b)) eqn:E.
    + apply Nat.eqb_eq in E. exfalso. apply Hx. rewrite E. apply in_map. exact Hin.
    + apply IH; auto.
Qed.

Lemma evolves_edges_owned (cnv : t_canvas) (upd : bool) (objects : list t_gobj) (b b' : Box) :
  evolves cnv upd objects b b' -> edges_owned b -> edges_owned b'.
Proof.
  intros [-> | [_ ->]] H; [exact H |].
  assert (Hp : edges_owned (updatePorts cnv b)).
  { unfold edges_owned, updatePorts, make_edges. cbn [edges box_this].
    apply Forall_app. split; apply Forall_forall; intros e He;
      apply in_map_iff in He; destruct He as (i & <- & _); reflexivity. }
  unfold refresh_box. destruct upd; [| exact Hp].
  unfold updateBounds. destruct (getPointer (updatePorts cnv b)); exact Hp.
Qed.

Lemma new_Box_edges_owned (cnv : t_canvas) (o : t_gobj) (a : nat) :
  edges_owned (new_Box cnv o a).
Proof.
  unfold edges_owned, new_Box, updateBounds, updatePorts, make_edges.
  cbn [getPointer edges box_this].
  apply Forall_app. split; apply Forall_forall; intros e He;
    apply in_map_iff in He; destruct He as (i & <- & _); reflexivity.
Qed.

(** The heap guarantees survive a completed run. *)
Lemma synchronise_heap_wf (upd : bool) (cnv : t_canvas) (cv cv' : Canvas) :
  synchronise std_sort upd cnv cv = Done cv' -> heap_wf cv -> heap_wf cv'.
Proof.
  intros H (Hnd & Hlt & Hown).
  pose proof (synchronise_boxes _ _ _ _ H) as (kept & made & next2 & Hb & HF & Hm & Hseq & Hle).
  set (objects := Patch.getObjects (Some cnv) false) in *.
  assert (Hkept : forall b', In b' kept ->
            exists b, In b (boxes cv) /\ evolves cnv upd objects b b').
  { intros b' Hb'. destruct (Forall2_In_right _ _ _ _ HF Hb') as (b & Hb0 & Hev).
    apply clear_deleted_boxes_In in Hb0. exists b. tauto. }
  assert (Hperm : Permutation (kept ++ made) (boxes cv'))
    by (rewrite Hb; apply std_sort_Permutation).
  rewrite Forall_forall in Hlt, Hown, Hm.
  repeat split.
  - eapply Permutation_NoDup; [apply Permutation_map; exact Hperm |].
    rewrite map_app. apply NoDup_app.
    + (* kept: the addresses of a sublist of the old boxes *)
      assert (Hmap : map box_this kept
                     = map box_this (clear_deleted_boxes objects (boxes cv))).
      { clear - HF. induction HF as [| x y xs ys Hxy _ IH]; simpl; [reflexivity |].
        apply evolves_identity in Hxy. destruct Hxy as (Ha & _). congruence. }
      rewrite Hmap. unfold clear_deleted_boxes.
      clear - Hnd. induction (boxes cv) as [| x rest IH]; simpl; [constructor |].
      inversion Hnd as [| ? ? Hx Hrest]; subst.
      destruct (negb _); simpl; auto.
      constructor; auto. intros Hin. apply Hx.
      apply in_map_iff in Hin. destruct Hin as (y & Hy & Hin).
      apply filter_In in Hin. apply in_map_iff. exists y. tauto.
    + rewrite Hseq. apply seq_NoDup.
    + intros a Ha Ha'. rewrite Hseq in Ha'. apply in_seq in Ha'.
      apply in_map_iff in Ha. destruct Ha as (b' & <- & Hb').
      destruct (Hkept b' Hb') as (b & Hin & Hev).
      apply evolves_identity in Hev. destruct Hev as (Hid & _).
      specialize (Hlt b Hin). simpl in Hlt. lia.
  - apply Forall_forall. intros b' Hb'.
    apply (Permutation_in _ (Permutation_sym Hperm)) in Hb'.
    apply in_app_or in Hb'. destruct Hb' as [Hb' | Hb'].
    + destruct (Hkept b' Hb') as (b & Hin & Hev).
      apply evolves_identity in Hev. destruct Hev as (Hid & _).
      specialize (Hlt b Hin). simpl in Hlt. lia.
    + destruct (Hm b' Hb') as (o & a & _ & Ha & ->). simpl. lia.
  - apply Forall_forall. intros b' Hb'.
    apply (Permutation_in _ (Permutation_sym Hperm)) in Hb'.
    apply in_app_or in Hb'. destruct Hb' as [Hb' | Hb'].
    + destruct (Hkept b' Hb') as (b & Hin & Hev).
      eapply evolves_edges_owned; eauto.
    + destruct (Hm b' Hb') as (o & a & _ & _ & ->). apply new_Box_edges_owned.
Qed.

(** After the loop of lines 184-210 every listed object has a box. *)
Lemma add_or_refresh_covers (cnv : t_canvas) (upd : bool) (objects : list t_gobj) :
  forall bs next bs' next',
    fold_left (add_or_refresh cnv upd) objects (bs, next) = (bs', next') ->
    forall o, In o objects \/ (exists b, In b bs /\ getPointer b = Some o) ->
              exists b', In b' bs' /\ getPointer b' = Some o.
Proof.
  induction objects as [| object rest IH]; cbn [fold_left]; intros bs next bs' next' H o Ho.
  - injection H as <- <-. destruct Ho as [[] | Ho]. exact Ho.
  - unfold add_or_refresh at 2 in H. cbn [fst snd] in H.
    destruct (refresh_first cnv upd object bs) as [bs1 |] eqn:R.
    + apply (IH _ _ _ _ H).
      apply refresh_first_Some in R. destruct R as (R & b0 & Hb0 & Hp0).
      assert (Hkeep : forall x p, In x bs -> getPointer x = Some p ->
                exists y, In y bs1 /\ getPointer y = Some p).
      { intros x p Hx Hp. destruct (Forall2_In_left _ _ _ _ R Hx) as (y & Hy & Hev).
        apply evolves_identity in Hev. destruct Hev as (_ & Hptr & _).
        exists y. split; [exact Hy | congruence]. }
      destruct Ho as [[<- | Ho] | (b & Hb & Hp)]; eauto.
    + apply (IH _ _ _ _ H).
      destruct Ho as [[<- | Ho] | (b & Hb & Hp)]; auto.
      * right. exists (new_Box cnv object next). split; [| reflexivity].
        apply in_or_app. right. left. reflexivity.
      * right. exists b. split; [apply in_or_app; left; exact Hb | exact Hp].
Qed.

Lemma position_lt (objects : list t_gobj) (b : Box) :
  (position objects b < length objects)%nat <->
  exists o, getPointer b = Some o /\ In o objects.
Proof. unfold position. apply find_offset_lt_In. Qed.

Lemma filter_listed_nil (objects : list t_gobj) (l : list Box) :
  Forall (fun y => (length objects <= position objects y)%nat) l ->
  filter (fun x => Nat.ltb (position objects x) (length objects)) l = [].
Proof.
  induction 1 as [| y l Hy _ IH]; simpl; [reflexivity |].
  destruct (Nat.ltb_spec (position objects y) (length objects)); [lia | exact IH].
Qed.

(** In a list sorted by position, the boxes of listed objects come first. *)
Lemma sorted_listed_first (objects : list t_gobj) (l : list Box) :
  StronglySorted (fun a b => (position objects a <= position objects b)%nat) l ->
  forall p b, nth_error l p = Some b ->
    (length objects <= position objects b)%nat ->
    (length (filter (fun x => Nat.ltb (position objects x) (length objects)) l) <= p)%nat.
Proof.
  induction 1 as [| x l Hs IH Hall]; intros p b Hp Hb.
  - destruct p; discriminate.
  - assert (Htail : (length objects <= position objects x)%nat ->
                    filter (fun x => Nat.ltb (position objects x) (length objects)) (x :: l) = []).
    { intros Hx. apply filter_listed_nil. constructor; [exact Hx |].
      eapply Forall_impl; [| exact Hall]. simpl. intros; lia. }
    destruct p as [| p]; simpl in Hp.
    + injection Hp as ->. rewrite (Htail Hb). simpl. lia.
    + destruct (Nat.le_gt_cases (length objects) (position objects x)) as [Hx | Hx].
      * rewrite (Htail Hx). simpl. lia.
      * simpl. apply Nat.ltb_lt in Hx. rewrite Hx. simpl.
        apply le_n_S. apply (IH p b); assumption.
Qed.

(** If every listed object has a box and no object is listed twice, the
    first positions of the sorted box list hold boxes of listed objects. *)
Lemma sorted_prefix_listed (objects : list t_gobj) (l : list Box) :
  NoDup objects ->
  StronglySorted (fun a b => (position objects a <= position objects b)%nat) l ->
  (forall o, In o objects -> exists b, In b l /\ getPointer b = Some o) ->
  forall p b, nth_error l p = Some b -> (p < length objects)%nat ->
    exists o, getPointer b = Some o /\ In o objects.
Proof.
  intros Hnd Hs Hcov p b Hp Hlt. apply position_lt.
  destruct (Nat.lt_ge_cases (position objects b) (length objects)) as [H | H]; [exact H |].
  exfalso. pose proof (sorted_listed_first _ _ Hs p b Hp H) as Hlen.
  set (listed := filter (fun x => Nat.ltb (position objects x) (length objects)) l) in *.
  assert (Hincl : incl objects
            (map (fun x => match getPointer x with Some q => q | None => 0%nat end) listed)).
  { intros o Ho. destruct (Hcov o Ho) as (x & Hx & Hpx).
    apply in_map_iff. exists x. rewrite Hpx. split; [reflexivity |].
    apply filter_In. split; [exact Hx |]. apply Nat.ltb_lt, position_lt. eauto. }
  apply (NoDup_incl_length Hnd) in Hincl. rewrite length_map in Hincl. lia.
Qed.

(** What the loop of lines 153-171 keeps. *)
Lemma remove_deprecated_connections_Done (cnv : t_canvas) (objects : list t_gobj)
    (bs : list Box) (cs cs' : list Connection) :
  remove_deprecated_connections cnv objects bs cs = Done cs' ->
  forall c, In c cs' <-> In c cs /\ connection_deprecated cnv objects bs c = Done false.
Proof.
  revert cs'. induction cs as [| x rest IH]; simpl; intros cs' H c.
  - injection H as <-. simpl. tauto.
  - apply bind_Done_inv in H. destruct H as (rest' & Hrest & H).
    apply bind_Done_inv in H. destruct H as (gone & Hgone & H). injection H as <-.
    specialize (IH rest' Hrest c). destruct gone; simpl.
    + rewrite IH. split; [tauto |]. intros [[<- | Hin] Hd]; [congruence | tauto].
    + rewrite IH. split.
      * intros [<- | Hin]; tauto.
      * intros [[<- | Hin] Hd]; tauto.
Qed.

Lemma connection_deprecated_false (cnv : t_canvas) (objects : list t_gobj)
    (bs : list Box) (c : Connection) :
  connection_deprecated cnv objects bs c = Done false ->
  is_null bs (inlet c) = false /\ is_null bs (outlet c) = false
  /\ exists ib ob,
       deref_box bs (inbox c) = Some ib /\ deref_box bs (outbox c) = Some ob
       /\ isObjectDeprecated objects (getPointer ib) = false
       /\ isObjectDeprecated objects (getPointer ob) = false
       /\ canvas_isconnected cnv (getPointer ob) (outIdx c) (getPointer ib) (inIdx c) = true.
Proof.
  unfold connection_deprecated. intros H.
  destruct (is_null bs (inlet c)); [discriminate |].
  destruct (is_null bs (outlet c)); [discriminate |]. simpl in H.
  destruct (deref_box bs (inbox c)) as [ib |]; [| discriminate].
  destruct (isObjectDeprecated objects (getPointer ib)) eqn:Ei; [discriminate |].
  destruct (deref_box bs (outbox c)) as [ob |]; [| discriminate].
  destruct (isObjectDeprecated objects (getPointer ob)) eqn:Eo; [discriminate |].
  injection H as H. apply negb_false_iff in H.
  repeat split; auto. exists ib, ob. auto.
Qed.


Lemma at_index_In {A : Type} (l : list A) (i : Z) (x : A) :
  at_index l i = Some x -> In x l /\ 0 <= i < size l.
Proof.
  unfold at_index, size. destruct (Z.ltb_spec i 0); [discriminate |].
  intros Hx. split; [eapply nth_error_In; exact Hx |].
  assert (Hn : (Z.to_nat i < length l)%nat) by (apply nth_error_Some; congruence).
  lia.
Qed.


Lemma NoDup_map_injective {A B : Type} (f : A -> B) (l : list A) (x y : A) :
  NoDup (map f l) -> In x l -> In y l -> f x = f y -> x = y.
Proof.
  induction l as [| z rest IH]; simpl; intros Hnd Hx Hy Hf; [contradiction |].
  inversion Hnd as [| ? ? Hz Hrest]; subst.
  destruct Hx as [-> | Hx], Hy as [-> | Hy]; auto.
  - exfalso. apply Hz. rewrite Hf. apply in_map. exact Hy.
  - exfalso. apply Hz. rewrite <- Hf. apply in_map. exact Hx.
Qed.


(** Every listed object has a box after a completed run. *)
Lemma synchronise_covers (upd : bool) (cnv : t_canvas) (cv cv' : Canvas) :
  synchronise std_sort upd cnv cv = Done cv' ->
  forall o, In o (Patch.getObjects (Some cnv) false) ->
    exists b, In b (boxes cv') /\ getPointer b = Some o.
Proof.
  intros H o Ho. apply synchronise_Done in H.
  destruct H as (cs1 & bs2 & next2 & cs2 & next3 & log & _ & Hfold & _ & ->).
  destruct (add_or_refresh_covers _ _ _ _ _ _ _ Hfold o (or_introl Ho)) as (b & Hb & Hp).
  exists b. split; [| exact Hp]. cbn [boxes].
  apply (Permutation_in _ (std_sort_Permutation _ _)). exact Hb.
Qed.



(** ** Connection tuples that do not resolve (C6) *)

(** When the source object of a tuple is not listed, [getIndex] answers -1,
    the guard of line 237 lets -1 pass ([-1 >= boxes.size()] is false) and
    the edges of the null [boxes[-1]] are read. *)
Lemma connect_unlisted_source (cnv : t_canvas) (bs : list Box)
    (st : list Connection * nat * list string)
    (inno : Z) (inobj : t_gobj) (outno : Z) (outobj : t_gobj) :
  Patch.getIndex cnv (Some inobj) = -1 ->
  Patch.getIndex cnv (Some outobj) < size bs ->
  connect cnv bs st (inno, inobj, outno, outobj) = Undefined NullDereference.
Proof.
  intros Hsrc Hsink. destruct st as [[cs next] log]. unfold connect.
  rewrite Hsrc.
  assert (G1 : (-1 >=? size bs) = false)
    by (rewrite Z.geb_leb; apply Z.leb_gt; unfold size; lia).
  assert (G2 : (Patch.getIndex cnv (Some outobj) >=? size bs) = false)
    by (rewrite Z.geb_leb; apply Z.leb_gt; lia).
  rewrite G1, G2. reflexivity.
Qed.

(** What the guard does catch: an outlet index at or beyond the number of
    edges of the source box is logged and the tuple skipped. *)
Lemma connect_skips_large_outlet (cnv : t_canvas) (bs : list Box)
    (cs : list Connection) (next : nat) (log : list string)
    (inno : Z) (inobj : t_gobj) (outno : Z) (outobj : t_gobj) (srcBox : Box) :
  at_index bs (Patch.getIndex cnv (Some inobj)) = Some srcBox ->
  Patch.getIndex cnv (Some outobj) < size bs ->
  size (edges srcBox) <= outno ->
  connect cnv bs (cs, next, log) (inno, inobj, outno, outobj)
  = Done (cs, next, log ++ [impossible_connection]).
Proof.
  intros Hsrc Hsink Hout. unfold connect. rewrite Hsrc.
  apply at_index_In in Hsrc. destruct Hsrc as [_ Hr].
  assert (G1 : (Patch.getIndex cnv (Some inobj) >=? size bs) = false)
    by (rewrite Z.geb_leb; apply Z.leb_gt; lia).
  assert (G2 : (Patch.getIndex cnv (Some outobj) >=? size bs) = false)
    by (rewrite Z.geb_leb; apply Z.leb_gt; lia).
  assert (G3 : (outno >=? size (edges srcBox)) = true)
    by (rewrite Z.geb_leb; apply Z.leb_le; lia).
  rewrite G1, G2. cbn [orb edges_of bind]. rewrite G3. reflexivity.
Qed.

(** C6, the defect. The engine reports a cord from object 1 to the info
    parent, which [getIndex] does not count: the sink index is the sentinel
    -1, no error is logged and the tuple is not skipped; the run reads the
    edges of a null box. *)
Theorem unresolved_sink_is_dereferenced (upd : bool) :
  synchronise std_sort upd patch_with_cord_to_info_parent empty_canvas
  = Undefined NullDereference.
Proof.
  unfold synchronise. cbn [deselectAll isGraph presentationMode boxes connections
                           heap_next console selectedComponents empty_canvas orb negb].
  cbn [remove_deprecated_connections bind].
  set (b := new_Box patch_with_cord_to_info_parent 1%nat 100).
  assert (Hfold : fold_left (add_or_refresh patch_with_cord_to_info_parent upd)
                    (Patch.getObjects (Some patch_with_cord_to_info_parent) false)
                    (clear_deleted_boxes
                       (Patch.getObjects (Some patch_with_cord_to_info_parent) false) [],
                     100%nat)
                  = ([b], 101%nat)) by reflexivity.
  rewrite Hfold.
  assert (Hsort : std_sort
                    (box_before (Patch.getObjects (Some patch_with_cord_to_info_parent) false))
                    [b] = [b]).
  { apply Permutation_length_1_inv. apply std_sort_Permutation. }
  rewrite Hsort. reflexivity.
Qed.

(** ** A second run changes nothing (C3) *)

Lemma refresh_first_fix (cnv : t_canvas) (upd : bool) (o : t_gobj) (bs : list Box) :
  (exists b, In b bs /\ getPointer b = Some o) ->
  (forall b, In b bs -> getPointer b = Some o -> refresh_box cnv upd b = b) ->
  refresh_first cnv upd o bs = Some bs.
Proof.
  induction bs as [| x rest IH]; simpl; intros (b & Hb & Hp) Hfix; [contradiction |].
  destruct (points_to o x) eqn:E.
  - apply points_to_spec in E. rewrite (Hfix x (or_introl eq_refl) E). reflexivity.
  - rewrite IH; [reflexivity | |].
    + destruct Hb as [-> | Hb]; [| eauto].
      apply points_to_spec in Hp. congruence.
    + intros y Hy. apply Hfix. right. exact Hy.
Qed.

(** When every listed object has a box and these boxes are up to date, the
    loop of lines 184-210 changes nothing and allocates nothing. *)
Lemma fold_add_or_refresh_settled (cnv : t_canvas) (upd : bool) (objects : list t_gobj)
    (bs : list Box) (next : nat) :
  (forall o, In o objects -> exists b, In b bs /\ getPointer b = Some o) ->
  (forall b o, In b bs -> In o objects -> getPointer b = Some o ->
               refresh_box cnv upd b = b) ->
  fold_left (add_or_refresh cnv upd) objects (bs, next) = (bs, next).
Proof.
  induction objects as [| o rest IH]; cbn [fold_left]; intros Hcov Hfix; [reflexivity |].
  unfold add_or_refresh at 2. cbn [fst snd].
  rewrite refresh_first_fix.
  - apply IH.
    + intros o' Ho'. apply Hcov. right. exact Ho'.
    + intros b o' Hb Ho'. apply Hfix; [exact Hb | right; exact Ho'].
  - apply Hcov. left. reflexivity.
  - intros b Hb. apply Hfix; [exact Hb | left; reflexivity].
Qed.

(** After the loop of lines 184-210 every listed object has a box that is
    up to date. *)
Lemma add_or_refresh_up_to_date (cnv : t_canvas) (upd : bool) (objects : list t_gobj) :
  forall bs next bs' next',
    fold_left (add_or_refresh cnv upd) objects (bs, next) = (bs', next') ->
    forall o,
      In o objects
      \/ (exists b, In b bs /\ getPointer b = Some o /\ refresh_box cnv upd b = b) ->
      exists b', In b' bs' /\ getPointer b' = Some o /\ refresh_box cnv upd b' = b'.
Proof.
  induction objects as [| object rest IH]; cbn [fold_left]; intros bs next bs' next' H o Ho.
  - injection H as <- <-. destruct Ho as [[] | Ho]. exact Ho.
  - unfold add_or_refresh at 2 in H. cbn [fst snd] in H.
    destruct (refresh_first cnv upd object bs) as [bs1 |] eqn:R.
    + apply (IH _ _ _ _ H).
      assert (Hfirst := R). apply refresh_first_Some in R. destruct R as (R & _).
      assert (Hkeep : forall x p, In x bs -> getPointer x = Some p ->
                refresh_box cnv upd x = x ->
                exists y, In y bs1 /\ getPointer y = Some p /\ refresh_box cnv upd y = y).
      { intros x p Hx Hp Hf. destruct (Forall2_In_left _ _ _ _ R Hx) as (y & Hy & Hev).
        destruct Hev as [-> | [_ ->]]; [exists x; auto |].
        rewrite Hf in Hy. exists x. auto. }
      destruct Ho as [[<- | Ho] | (b & Hb & Hp & Hf)]; eauto.
      right. clear - Hfirst.
      revert bs1 Hfirst. induction bs as [| x l IHl]; simpl; intros bs1 H; [discriminate |].
      destruct (points_to object x) eqn:E.
      * injection H as <-. apply points_to_spec in E.
        exists (refresh_box cnv upd x). split; [left; reflexivity |]. split.
        -- destruct (refresh_box_identity cnv upd x) as (_ & Hp & _). congruence.
        -- apply refresh_box_idempotent.
      * destruct (refresh_first cnv upd object l) as [l' |]; [| discriminate].
        injection H as <-. destruct (IHl l' eq_refl) as (y & Hy & Hyp).
        exists y. split; [right; exact Hy | exact Hyp].
    + apply (IH _ _ _ _ H).
      destruct Ho as [[<- | Ho] | (b & Hb & Hp & Hf)]; auto.
      * right. exists (new_Box cnv object next). split; [| split].
        -- apply in_or_app. right. left. reflexivity.
        -- reflexivity.
        -- apply refresh_new_Box.
      * right. exists b. split; [apply in_or_app; left; exact Hb | auto].
Qed.

Lemma proxies_In (o : t_gobj) (l : list Box) (x : Box) :
  In x l -> getPointer x = Some o -> (1 <= proxies o l)%nat.
Proof.
  intros Hin Hp. unfold proxies.
  assert (H : In x (filter (points_to o) l))
    by (apply filter_In; split; [exact Hin | apply points_to_spec; exact Hp]).
  destruct (filter (points_to o) l); [contradiction | simpl; lia].
Qed.

Lemma two_indices_proxies (o : t_gobj) (l : list Box) :
  forall q p x y,
    (q < p)%nat -> nth_error l q = Some x -> nth_error l p = Some y ->
    getPointer x = Some o -> getPointer y = Some o ->
    (2 <= proxies o l)%nat.
Proof.
  induction l as [| z rest IH]; intros q p x y Hqp Hq Hp Hx Hy.
  - destruct q; discriminate.
  - destruct p as [| p]; [lia |]. simpl in Hp.
    change (z :: rest) with ([z] ++ rest). rewrite proxies_app.
    destruct q as [| q]; simpl in Hq.
    + injection Hq as ->.
      pose proof (proxies_In o [x] x (or_introl eq_refl) Hx).
      pose proof (proxies_In o rest y (nth_error_In _ _ Hp) Hy). lia.
    + pose proof (IH q p x y ltac:(lia) Hq Hp Hx Hy). lia.
Qed.

Lemma unique_boxes_index (bs : list Box) (o : t_gobj) (q p : nat) (x y : Box) :
  unique_boxes bs ->
  nth_error bs q = Some x -> nth_error bs p = Some y ->
  getPointer x = Some o -> getPointer y = Some o -> q = p.
Proof.
  intros Hu Hq Hp Hx Hy. specialize (Hu o).
  destruct (Nat.lt_trichotomy q p) as [H | [H | H]]; [| exact H |].
  - pose proof (two_indices_proxies o bs q p x y H Hq Hp Hx Hy). lia.
  - pose proof (two_indices_proxies o bs p q y x H Hp Hq Hy Hx). lia.
Qed.

Lemma unique_boxes_eq (bs : list Box) (o : t_gobj) (x y : Box) :
  unique_boxes bs -> In x bs -> In y bs ->
  getPointer x = Some o -> getPointer y = Some o -> x = y.
Proof.
  intros Hu Hx Hy Hpx Hpy.
  apply In_nth_error in Hx, Hy. destruct Hx as (q & Hq), Hy as (p & Hp).
  assert (q = p) by (eapply unique_boxes_index; eauto). subst q. congruence.
Qed.

Lemma find_offset_nth (l : list t_gobj) :
  NoDup l -> forall p o, nth_error l p = Some o -> find_offset (Some o) l = p.
Proof.
  induction 1 as [| y rest Hy _ IH]; intros p o Hp.
  - destruct p; discriminate.
  - simpl. destruct p as [| p]; simpl in Hp.
    + injection Hp as ->. rewrite Nat.eqb_refl. reflexivity.
    + destruct (Nat.eqb o y) eqn:E.
      * apply Nat.eqb_eq in E. subst y. exfalso. apply Hy.
        eapply nth_error_In. exact Hp.
      * f_equal. apply IH. exact Hp.
Qed.

Lemma position_listed (objects : list t_gobj) (b : Box) :
  (position objects b < length objects)%nat ->
  exists o, getPointer b = Some o /\ nth_error objects (position objects b) = Some o.
Proof.
  intros H. apply position_lt in H. destruct H as (o & Hp & Ho).
  exists o. split; [exact Hp |]. unfold position. rewrite Hp.
  apply find_offset_In. exact Ho.
Qed.

(** With one box per object, the sorted box list runs in step with the
    object list: the box at a position below their number stands for the
    object at that position. *)
Lemma sorted_boxes_aligned (objects : list t_gobj) (l : list Box) :
  NoDup objects ->
  StronglySorted (fun a b => (position objects a <= position objects b)%nat) l ->
  (forall o, In o objects -> exists b, In b l /\ getPointer b = Some o) ->
  unique_boxes l ->
  forall p b, nth_error l p = Some b -> (p < length objects)%nat ->
    position objects b = p.
Proof.
  intros Hnd Hs Hcov Hu p. induction p as [p IHp] using lt_wf_ind.
  intros b Hb Hp.
  destruct (sorted_prefix_listed _ _ Hnd Hs Hcov p b Hb Hp) as (o & Hpo & Ho).
  assert (Hpos : position objects b = find_offset (Some o) objects)
    by (unfold position; rewrite Hpo; reflexivity).
  destruct (Nat.lt_trichotomy (position objects b) p) as [Hlt | [Heq | Hgt]];
    [exfalso | exact Heq | exfalso].
  - (* the box at the earlier position would stand for the same object *)
    set (q := position objects b) in *.
    assert (Hq : exists x, nth_error l q = Some x).
    { destruct (nth_error l q) eqn:E; [eauto |].
      apply nth_error_None in E.
      assert (p < length l)%nat by (apply nth_error_Some; congruence). lia. }
    destruct Hq as (x & Hx).
    pose proof (IHp q Hlt x Hx ltac:(lia)) as Hxq.
    destruct (position_listed objects x ltac:(lia)) as (ox & Hpx & Hox).
    destruct (position_listed objects b ltac:(unfold q in Hlt; lia)) as (ob & Hpb & Hob).
    fold q in Hob. rewrite Hxq in Hox.
    assert (ox = ob) by congruence. subst ox.
    assert (q = p) by (eapply unique_boxes_index; eauto). lia.
  - (* the object at position p has a box, which can stand nowhere *)
    destruct (nth_error objects p) as [op |] eqn:Eop;
      [| apply nth_error_None in Eop; lia].
    destruct (Hcov op (nth_error_In _ _ Eop)) as (x & Hx & Hpx).
    assert (Hxpos : position objects x = p)
      by (unfold position; rewrite Hpx; apply find_offset_nth; assumption).
    apply In_nth_error in Hx. destruct Hx as (q & Hq).
    destruct (Nat.lt_trichotomy q p) as [Hqp | [-> | Hqp]].
    + pose proof (IHp q Hqp x Hq ltac:(lia)). lia.
    + rewrite Hb in Hq. injection Hq as ->. lia.
    + pose proof (StronglySorted_nth _ _ Hs p q b x Hqp Hb Hq) as Hle. simpl in Hle. lia.
Qed.

Lemma deref_box_Permutation (l l' : list Box) (a : nat) :
  NoDup (map box_this l) -> Permutation l l' -> deref_box l a = deref_box l' a.
Proof.
  intros Hnd Hperm.
  assert (Hnd' : NoDup (map box_this l'))
    by (eapply Permutation_NoDup; [apply Permutation_map; exact Hperm | exact Hnd]).
  destruct (deref_box l a) as [b |] eqn:E.
  - apply deref_box_In in E. destruct E as [Hin <-].
    symmetry. apply deref_box_NoDup; [exact Hnd' |].
    eapply Permutation_in; eassumption.
  - destruct (deref_box l' a) as [b' |] eqn:E'; [| reflexivity].
    apply deref_box_In in E'. destruct E' as [Hin <-].
    apply (Permutation_in _ (Permutation_sym Hperm)) in Hin.
    rewrite (deref_box_NoDup _ _ Hnd Hin) in E. discriminate.
Qed.

Lemma covered_length (objects : list t_gobj) (l : list Box) :
  NoDup objects ->
  (forall o, In o objects -> exists b, In b l /\ getPointer b = Some o) ->
  (length objects <= length l)%nat.
Proof.
  intros Hnd Hcov.
  rewrite <- (length_map (fun x => match getPointer x with Some q => q | None => 0%nat end) l).
  apply NoDup_incl_length; [exact Hnd |].
  intros o Ho. destruct (Hcov o Ho) as (x & Hx & Hp).
  apply in_map_iff. exists x. rewrite Hp. auto.
Qed.

(** Two sorted arrangements of the same boxes agree on the positions that
    the engine's objects occupy. *)
Lemma sorted_arrangements_agree (objects : list t_gobj) (l l' : list Box) :
  NoDup objects ->
  StronglySorted (fun a b => (position objects a <= position objects b)%nat) l ->
  StronglySorted (fun a b => (position objects a <= position objects b)%nat) l' ->
  Permutation l l' ->
  (forall o, In o objects -> exists b, In b l /\ getPointer b = Some o) ->
  unique_boxes l ->
  forall p, (p < length objects)%nat -> nth_error l' p = nth_error l p.
Proof.
  intros Hnd Hs Hs' Hperm Hcov Hu p Hp.
  assert (Hcov' : forall o, In o objects -> exists b, In b l' /\ getPointer b = Some o).
  { intros o Ho. destruct (Hcov o Ho) as (b & Hb & Hpb). exists b.
    split; [eapply Permutation_in; eassumption | exact Hpb]. }
  assert (Hu' : unique_boxes l').
  { intros o. rewrite <- (proxies_Permutation o _ _ Hperm). apply Hu. }
  pose proof (covered_length _ _ Hnd Hcov) as Hlen.
  pose proof (covered_length _ _ Hnd Hcov') as Hlen'.
  destruct (nth_error l p) as [b |] eqn:E; [| apply nth_error_None in E; lia].
  destruct (nth_error l' p) as [b' |] eqn:E'; [| apply nth_error_None in E'; lia].
  pose proof (sorted_boxes_aligned _ _ Hnd Hs Hcov Hu p b E Hp) as Hb.
  pose proof (sorted_boxes_aligned _ _ Hnd Hs' Hcov' Hu' p b' E' Hp) as Hb'.
  destruct (position_listed objects b ltac:(lia)) as (o & Hpo & Ho).
  destruct (position_listed objects b' ltac:(lia)) as (o' & Hpo' & Ho').
  rewrite Hb in Ho. rewrite Hb' in Ho'. assert (o' = o) by congruence. subst o'.
  f_equal. apply (unique_boxes_eq l o); auto.
  - apply (Permutation_in _ (Permutation_sym Hperm)). eapply nth_error_In. exact E'.
  - eapply nth_error_In. exact E.
Qed.

Lemma nth_error_seq_lt (s len i : nat) :
  (i < len)%nat -> nth_error (seq s len) i = Some (s + i)%nat.
Proof.
  revert s i. induction len as [| len IH]; intros s i Hi; [lia |].
  destruct i as [| i]; simpl.
  - f_equal. lia.
  - rewrite IH by lia. f_equal. lia.
Qed.

Lemma make_edges_length (a nin nout : nat) :
  length (make_edges a nin nout) = (nin + nout)%nat.
Proof. unfold make_edges. rewrite length_app, !length_map, !length_seq. reflexivity. Qed.

Lemma make_edges_inlet (a nin nout i : nat) :
  (i < nin)%nat ->
  nth_error (make_edges a nin nout) i
  = Some {| edge_box := a; isInlet := true; edgeIdx := i |}.
Proof.
  intros Hi. unfold make_edges. rewrite nth_error_app1 by (rewrite length_map, length_seq; lia).
  rewrite nth_error_map, nth_error_seq_lt by lia. reflexivity.
Qed.

Lemma make_edges_outlet (a nin nout j : nat) :
  (j < nout)%nat ->
  nth_error (make_edges a nin nout) (nin + j)
  = Some {| edge_box := a; isInlet := false; edgeIdx := j |}.
Proof.
  intros Hj. unfold make_edges.
  rewrite nth_error_app2 by (rewrite length_map, length_seq; lia).
  rewrite length_map, length_seq.
  replace (nin + j - nin)%nat with j by lia.
  rewrite nth_error_map, nth_error_seq_lt by lia. reflexivity.
Qed.

Lemma Edge_eqb_refl (e : Edge) : Edge_eqb e e = true.
Proof.
  unfold Edge_eqb. rewrite !Nat.eqb_refl, Bool.eqb_reflx. reflexivity.
Qed.

(** A box that is up to date has the ports of its object. *)
Lemma up_to_date_ports (cnv : t_canvas) (upd : bool) (b : Box) (o : t_gobj) :
  refresh_box cnv upd b = b -> getPointer b = Some o ->
  edges b = make_edges (box_this b) (obj_ninlets cnv o) (obj_noutlets cnv o)
  /\ numInputs b = obj_ninlets cnv o.
Proof.
  intros Hfix Hp. rewrite <- Hfix.
  unfold refresh_box, updateBounds, updatePorts. cbn [getPointer]. rewrite Hp.
  destruct upd; split; reflexivity.
Qed.

Lemma edge_alive_In (bs : list Box) (b : Box) (e : Edge) :
  NoDup (map box_this bs) -> In b bs -> edge_box e = box_this b -> In e (edges b) ->
  edge_alive bs e = true.
Proof.
  intros Hnd Hb He Hin. unfold edge_alive. rewrite He, (deref_box_NoDup _ _ Hnd Hb).
  apply existsb_exists. exists e. split; [exact Hin | apply Edge_eqb_refl].
Qed.

Lemma getIndex_listed (cnv : t_canvas) (o : t_gobj) :
  In o (Patch.getObjects (Some cnv) false) ->
  Patch.getIndex cnv (Some o)
  = Z.of_nat (find_offset (Some o) (Patch.getObjects (Some cnv) false))
  /\ (find_offset (Some o) (Patch.getObjects (Some cnv) false)
      < length (Patch.getObjects (Some cnv) false))%nat.
Proof.
  intros Ho.
  assert (Hlt : (find_offset (Some o) (Patch.getObjects (Some cnv) false)
                 < length (Patch.getObjects (Some cnv) false))%nat)
    by (apply find_offset_lt_In; eauto).
  split; [| exact Hlt].
  unfold Patch.getIndex. rewrite getIndex_loop_offset.
  fold (Patch.getObjects (Some cnv) false).
  apply Nat.ltb_lt in Hlt. rewrite Hlt. lia.
Qed.

(** In a box list that is in step, [boxes[getIndex(o)]] is the box of [o],
    and it is up to date. *)
Lemma in_step_resolves (cnv : t_canvas) (upd : bool) (bs : list Box) (o : t_gobj) :
  in_step cnv upd bs ->
  NoDup (gl_list cnv) ->
  In o (Patch.getObjects (Some cnv) false) ->
  exists b,
    at_index bs (Patch.getIndex cnv (Some o)) = Some b
    /\ In b bs /\ getPointer b = Some o /\ refresh_box cnv upd b = b.
Proof.
  intros (Hnd & Hu & Hs & Hcov & Hfix) Hgl Ho.
  set (objects := Patch.getObjects (Some cnv) false) in *.
  assert (Hndo : NoDup objects) by (apply NoDup_filter; exact Hgl).
  destruct (getIndex_listed cnv o Ho) as [Hidx Hlt]. fold objects in Hidx, Hlt.
  pose proof (covered_length _ _ Hndo Hcov) as Hlen.
  set (p := find_offset (Some o) objects) in *.
  destruct (nth_error bs p) as [b |] eqn:E; [| apply nth_error_None in E; lia].
  pose proof (sorted_boxes_aligned _ _ Hndo Hs Hcov Hu p b E Hlt) as Hpos.
  destruct (position_listed objects b ltac:(lia)) as (o' & Hpo' & Ho').
  rewrite Hpos in Ho'.
  destruct (find_offset_In o objects Ho) as [Hnth _]. fold p in Hnth.
  assert (o' = o) by congruence. subst o'.
  exists b. assert (Hin : In b bs) by (eapply nth_error_In; exact E).
  repeat split; auto.
  - rewrite Hidx. unfold at_index.
    destruct (Z.ltb_spec (Z.of_nat p) 0); [lia |]. rewrite Nat2Z.id. exact E.
  - apply (Hfix b o); auto.
Qed.

Lemma at_index_nonneg {A : Type} (l : list A) (i : Z) :
  0 <= i -> at_index l i = nth_error l (Z.to_nat i).
Proof. intros H. unfold at_index. destruct (Z.ltb_spec i 0); [lia | reflexivity]. Qed.

(** The connection that line 258 builds for a cord of the engine between
    two boxes that are up to date. *)
Lemma new_Connection_for_cord (cnv : t_canvas) (upd : bool) (a : nat)
    (srcBox sinkBox : Box) (inobj outobj : t_gobj) (inno outno : Z) :
  refresh_box cnv upd srcBox = srcBox -> getPointer srcBox = Some inobj ->
  refresh_box cnv upd sinkBox = sinkBox -> getPointer sinkBox = Some outobj ->
  0 <= outno < Z.of_nat (obj_noutlets cnv inobj) ->
  0 <= inno < Z.of_nat (obj_ninlets cnv outobj) ->
  new_Connection a
    (at_index (edges srcBox) (Z.of_nat (numInputs srcBox) + outno))
    (at_index (edges sinkBox) inno)
  = Done (cord_connection a srcBox sinkBox inno outno)
  /\ outno < size (edges srcBox) /\ inno < size (edges sinkBox)
  /\ In {| edge_box := box_this srcBox; isInlet := false; edgeIdx := Z.to_nat outno |}
        (edges srcBox)
  /\ In {| edge_box := box_this sinkBox; isInlet := true; edgeIdx := Z.to_nat inno |}
        (edges sinkBox).
Proof.
  intros Hfs Hps Hfk Hpk Hout Hin.
  destruct (up_to_date_ports _ _ _ _ Hfs Hps) as [Hes Hns].
  destruct (up_to_date_ports _ _ _ _ Hfk Hpk) as [Hek Hnk].
  assert (Eo : at_index (edges srcBox) (Z.of_nat (numInputs srcBox) + outno)
               = Some {| edge_box := box_this srcBox; isInlet := false;
                         edgeIdx := Z.to_nat outno |}).
  { rewrite at_index_nonneg by lia. rewrite Hes, Hns.
    replace (Z.to_nat (Z.of_nat (obj_ninlets cnv inobj) + outno))
      with (obj_ninlets cnv inobj + Z.to_nat outno)%nat by lia.
    apply make_edges_outlet. lia. }
  assert (Ei : at_index (edges sinkBox) inno
               = Some {| edge_box := box_this sinkBox; isInlet := true;
                         edgeIdx := Z.to_nat inno |}).
  { rewrite at_index_nonneg by lia. rewrite Hek. apply make_edges_inlet. lia. }
  repeat split.
  - rewrite Eo, Ei. unfold new_Connection, cord_connection. cbn [isInlet Bool.eqb edge_box edgeIdx].
    rewrite !Z2Nat.id by lia. reflexivity.
  - unfold size. rewrite Hes, make_edges_length. lia.
  - unfold size. rewrite Hek, make_edges_length. lia.
  - apply at_index_In in Eo. tauto.
  - apply at_index_In in Ei. tauto.
Qed.

Lemma same_connection_cord (bs : list Box) (a : nat) (srcBox sinkBox : Box) (inno outno : Z) :
  NoDup (map box_this bs) -> In srcBox bs -> In sinkBox bs ->
  In {| edge_box := box_this srcBox; isInlet := false; edgeIdx := Z.to_nat outno |}
     (edges srcBox) ->
  In {| edge_box := box_this sinkBox; isInlet := true; edgeIdx := Z.to_nat inno |}
     (edges sinkBox) ->
  same_connection bs inno outno srcBox sinkBox (cord_connection a srcBox sinkBox inno outno)
  = true.
Proof.
  intros Hnd Hs Hk Ho Hi. unfold same_connection, cord_connection, is_null.
  cbn [inlet outlet inbox outbox inIdx outIdx].
  rewrite (edge_alive_In bs sinkBox
             {| edge_box := box_this sinkBox; isInlet := true; edgeIdx := Z.to_nat inno |}
             Hnd Hk eq_refl Hi).
  rewrite (edge_alive_In bs srcBox
             {| edge_box := box_this srcBox; isInlet := false; edgeIdx := Z.to_nat outno |}
             Hnd Hs eq_refl Ho).
  cbn [negb orb]. rewrite !Z.eqb_refl, !Nat.eqb_refl. reflexivity.
Qed.

(** One turn of the loop of lines 226-271 on a cord of a consistent engine,
    when the box list is in step: the tuple resolves and passes the guard,
    and a connection is made exactly when none stands for the cord yet. *)
Lemma connect_in_step (cnv : t_canvas) (upd : bool) (bs : list Box) (t : t_line) :
  in_step cnv upd bs ->
  NoDup (gl_list cnv) ->
  cords_consistent cnv ->
  In t (gl_lines cnv) ->
  exists srcBox sinkBox,
    at_index bs (Patch.getIndex cnv (Some (tr_ob t))) = Some srcBox
    /\ at_index bs (Patch.getIndex cnv (Some (tr_ob2 t))) = Some sinkBox
    /\ tr_outno t < size (edges srcBox) /\ tr_inno t < size (edges sinkBox)
    /\ (forall a, cord_of cnv bs (cord_connection a srcBox sinkBox (tr_inno t) (tr_outno t)))
    /\ (forall a, same_connection bs (tr_inno t) (tr_outno t) srcBox sinkBox
                    (cord_connection a srcBox sinkBox (tr_inno t) (tr_outno t)) = true)
    /\ forall cs next log,
         connect cnv bs (cs, next, log) (tuple_of t)
         = if existsb (same_connection bs (tr_inno t) (tr_outno t) srcBox sinkBox) cs
           then Done (cs, next, log)
           else Done (cs ++ [cord_connection next srcBox sinkBox (tr_inno t) (tr_outno t)],
                      S next, log).
Proof.
  intros Hstep Hgl Hcons Ht.
  unfold cords_consistent in Hcons. rewrite Forall_forall in Hcons.
  destruct (Hcons t Ht) as (Hob & Hob2 & Hout & Hin).
  destruct (in_step_resolves _ _ _ _ Hstep Hgl Hob) as (srcBox & Hsrc & Hsb & Hsp & Hsf).
  destruct (in_step_resolves _ _ _ _ Hstep Hgl Hob2) as (sinkBox & Hsink & Hkb & Hkp & Hkf).
  destruct Hstep as (Hnd & _).
  exists srcBox, sinkBox.
  assert (Hnew := fun a => new_Connection_for_cord cnv upd a srcBox sinkBox _ _ _ _
                             Hsf Hsp Hkf Hkp Hout Hin).
  destruct (Hnew 0%nat) as (_ & Hgo & Hgi & Heo & Hei).
  repeat split; auto.
  - intros a. exists t, srcBox, sinkBox. repeat split; auto.
  - intros a. apply same_connection_cord; auto.
  - intros cs next log. unfold connect, tuple_of. rewrite Hsrc, Hsink.
    apply at_index_In in Hsrc, Hsink. destruct Hsrc as [_ Hrs], Hsink as [_ Hrk].
    assert (G1 : (Patch.getIndex cnv (Some (tr_ob t)) >=? size bs) = false)
      by (rewrite Z.geb_leb; apply Z.leb_gt; lia).
    assert (G2 : (Patch.getIndex cnv (Some (tr_ob2 t)) >=? size bs) = false)
      by (rewrite Z.geb_leb; apply Z.leb_gt; lia).
    assert (G3 : (tr_outno t >=? size (edges srcBox)) = false)
      by (rewrite Z.geb_leb; apply Z.leb_gt; lia).
    assert (G4 : (tr_inno t >=? size (edges sinkBox)) = false)
      by (rewrite Z.geb_leb; apply Z.leb_gt; lia).
    rewrite G1, G2. cbn [orb edges_of bind]. rewrite G3, G4.
    destruct (existsb _ cs); [reflexivity |].
    destruct (Hnew next) as (-> & _). reflexivity.
Qed.

Lemma matched_connect (cnv : t_canvas) (bs : list Box) (cs : list Connection)
    (connection : Z * t_gobj * Z * t_gobj) (next : nat) (log : list string) :
  matched cnv bs cs connection ->
  connect cnv bs (cs, next, log) connection = Done (cs, next, log).
Proof.
  destruct connection as [[[inno inobj] outno] outobj].
  intros (srcBox & sinkBox & Hsrc & Hsink & Ho & Hi & Hex).
  unfold connect. rewrite Hsrc, Hsink.
  apply at_index_In in Hsrc, Hsink. destruct Hsrc as [_ Hrs], Hsink as [_ Hrk].
  assert (G1 : (Patch.getIndex cnv (Some inobj) >=? size bs) = false)
    by (rewrite Z.geb_leb; apply Z.leb_gt; lia).
  assert (G2 : (Patch.getIndex cnv (Some outobj) >=? size bs) = false)
    by (rewrite Z.geb_leb; apply Z.leb_gt; lia).
  assert (G3 : (outno >=? size (edges srcBox)) = false)
    by (rewrite Z.geb_leb; apply Z.leb_gt; lia).
  assert (G4 : (inno >=? size (edges sinkBox)) = false)
    by (rewrite Z.geb_leb; apply Z.leb_gt; lia).
  rewrite G1, G2. cbn [orb edges_of bind]. rewrite G3, G4, Hex. reflexivity.
Qed.

Lemma matched_app (cnv : t_canvas) (bs : list Box) (cs more : list Connection)
    (connection : Z * t_gobj * Z * t_gobj) :
  matched cnv bs cs connection -> matched cnv bs (cs ++ more) connection.
Proof.
  destruct connection as [[[inno inobj] outno] outobj].
  intros (srcBox & sinkBox & Hsrc & Hsink & Ho & Hi & Hex).
  exists srcBox, sinkBox. repeat split; auto.
  rewrite existsb_app, Hex. reflexivity.
Qed.

Lemma connect_all_matched (cnv : t_canvas) (bs : list Box) (cs : list Connection)
    (next : nat) (log : list string) (pdConnections : Patch.Connections) :
  (forall connection, In connection pdConnections -> matched cnv bs cs connection) ->
  connect_all cnv bs (cs, next, log) pdConnections = Done (cs, next, log).
Proof.
  induction pdConnections as [| connection rest IH]; cbn [connect_all]; intros H;
    [reflexivity |].
  rewrite matched_connect by (apply H; left; reflexivity).
  cbn [bind]. apply IH. intros c Hc. apply H. right. exact Hc.
Qed.

(** The loop of lines 226-271 over cords of a consistent engine, when the
    box list is in step: it completes, afterwards every cord has its
    connection, and what it added are connections of cords. *)
Lemma connect_all_in_step (cnv : t_canvas) (upd : bool) (bs : list Box) :
  in_step cnv upd bs ->
  NoDup (gl_list cnv) ->
  cords_consistent cnv ->
  forall ts cs next log,
    incl ts (gl_lines cnv) ->
    exists added next',
      connect_all cnv bs (cs, next, log) (map tuple_of ts) = Done (cs ++ added, next', log)
      /\ Forall (cord_of cnv bs) added
      /\ forall t, In t ts -> matched cnv bs (cs ++ added) (tuple_of t).
Proof.
  intros Hstep Hgl Hcons. induction ts as [| t rest IH]; intros cs next log Hincl.
  - exists [], next. rewrite app_nil_r. simpl. repeat split; auto. intros t [].
  - destruct (connect_in_step _ _ _ t Hstep Hgl Hcons (Hincl t (or_introl eq_refl)))
      as (srcBox & sinkBox & Hsrc & Hsink & Ho & Hi & Hcord & Hsame & Hconnect).
    assert (Hrest : incl rest (gl_lines cnv))
      by (intros x Hx; apply Hincl; right; exact Hx).
    cbn [map connect_all]. rewrite Hconnect.
    destruct (existsb (same_connection bs (tr_inno t) (tr_outno t) srcBox sinkBox) cs) eqn:Ex.
    + destruct (IH cs next log Hrest) as (added & next' & Hrun & Hadded & Hm).
      exists added, next'. cbn [bind]. repeat split; auto.
      intros t' [<- | Ht']; [| apply Hm; exact Ht'].
      apply matched_app. exists srcBox, sinkBox. repeat split; auto.
    + set (c := cord_connection next srcBox sinkBox (tr_inno t) (tr_outno t)).
      destruct (IH (cs ++ [c]) (S next) log Hrest) as (added & next' & Hrun & Hadded & Hm).
      exists (c :: added), next'. cbn [bind].
      replace (cs ++ c :: added) with ((cs ++ [c]) ++ added)
        by (rewrite <- app_assoc; reflexivity).
      repeat split; auto.
      * constructor; [apply Hcord | exact Hadded].
      * intros t' [<- | Ht']; [| apply Hm; exact Ht'].
        apply matched_app. exists srcBox, sinkBox. repeat split; auto.
        rewrite existsb_app. cbn [existsb]. unfold c. rewrite Hsame.
        rewrite orb_true_r. reflexivity.
Qed.

Lemma is_null_ext (bs bs' : list Box) (e : option Edge) :
  (forall a, deref_box bs' a = deref_box bs a) -> is_null bs' e = is_null bs e.
Proof.
  intros H. destruct e as [e |]; [| reflexivity].
  unfold is_null, edge_alive. rewrite H. reflexivity.
Qed.

Lemma matched_ext (cnv : t_canvas) (bs bs' : list Box) (cs : list Connection)
    (connection : Z * t_gobj * Z * t_gobj) :
  (forall a, deref_box bs' a = deref_box bs a) ->
  (forall obj b, at_index bs (Patch.getIndex cnv obj) = Some b ->
                 at_index bs' (Patch.getIndex cnv obj) = Some b) ->
  matched cnv bs cs connection -> matched cnv bs' cs connection.
Proof.
  destruct connection as [[[inno inobj] outno] outobj].
  intros Hd Hat (srcBox & sinkBox & Hsrc & Hsink & Ho & Hi & Hex).
  exists srcBox, sinkBox. repeat split; auto.
  rewrite <- Hex. clear Hex. induction cs as [| c rest IH]; simpl; [reflexivity |].
  rewrite IH. f_equal. unfold same_connection.
  rewrite !(is_null_ext bs bs') by exact Hd. reflexivity.
Qed.

Lemma canvas_isconnected_cord (cnv : t_canvas) (t : t_line) :
  In t (gl_lines cnv) ->
  canvas_isconnected cnv (Some (tr_ob t)) (tr_outno t) (Some (tr_ob2 t)) (tr_inno t) = true.
Proof.
  intros Ht. unfold canvas_isconnected. apply existsb_exists. exists t.
  split; [exact Ht |]. simpl. rewrite !Nat.eqb_refl, !Z.eqb_refl. reflexivity.
Qed.

Lemma canvas_isconnected_true (cnv : t_canvas) (ob1 : voidp) (n1 : Z) (ob2 : voidp) (n2 : Z) :
  canvas_isconnected cnv ob1 n1 ob2 n2 = true ->
  exists t, In t (gl_lines cnv)
            /\ ob1 = Some (tr_ob t) /\ n1 = tr_outno t
            /\ ob2 = Some (tr_ob2 t) /\ n2 = tr_inno t.
Proof.
  unfold canvas_isconnected. intros H. apply existsb_exists in H.
  destruct H as (t & Ht & H). exists t.
  apply andb_prop in H. destruct H as [H H4].
  apply andb_prop in H. destruct H as [H H3].
  apply andb_prop in H. destruct H as [H1 H2].
  apply voidp_eqb_eq in H1, H3. apply Z.eqb_eq in H2, H4. auto.
Qed.

(** The connection of a cord passes the test of lines 157-170. *)
Lemma cord_of_kept (cnv : t_canvas) (bs : list Box) (c : Connection) :
  NoDup (map box_this bs) ->
  cords_consistent cnv ->
  cord_of cnv bs c ->
  connection_deprecated cnv (Patch.getObjects (Some cnv) false) bs c = Done false.
Proof.
  intros Hnd Hcons (t & srcBox & sinkBox & Ht & Hs & Hk & Hps & Hpk & Ho & Hi & ->).
  unfold cords_consistent in Hcons. rewrite Forall_forall in Hcons.
  destruct (Hcons t Ht) as (Hob & Hob2 & _).
  unfold connection_deprecated, cord_connection, is_null.
  cbn [inlet outlet inbox outbox inIdx outIdx con_this].
  rewrite (edge_alive_In bs sinkBox
             {| edge_box := box_this sinkBox; isInlet := true;
                edgeIdx := Z.to_nat (tr_inno t) |} Hnd Hk eq_refl Hi).
  rewrite (edge_alive_In bs srcBox
             {| edge_box := box_this srcBox; isInlet := false;
                edgeIdx := Z.to_nat (tr_outno t) |} Hnd Hs eq_refl Ho).
  cbn [negb orb].
  rewrite (deref_box_NoDup _ _ Hnd Hk), (deref_box_NoDup _ _ Hnd Hs), Hps, Hpk.
  assert (E1 : isObjectDeprecated (Patch.getObjects (Some cnv) false) (Some (tr_ob2 t)) = false)
    by (apply isObjectDeprecated_false; eauto).
  assert (E2 : isObjectDeprecated (Patch.getObjects (Some cnv) false) (Some (tr_ob t)) = false)
    by (apply isObjectDeprecated_false; eauto).
  rewrite E1, E2, (canvas_isconnected_cord cnv t Ht). reflexivity.
Qed.

(** A well-formed connection that passed the test of lines 157-170 before
    the boxes were brought in step passes it again afterwards. *)
Lemma kept_connection_kept (cnv : t_canvas) (upd : bool) (bs0 bs : list Box) (c : Connection) :
  let objects := Patch.getObjects (Some cnv) false in
  in_step cnv upd bs ->
  cords_consistent cnv ->
  (forall b0, In b0 bs0 -> isObjectDeprecated objects (getPointer b0) = false ->
     exists b, In b bs /\ box_this b = box_this b0 /\ getPointer b = getPointer b0) ->
  con_wf c ->
  connection_deprecated cnv objects bs0 c = Done false ->
  connection_deprecated cnv objects bs c = Done false.
Proof.
  intros objects (Hnd & _ & _ & _ & Hfix) Hcons Hkeep Hwf Hpass.
  apply connection_deprecated_false in Hpass.
  destruct Hpass as (Hni & Hno & ib & ob & Hib & Hob & Hdi & Hdo & Hcon).
  destruct Hwf as [Hn | [Hn | (Hi0 & Ho0 & Hin & Hout)]];
    [rewrite Hn in Hni; discriminate | rewrite Hn in Hno; discriminate |].
  apply deref_box_In in Hib, Hob. destruct Hib as [Hib Hia], Hob as [Hob Hoa].
  destruct (Hkeep ib Hib Hdi) as (ib' & Hib' & Hia' & Hip').
  destruct (Hkeep ob Hob Hdo) as (ob' & Hob' & Hoa' & Hop').
  apply canvas_isconnected_true in Hcon.
  destruct Hcon as (t & Ht & Ep1 & En1 & Ep2 & En2).
  unfold cords_consistent in Hcons. rewrite Forall_forall in Hcons.
  destruct (Hcons t Ht) as (Ht1 & Ht2 & Hro & Hri).
  assert (Hfo : refresh_box cnv upd ob' = ob') by (apply (Hfix ob' (tr_ob t)); auto; congruence).
  assert (Hfi : refresh_box cnv upd ib' = ib') by (apply (Hfix ib' (tr_ob2 t)); auto; congruence).
  destruct (up_to_date_ports cnv upd ob' (tr_ob t) Hfo ltac:(congruence)) as [Heo _].
  destruct (up_to_date_ports cnv upd ib' (tr_ob2 t) Hfi ltac:(congruence)) as [Hei _].
  assert (Ai : edge_alive bs {| edge_box := inbox c; isInlet := true;
                                edgeIdx := Z.to_nat (inIdx c) |} = true).
  { apply (edge_alive_In bs ib'); auto; [simpl; congruence |].
    rewrite Hei. eapply nth_error_In. rewrite Hia', Hia.
    apply make_edges_inlet. lia. }
  assert (Ao : edge_alive bs {| edge_box := outbox c; isInlet := false;
                                edgeIdx := Z.to_nat (outIdx c) |} = true).
  { apply (edge_alive_In bs ob'); auto; [simpl; congruence |].
    rewrite Heo. eapply nth_error_In. rewrite Hoa', Hoa.
    apply make_edges_outlet. lia. }
  unfold connection_deprecated, is_null. rewrite Hin, Hout, Ai, Ao. cbn [negb orb].
  assert (Di : deref_box bs (inbox c) = Some ib')
    by (rewrite <- Hia, <- Hia'; apply deref_box_NoDup; auto).
  assert (Do : deref_box bs (outbox c) = Some ob')
    by (rewrite <- Hoa, <- Hoa'; apply deref_box_NoDup; auto).
  rewrite Di, Do, Hip', Hop'. fold objects. rewrite Hdi, Hdo.
  rewrite Ep1, Ep2, En1, En2, (canvas_isconnected_cord cnv t Ht). reflexivity.
Qed.

Lemma remove_deprecated_connections_none (cnv : t_canvas) (objects : list t_gobj)
    (bs : list Box) (cs : list Connection) :
  (forall c, In c cs -> connection_deprecated cnv objects bs c = Done false) ->
  remove_deprecated_connections cnv objects bs cs = Done cs.
Proof.
  induction cs as [| c rest IH]; simpl; intros H; [reflexivity |].
  rewrite IH by (intros x Hx; apply H; right; exact Hx).
  rewrite (H c (or_introl eq_refl)). reflexivity.
Qed.

(** The loop of lines 153-171 completes when the connections are
    well-formed: a connection whose edges are there has its boxes. *)
Lemma remove_deprecated_connections_completes (cnv : t_canvas) (objects : list t_gobj)
    (bs : list Box) (cs : list Connection) :
  Forall con_wf cs ->
  exists cs', remove_deprecated_connections cnv objects bs cs = Done cs'.
Proof.
  induction 1 as [| c rest Hc _ (rest' & IH)]; simpl; [eauto |].
  rewrite IH. cbn [bind].
  assert (Hd : exists gone, connection_deprecated cnv objects bs c = Done gone).
  { unfold connection_deprecated.
    destruct (is_null bs (inlet c)) eqn:Ni; [simpl; eauto |].
    destruct (is_null bs (outlet c)) eqn:No; [simpl; eauto |]. cbn [orb].
    destruct Hc as [Hn | [Hn | (_ & _ & Hin & Hout)]];
      [rewrite Hn in Ni; discriminate | rewrite Hn in No; discriminate |].
    rewrite Hin in Ni. rewrite Hout in No. unfold is_null, edge_alive in Ni, No.
    cbn [edge_box] in Ni, No.
    destruct (deref_box bs (inbox c)) as [ib |]; [| discriminate].
    destruct (isObjectDeprecated objects (getPointer ib)); [eauto |].
    destruct (deref_box bs (outbox c)) as [ob |]; [| discriminate].
    destruct (isObjectDeprecated objects (getPointer ob)); eauto. }
  destruct Hd as (gone & ->). cbn [bind]. eauto.
Qed.

Lemma filter_all {A : Type} (f : A -> bool) (l : list A) :
  (forall x, In x l -> f x = true) -> filter f l = l.
Proof.
  induction l as [| x rest IH]; simpl; intros H; [reflexivity |].
  rewrite (H x (or_introl eq_refl)). f_equal. apply IH. intros y Hy. apply H. right. exact Hy.
Qed.

(** What the box passes of synchronise (lines 174-220) achieve on a canvas
    with one box per object. *)
Lemma box_passes_in_step (upd : bool) (cnv : t_canvas) (cv : Canvas)
    (bs2 : list Box) (next2 : nat) :
  let objects := Patch.getObjects (Some cnv) false in
  heap_wf cv ->
  unique_boxes (boxes cv) ->
  fold_left (add_or_refresh cnv upd) objects
    (clear_deleted_boxes objects (boxes cv), heap_next cv) = (bs2, next2) ->
  in_step cnv upd (std_sort (box_before objects) bs2)
  /\ (forall b, In b (std_sort (box_before objects) bs2) ->
        gui b && isObjectDeprecated objects (getPointer b) = false)
  /\ (forall b0, In b0 (boxes cv) -> isObjectDeprecated objects (getPointer b0) = false ->
        exists b, In b (std_sort (box_before objects) bs2)
                  /\ box_this b = box_this b0 /\ getPointer b = getPointer b0).
Proof.
  intros objects Hwf Hu Hfold.
  set (cvg := {| isGraph := true; presentationMode := presentationMode cv;
                 boxes := std_sort (box_before objects) bs2;
                 connections := connections cv; selectedComponents := [];
                 heap_next := next2; console := console cv |}).
  assert (Hrun : synchronise std_sort upd cnv (as_graph cv) = Done cvg).
  { unfold synchronise, as_graph.
    cbn [deselectAll isGraph presentationMode boxes connections heap_next console
         selectedComponents orb negb bind].
    fold objects. rewrite Hfold. reflexivity. }
  assert (Hwfg : heap_wf (as_graph cv)) by exact Hwf.
  change (std_sort (box_before objects) bs2) with (boxes cvg).
  assert (Hup : forall o, In o objects ->
            exists b, In b (boxes cvg) /\ getPointer b = Some o
                      /\ refresh_box cnv upd b = b).
  { intros o Ho.
    destruct (add_or_refresh_up_to_date _ _ _ _ _ _ _ Hfold o (or_introl Ho))
      as (b & Hb & Hp & Hf).
    exists b. split; [| auto]. cbn [cvg boxes].
    apply (Permutation_in _ (std_sort_Permutation _ _)). exact Hb. }
  assert (Hug : unique_boxes (boxes cvg)).
  { intros o. pose proof (synchronise_proxies _ _ _ _ o Hrun) as H.
    specialize (Hu o). cbn [as_graph boxes] in H. cbn [boxes]. lia. }
  repeat split.
  - apply (synchronise_heap_wf _ _ _ _ Hrun Hwfg).
  - exact Hug.
  - apply (synchronise_sorted _ _ _ _ Hrun).
  - intros o Ho. destruct (Hup o Ho) as (b & Hb & Hp & _). eauto.
  - intros b o Hb Ho Hp. destruct (Hup o Ho) as (b' & Hb' & Hp' & Hf').
    assert (b = b') by (apply (unique_boxes_eq (boxes cvg) o); auto).
    subst b'. exact Hf'.
  - intros b Hb.
    destruct (synchronise_boxes_In _ _ _ _ b Hrun Hb)
      as [(b0 & _ & Hb0 & Hev) | (n2 & (o & a & Ho & _ & ->) & _)].
    + apply evolves_identity in Hev. destruct Hev as (_ & Hp & Hg).
      fold objects in Hb0. rewrite Hp, Hg.
      destruct Hb0 as [-> | ->]; [reflexivity | apply andb_false_r].
    + assert (E : isObjectDeprecated objects (getPointer (new_Box cnv o a)) = false)
        by (apply isObjectDeprecated_false; exists o; split; [reflexivity | exact Ho]).
      rewrite E. apply andb_false_r.
  - intros b0 Hb0 Hdep.
    pose proof (synchronise_boxes _ _ _ _ Hrun) as (kept & made & n2 & Hbs & HF & _).
    fold objects in HF, Hbs.
    assert (Hc : In b0 (clear_deleted_boxes objects (boxes (as_graph cv))))
      by (apply clear_deleted_boxes_In; auto).
    destruct (Forall2_In_left _ _ _ _ HF Hc) as (b & Hb & Hev).
    apply evolves_identity in Hev. destruct Hev as (Ha & Hp & _).
    exists b. split; [| auto]. rewrite Hbs.
    apply (Permutation_in _ (std_sort_Permutation _ _)). apply in_or_app. left. exact Hb.
Qed.

(** On a canvas that shows the patch, synchronise completes and changes
    only the arrangement of the boxes, if anything. *)
Lemma synchronise_reconciled (upd : bool) (cnv : t_canvas) (cv : Canvas) :
  let objects := Patch.getObjects (Some cnv) false in
  reconciled cnv upd cv ->
  NoDup (gl_list cnv) ->
  synchronise std_sort upd cnv cv
  = Done {| isGraph := isGraph cv; presentationMode := presentationMode cv;
            boxes := std_sort (box_before objects) (boxes cv);
            connections := connections cv; selectedComponents := [];
            heap_next := heap_next cv; console := console cv |}.
Proof.
  intros objects (Hstep & Hclean & Hsel & Hcon) Hgl. subst objects.
  pose proof Hstep as (Hnd & Hu & Hs & Hcov & Hfix).
  unfold synchronise.
  cbn [deselectAll isGraph presentationMode boxes connections heap_next console
       selectedComponents].
  set (objects := Patch.getObjects (Some cnv) false) in *.
  assert (Hclear : clear_deleted_boxes objects (boxes cv) = boxes cv).
  { apply filter_all. intros b Hb. cbv beta. rewrite (Hclean b Hb). reflexivity. }
  rewrite Hclear, (fold_add_or_refresh_settled cnv upd objects (boxes cv) (heap_next cv) Hcov Hfix).
  destruct (isGraph cv || presentationMode cv) eqn:Emode; cbn [negb bind]; [reflexivity |].
  destruct (Hcon eq_refl) as [Hkept Hmatched].
  rewrite (remove_deprecated_connections_none _ _ _ _ Hkept). cbn [bind].
  set (bs' := std_sort (box_before objects) (boxes cv)).
  assert (Hperm : Permutation (boxes cv) bs') by apply std_sort_Permutation.
  assert (Hndo : NoDup objects) by (apply NoDup_filter; exact Hgl).
  rewrite connect_all_matched; [reflexivity |].
  intros connection Hc. unfold Patch.getConnections in Hc.
  apply in_map_iff in Hc. destruct Hc as (t & <- & Ht).
  apply (matched_ext cnv (boxes cv) bs'); [| | exact (Hmatched t Ht)].
  - intros a. symmetry. apply deref_box_Permutation; assumption.
  - intros obj b Hat. pose proof (at_index_In _ _ _ Hat) as [_ Hr].
    pose proof (getIndex_range cnv obj) as Hr'. unfold size in Hr'. fold objects in Hr'.
    unfold size in Hr.
    rewrite at_index_nonneg in * by lia.
    rewrite (sorted_arrangements_agree objects (boxes cv) bs' Hndo Hs
               (std_sort_ordered (position objects) (boxes cv)) Hperm Hcov Hu) by lia.
    exact Hat.
Qed.

(** On a well-formed canvas and a consistent engine synchronise completes,
    and the canvas then shows the patch. *)
Lemma synchronise_reconciles (upd : bool) (cnv : t_canvas) (cv : Canvas) :
  heap_wf cv ->
  unique_boxes (boxes cv) ->
  Forall con_wf (connections cv) ->
  NoDup (gl_list cnv) ->
  cords_consistent cnv ->
  exists cv1,
    synchronise std_sort upd cnv cv = Done cv1 /\ reconciled cnv upd cv1.
Proof.
  intros Hwf Hu Hcwf Hgl Hcons.
  set (objects := Patch.getObjects (Some cnv) false).
  destruct (fold_left (add_or_refresh cnv upd) objects
              (clear_deleted_boxes objects (boxes cv), heap_next cv))
    as [bs2 next2] eqn:Hfold.
  destruct (box_passes_in_step upd cnv cv bs2 next2 Hwf Hu Hfold) as (Hstep & Hclean & Hkeep).
  fold objects in Hstep, Hclean, Hkeep.
  set (bs3 := std_sort (box_before objects) bs2) in *.
  unfold synchronise.
  cbn [deselectAll isGraph presentationMode boxes connections heap_next console
       selectedComponents].
  fold objects. rewrite Hfold. fold bs3.
  destruct (isGraph cv || presentationMode cv) eqn:Emode; cbn [negb bind].
  - eexists. split; [reflexivity |].
    unfold reconciled. cbn [boxes connections selectedComponents isGraph presentationMode].
    fold objects. split; [exact Hstep |]. split; [exact Hclean |].
    split; [reflexivity |]. intros E. rewrite Emode in E. discriminate E.
  - destruct (remove_deprecated_connections_completes cnv objects (boxes cv)
                (connections cv) Hcwf) as (cs1 & Hrem).
    rewrite Hrem. cbn [bind].
    destruct (connect_all_in_step cnv upd bs3 Hstep Hgl Hcons (gl_lines cnv) cs1 next2
                (console cv) (incl_refl _)) as (added & next3 & Hrun & Hadded & Hmatched).
    unfold Patch.getConnections.
    change (map (fun t => (tr_inno t, tr_ob t, tr_outno t, tr_ob2 t)) (gl_lines cnv))
      with (map tuple_of (gl_lines cnv)).
    rewrite Hrun. cbn [bind].
    eexists. split; [reflexivity |].
    unfold reconciled. cbn [boxes connections selectedComponents isGraph presentationMode].
    fold objects. split; [exact Hstep |]. split; [exact Hclean |].
    split; [reflexivity |]. intros _. split; [| exact Hmatched].
    intros c Hc. apply in_app_or in Hc. destruct Hc as [Hc | Hc].
    + apply (remove_deprecated_connections_Done _ _ _ _ _ Hrem) in Hc.
      destruct Hc as [Hin Hpass].
      rewrite Forall_forall in Hcwf.
      apply (kept_connection_kept cnv upd (boxes cv) bs3); auto.
    + rewrite Forall_forall in Hadded.
      apply cord_of_kept; auto. destruct Hstep as (Hnd & _). exact Hnd.
Qed.

(** C3. On a canvas with one box per engine object, whose boxes sit at
    distinct addresses and own their edges and whose connections are as
    their constructor leaves them, and for an engine whose chain holds no
    object twice and whose cords join listed objects at existing ports:
    synchronise completes, a second synchronise on the same engine state
    completes too, and the second run leaves the same boxes (the same
    records, those of the engine's objects at the same places), the same
    connection list, and allocates nothing: no box and no connection is
    made twice. *)
Theorem synchronise_idempotent (upd : bool) (cnv : t_canvas) (cv : Canvas) :
  heap_wf cv ->
  unique_boxes (boxes cv) ->
  Forall con_wf (connections cv) ->
  NoDup (gl_list cnv) ->
  cords_consistent cnv ->
  exists cv1 cv2,
    synchronise std_sort upd cnv cv = Done cv1
    /\ synchronise std_sort upd cnv cv1 = Done cv2
    /\ Permutation (boxes cv1) (boxes cv2)
    /\ (forall p, (p < length (Patch.getObjects (Some cnv) false))%nat ->
          nth_error (boxes cv2) p = nth_error (boxes cv1) p)
    /\ unique_boxes (boxes cv2)
    /\ connections cv2 = connections cv1
    /\ heap_next cv2 = heap_next cv1.
Proof.
  intros Hwf Hu Hcwf Hgl Hcons.
  destruct (synchronise_reconciles upd cnv cv Hwf Hu Hcwf Hgl Hcons) as (cv1 & Hrun1 & Hrec).
  pose proof (synchronise_reconciled upd cnv cv1 Hrec Hgl) as Hrun2.
  destruct Hrec as ((Hnd & Hu1 & Hs & Hcov & Hfix) & _).
  set (objects := Patch.getObjects (Some cnv) false) in *.
  eexists cv1, _. split; [exact Hrun1 |]. split; [exact Hrun2 |].
  cbn [boxes connections heap_next].
  assert (Hperm : Permutation (boxes cv1) (std_sort (box_before objects) (boxes cv1)))
    by apply std_sort_Permutation.
  repeat split; auto.
  - intros p Hp.
    apply (sorted_arrangements_agree objects (boxes cv1)); auto;
      try (apply NoDup_filter; exact Hgl);
      try exact (std_sort_ordered (position objects) (boxes cv1)).
  - intros o. rewrite <- (proxies_Permutation o _ _ Hperm). apply Hu1.
Qed.

End Reconciler.

(** ** createConnection (C5) *)

Section CreateConnection.

Variable libpd_canconnect : t_canvas -> voidp -> Z -> voidp -> Z -> bool.
Variable pd_checkobject : t_canvas -> t_gobj -> voidp.
Variable pd_effect : Patch.pd_call -> t_canvas -> t_canvas.

Let createConnection := Patch.createConnection libpd_canconnect pd_checkobject pd_effect.
Let drain := Patch.drain libpd_canconnect pd_checkobject pd_effect.

(** The function is the closure queued behind what is pending, followed by
    the wait. *)
Lemma createConnection_enqueue_wait (s : Patch.Object) (nout : Z) (k : Patch.Object)
    (nin : Z) (p : Patch.t) (cnv : t_canvas) :
  Patch.ptr p = Some cnv ->
  Patch.waitForStateUpdate libpd_canconnect pd_checkobject pd_effect
    (Patch.enqueueFunction (Patch.createConnection_fn s nout k nin) p)
  = Done (snd (createConnection (Some s) nout (Some k) nin p)).
Proof.
  intros Hp. unfold createConnection, Patch.createConnection, Patch.waitForStateUpdate,
    Patch.enqueueFunction. cbn [Patch.queue Patch.ptr Patch.calls]. rewrite Hp.
  destruct (Patch.queue p ++ [Patch.createConnection_fn s nout k nin]) eqn:E.
  - destruct (Patch.queue p); discriminate.
  - rewrite <- E. unfold Patch.drain. rewrite fold_left_app. reflexivity.
Qed.

(** C5. [createConnection] returns false and leaves the patch as it is when
    [src], [sink] or the patch pointer is null. Otherwise, on the engine
    state [e] that the pending mutations leave, the first engine call is the
    connectability check and the returned boolean is its answer; if the
    answer is no, no further call is made and the engine canvas, with its
    connections, is the one the check saw; if it is yes, the calls that
    follow are [setCurrent] and one [libpd_createconnection] from outlet
    [nout] of the object of [src] to inlet [nin] of the object of [sink],
    and the engine canvas is what these two calls make of the one the check
    saw. *)
Theorem createConnection_checks_first (src : option Patch.Object) (nout : Z)
    (sink : option Patch.Object) (nin : Z) (p : Patch.t) :
  let r := createConnection src nout sink nin p in
  (src = None \/ sink = None \/ Patch.ptr p = None -> r = (false, p))
  /\ forall s k cnv,
       src = Some s -> sink = Some k -> Patch.ptr p = Some cnv ->
       let e := drain (Patch.queue p) (cnv, Patch.calls p) in
       let check :=
         Patch.call_canconnect (pd_checkobject (fst e) s) nout (pd_checkobject (fst e) k) nin in
       let canConnect :=
         libpd_canconnect (fst e) (pd_checkobject (fst e) s) nout
                          (pd_checkobject (fst e) k) nin in
       fst r = canConnect
       /\ Patch.queue (snd r) = []
       /\ (canConnect = false ->
           Patch.calls (snd r) = snd e ++ [check]
           /\ Patch.ptr (snd r) = Some (fst e)
           /\ forall cnv', Patch.ptr (snd r) = Some cnv' -> gl_lines cnv' = gl_lines (fst e))
       /\ (canConnect = true ->
           let current := pd_effect Patch.call_setCurrent (fst e) in
           let create :=
             Patch.call_createconnection (pd_checkobject current s) nout
                                         (pd_checkobject current k) nin in
           Patch.calls (snd r) = snd e ++ [check; Patch.call_setCurrent; create]
           /\ Patch.ptr (snd r) = Some (pd_effect create current)).
Proof.
  intros r. split.
  - subst r. unfold createConnection, Patch.createConnection.
    intros [-> | [-> | ->]]; [reflexivity | |].
    + destruct src; reflexivity.
    + destruct src, sink; reflexivity.
  - intros s k cnv -> -> Hp e check canConnect.
    subst r. unfold createConnection, Patch.createConnection. rewrite Hp.
    fold drain. fold e. unfold Patch.run_createConnection, Patch.checkObject.
    fold canConnect. fold check.
    destruct canConnect eqn:E;
      unfold Patch.call, Patch.query, Patch.settled;
      cbn [negb fst snd Patch.queue Patch.calls Patch.ptr].
    + repeat split; try discriminate.
      cbv zeta. rewrite <- !app_assoc. reflexivity.
    + repeat split; try discriminate.
      intros cnv' [= <-]. reflexivity.
Qed.

End CreateConnection.

(** ** The key handler (C9) *)

Section MoveClosure.

Variable pd_checkobject : t_canvas -> t_gobj -> voidp.
Variable pd_effect : Patch.pd_call -> t_canvas -> t_canvas.

Lemma replay_app (cs1 cs2 : list Patch.pd_call) (cnv : t_canvas) :
  replay pd_effect (cs1 ++ cs2) cnv = replay pd_effect cs2 (replay pd_effect cs1 cnv).
Proof. unfold replay. apply fold_left_app. Qed.

Lemma select_loop_calls (objects : list (option Patch.Object)) :
  forall e : Patch.engine,
    fold_left (fun (e : Patch.engine) (obj : option Patch.Object) =>
                 match obj with
                 | None => e
                 | Some o => Patch.call pd_effect
                               (Patch.call_select (Patch.checkObject pd_checkobject e o)) e
                 end) objects e
    = (replay pd_effect (select_calls pd_checkobject pd_effect objects (fst e)) (fst e),
       snd e ++ select_calls pd_checkobject pd_effect objects (fst e)).
Proof.
  induction objects as [| [o |] objects IH]; intros e; cbn [fold_left select_calls].
  - rewrite app_nil_r. destruct e; reflexivity.
  - rewrite IH. unfold Patch.call, Patch.checkObject. cbn [fst snd].
    rewrite <- app_assoc. reflexivity.
  - apply IH.
Qed.

(** The closure of [moveObjects] makes the calls of [move_calls], in this
    order, and no other. *)
Lemma run_moveObjects_calls (objects : list (option Patch.Object)) (dx dy : Z)
    (e : Patch.engine) :
  Patch.run_moveObjects pd_checkobject pd_effect objects dx dy e
  = (replay pd_effect (move_calls pd_checkobject pd_effect objects dx dy (fst e)) (fst e),
     snd e ++ move_calls pd_checkobject pd_effect objects dx dy (fst e)).
Proof.
  unfold Patch.run_moveObjects, move_calls. rewrite select_loop_calls.
  unfold Patch.call. cbn [fst snd]. rewrite !replay_app.
  f_equal. rewrite <- !app_assoc. reflexivity.
Qed.

Lemma select_calls_not_null (objects : list (option Patch.Object)) :
  forall cnv,
    select_calls pd_checkobject pd_effect objects cnv
    = select_calls pd_checkobject pd_effect (map Some (not_null objects)) cnv.
Proof.
  induction objects as [| [o |] objects IH]; intros cnv; cbn; [reflexivity | | apply IH].
  f_equal. apply IH.
Qed.

Lemma select_calls_length (objects : list (option Patch.Object)) :
  forall cnv,
    length (select_calls pd_checkobject pd_effect objects cnv) = length (not_null objects).
Proof.
  induction objects as [| [o |] objects IH]; intros cnv; cbn; [reflexivity | | apply IH].
  f_equal. apply IH.
Qed.

Lemma select_calls_steady (objects : list (option Patch.Object)) :
  (forall c c' o, pd_checkobject c o = pd_checkobject c' o) ->
  forall cnv,
    select_calls pd_checkobject pd_effect objects cnv
    = map (fun o => Patch.call_select (pd_checkobject cnv o)) (not_null objects).
Proof.
  intros H. induction objects as [| [o |] objects IH]; intros cnv; cbn;
    [reflexivity | | apply IH].
  f_equal. rewrite IH. apply map_ext. intros a. f_equal. apply H.
Qed.

End MoveClosure.

Section KeyHandler.

Variable libpd_canconnect : t_canvas -> voidp -> Z -> voidp -> Z -> bool.
Variable pd_checkobject : t_canvas -> t_gobj -> voidp.
Variable pd_effect : Patch.pd_call -> t_canvas -> t_canvas.
Variable keys : KeyCodes.
Hypothesis keys_distinct : distinct_keys keys.

Let handler := keyPressed pd_effect keys.
Let drain := Patch.drain libpd_canconnect pd_checkobject pd_effect.

Lemma keys_pairwise_distinct :
  let ks := (leftKey keys, rightKey keys, upKey keys, downKey keys) in
  leftKey keys <> rightKey keys /\ leftKey keys <> upKey keys /\ leftKey keys <> downKey keys
  /\ rightKey keys <> upKey keys /\ rightKey keys <> downKey keys
  /\ upKey keys <> downKey keys
  /\ forall k, In k (ignored_keys keys) -> ~ In k (arrow_keys keys).
Proof.
  unfold distinct_keys in keys_distinct. unfold ignored_keys, arrow_keys.
  repeat match goal with
         | H : NoDup (_ :: _) |- _ => inversion H; clear H; subst
         end.
  simpl in *. intuition congruence.
Qed.

Ltac decide_keys :=
  repeat match goal with
         | |- context [?a =? ?b] => destruct (Z.eqb_spec a b); try congruence
         end;
  cbn [orb]; try reflexivity; try (exfalso; intuition congruence).

(** C9, amended. On a canvas that is not the current one, or is a graph,
    the handler does nothing and consumes nothing. Otherwise an arrow key
    is consumed and queues one [moveObjects] of the selected boxes' objects
    by ten units in its direction; backspace, page-up, page-down, home,
    escape, delete, return and tab are not consumed and reach nothing: no
    engine call is made and nothing is queued; every other key is sent to
    the engine through [Patch::keyPress] and is not consumed either.

    One press of an arrow key is one step to undo: when the queue is
    served, the closure of the press comes after those queued before it and
    makes these engine calls and no other: the selection of the engine is
    emptied, every selected box's own object is selected, the whole
    selection is moved by exactly one [libpd_moveselection], the selection
    is emptied again and [canvas_undo_already_set_move] is reset. *)
Theorem keyPressed_dispatch (isCurrent : bool) (keycode : Z) (shiftDown : bool)
    (cv : Canvas) (p : Patch.t) :
  (isCurrent = false \/ isGraph cv = true ->
   handler isCurrent keycode shiftDown cv p = Done (false, p))
  /\ (isCurrent = true -> isGraph cv = false ->
      let selection := map getPointer (getSelectionOfType_Box cv) in
      let moved dx dy :=
        Done (true, Patch.enqueueFunction (Patch.moveObjects_fn selection dx dy) p) in
      (keycode = leftKey keys -> handler isCurrent keycode shiftDown cv p = moved (-10) 0)
      /\ (keycode = rightKey keys -> handler isCurrent keycode shiftDown cv p = moved 10 0)
      /\ (keycode = upKey keys -> handler isCurrent keycode shiftDown cv p = moved 0 (-10))
      /\ (keycode = downKey keys -> handler isCurrent keycode shiftDown cv p = moved 0 10)
      /\ (In keycode (ignored_keys keys) ->
          handler isCurrent keycode shiftDown cv p = Done (false, p))
      /\ (~ In keycode (arrow_keys keys) -> ~ In keycode (ignored_keys keys) ->
          handler isCurrent keycode shiftDown cv p
          = (p' <- Patch.keyPress pd_effect keycode shiftDown p ;; Done (false, p')))
      /\ (forall dx dy cnv,
            Patch.ptr p = Some cnv ->
            let p' := Patch.enqueueFunction (Patch.moveObjects_fn selection dx dy) p in
            let e := drain (Patch.queue p) (cnv, Patch.calls p) in
            let opening := [Patch.call_setCurrent; Patch.call_noselect] in
            let selects :=
              select_calls pd_checkobject pd_effect selection
                (replay pd_effect opening (fst e)) in
            let move :=
              opening ++ selects
              ++ [Patch.call_moveselection dx dy; Patch.call_noselect;
                  Patch.call_reset_undo_move; Patch.call_setCurrent] in
            drain (Patch.queue p') (cnv, Patch.calls p')
            = (replay pd_effect move (fst e), snd e ++ move)
            /\ length selects = length (not_null selection)
            /\ Forall (fun c => exists obj, c = Patch.call_select obj) selects
            /\ ((forall c c' o, pd_checkobject c o = pd_checkobject c' o) ->
                selects
                = map (fun o => Patch.call_select (pd_checkobject cnv o))
                      (not_null selection)))).
Proof.
  pose proof keys_pairwise_distinct as (Hlr & Hlu & Hld & Hru & Hrd & Hud & Hig).
  unfold handler, keyPressed, moveSelection, Patch.moveObjects. split.
  - intros [-> | ->]; [reflexivity |]. rewrite orb_true_r. reflexivity.
  - intros -> ->. cbn [negb orb].
    repeat match goal with |- _ /\ _ => split end.
    + intros ->. rewrite Z.eqb_refl. reflexivity.
    + intros ->. decide_keys.
    + intros ->. decide_keys.
    + intros ->. decide_keys.
    + intros Hin. pose proof (Hig _ Hin) as Hna. unfold arrow_keys, ignored_keys in *.
      simpl in Hin, Hna. decide_keys.
    + intros Hna Hni. unfold arrow_keys, ignored_keys in *. simpl in Hna, Hni.
      decide_keys.
    + intros dx dy cnv Hp.
      repeat match goal with |- _ /\ _ => split end.
      * unfold drain, Patch.drain, Patch.enqueueFunction.
        cbn [Patch.queue Patch.calls]. rewrite fold_left_app. cbn [fold_left Patch.run].
        apply run_moveObjects_calls.
      * apply select_calls_length.
      * match goal with
        | |- Forall _ (select_calls _ _ ?objs ?c) =>
            generalize c; induction objs as [| [o |] l IH]; intros c';
            cbn [select_calls]; [constructor | | apply IH]
        end.
        constructor; [eauto | apply IH].
      * intros H. rewrite (select_calls_steady _ _ _ H).
        apply map_ext. intros a. f_equal. apply H.
Qed.

End KeyHandler.

(** ** The properties on the sample patch *)

Lemma getIndex_position_witness :
  (exists n : nat,
     Patch.getIndex sample_patch (Some 3%nat) = Z.of_nat n
     /\ nth_error (Patch.getObjects (Some sample_patch) false) n = Some 3%nat
     /\ forall m, (m < n)%nat ->
          nth_error (Patch.getObjects (Some sample_patch) false) m <> Some 3%nat)
  /\ Patch.getIndex sample_patch (Some 9%nat) = -1.
Proof.
  split.
  - apply (proj1 (getIndex_position sample_patch (Some 3%nat)) 3%nat eq_refl).
    simpl. auto.
  - apply (proj2 (getIndex_position sample_patch (Some 9%nat))).
    intros g [= <-]. simpl. intros [H | [H | [H | []]]]; discriminate H.
Defined.

Lemma synchronise_clears_selection_witness :
  exists cv',
    synchronise sort_stable true sample_patch sample_canvas = Done cv'
    /\ selectedComponents cv' = [].
Proof.
  eexists. split.
  - vm_compute. reflexivity.
  - apply (synchronise_clears_selection sort_stable true sample_patch sample_canvas).
    vm_compute. reflexivity.
Defined.

(** C4 as stated fails: the box of object 1 is selected, object 1 is live
    and keeps its box, and after synchronise the box is not selected. *)
Lemma selection_not_preserved :
  exists cv',
    synchronise sort_stable true sample_patch sample_canvas = Done cv'
    /\ In 100%nat (selectedComponents sample_canvas)
    /\ endpoint_live (Patch.getObjects (Some sample_patch) false) (boxes cv') 100
    /\ ~ In 100%nat (selectedComponents cv').
Proof.
  eexists. split; [vm_compute; reflexivity |]. split; [left; reflexivity |]. split.
  - eexists _, 1%nat. split; [vm_compute; reflexivity |]. split; [reflexivity |].
    simpl. auto.
  - simpl. tauto.
Defined.

Lemma box_without_gui_survives_witness :
  exists cv',
    synchronise sort_stable true sample_patch canvas_with_stale_box = Done cv'
    /\ In stale_box (boxes canvas_with_stale_box)
    /\ gui stale_box = false
    /\ isObjectDeprecated (Patch.getObjects (Some sample_patch) false)
         (getPointer stale_box) = true
    /\ In stale_box (boxes cv').
Proof.
  eexists. split; [vm_compute; reflexivity |].
  assert (Hin : In stale_box (boxes canvas_with_stale_box)) by (left; reflexivity).
  repeat split; auto.
  apply (proj2 (box_without_gui_survives sort_stable sort_stable_Permutation
                  true sample_patch canvas_with_stale_box _ stale_box
                  ltac:(vm_compute; reflexivity) Hin eq_refl)).
  reflexivity.
Defined.

Lemma at_most_one_box_per_object_witness :
  exists cv',
    synchronise_all sort_stable [(true, sample_patch); (false, sample_patch)] empty_canvas
    = Done cv'
    /\ (proxies 2 (boxes empty_canvas) <= 1)%nat
    /\ (proxies 2 (boxes cv') <= 1)%nat.
Proof.
  eexists. split; [vm_compute; reflexivity |]. split; [cbv; lia |].
  apply (proj2 (at_most_one_box_per_object sort_stable sort_stable_Permutation
                  [(true, sample_patch); (false, sample_patch)] empty_canvas _ 2%nat
                  ltac:(vm_compute; reflexivity))).
  cbv. lia.
Defined.

Lemma boxes_follow_engine_order_witness :
  exists cv',
    synchronise sort_stable true sample_patch canvas_with_two_blank_boxes = Done cv'
    /\ StronglySorted
         (fun a b => (position (Patch.getObjects (Some sample_patch) false) a
                      <= position (Patch.getObjects (Some sample_patch) false) b)%nat)
         (boxes cv').
Proof.
  eexists. split; [vm_compute; reflexivity |].
  apply (proj1 (boxes_follow_engine_order sort_stable sort_stable_sorted
                  true sample_patch canvas_with_two_blank_boxes _
                  ltac:(vm_compute; reflexivity))).
Defined.

(** C2 as stated fails: with the [std::sort] of the GNU library, twenty
    boxes that have no engine object, and so the same key, leave
    synchronise in another order. They stood at the addresses 50 to 69 in
    this order; afterwards the three new boxes of the listed objects come
    first, as the key demands, and behind them the box at 61 stands first
    and the box at 51, which was second, last. (A GCC 12 build of the same
    call on the same keys gives the same order.) *)
Lemma resort_is_not_stable :
  map box_this (boxes canvas_with_twenty_blank_boxes) = seq 50 20
  /\ (forall b, In b (boxes canvas_with_twenty_blank_boxes) ->
        position (Patch.getObjects (Some sample_patch) false) b = 3%nat)
  /\ exists cv',
       synchronise (@libstdcxx.sort Box) true sample_patch canvas_with_twenty_blank_boxes
       = Done cv'
       /\ map box_this (boxes cv')
          = [104; 105; 106; 61; 69; 68; 67; 66; 65; 64; 63; 62; 50;
             60; 59; 58; 57; 56; 55; 54; 53; 52; 51]%nat
       /\ map (position (Patch.getObjects (Some sample_patch) false)) (boxes cv')
          = [0; 1; 2]%nat ++ repeat 3%nat 20.
Proof.
  split; [reflexivity |]. split.
  - intros b Hb. apply in_map_iff in Hb. destruct Hb as (a & <- & _). reflexivity.
  - eexists. split; [vm_compute; reflexivity |]. split; vm_compute; reflexivity.
Defined.


Lemma unresolved_sink_is_dereferenced_witness :
  synchronise sort_stable true patch_with_cord_to_info_parent empty_canvas
  = Undefined NullDereference.
Proof.
  exact (unresolved_sink_is_dereferenced sort_stable sort_stable_Permutation true).
Defined.

Lemma createConnection_checks_first_witness :
  (Patch.createConnection sample_canconnect sample_checkobject connecting_effect
     (Some 1%nat) 0 (Some 2%nat) 1 idle_patch
   = (false, {| Patch.ptr := Some sample_patch; Patch.queue := [];
                Patch.calls := [Patch.call_canconnect (Some 1%nat) 0 (Some 2%nat) 1] |})
   /\ forall cnv',
        Patch.ptr (snd (Patch.createConnection sample_canconnect sample_checkobject
                          connecting_effect (Some 1%nat) 0 (Some 2%nat) 1 idle_patch))
        = Some cnv' ->
        gl_lines cnv' = gl_lines sample_patch)
  /\ fst (Patch.createConnection sample_canconnect sample_checkobject connecting_effect
            (Some 2%nat) 0 (Some 3%nat) 0 idle_patch) = true
  /\ Patch.calls (snd (Patch.createConnection sample_canconnect sample_checkobject
                         connecting_effect (Some 2%nat) 0 (Some 3%nat) 0 idle_patch))
     = [Patch.call_canconnect (Some 2%nat) 0 (Some 3%nat) 0; Patch.call_setCurrent;
        Patch.call_createconnection (Some 2%nat) 0 (Some 3%nat) 0]
  /\ option_map gl_lines
       (Patch.ptr (snd (Patch.createConnection sample_canconnect sample_checkobject
                          connecting_effect (Some 2%nat) 0 (Some 3%nat) 0 idle_patch)))
     = Some [ {| tr_ob := 1%nat; tr_outno := 0; tr_ob2 := 2%nat; tr_inno := 0 |};
              {| tr_ob := 2%nat; tr_outno := 0; tr_ob2 := 3%nat; tr_inno := 0 |} ].
Proof.
  split; [split; [reflexivity |] |].
  - destruct (proj2 (createConnection_checks_first sample_canconnect sample_checkobject
                       connecting_effect (Some 1%nat) 0 (Some 2%nat) 1 idle_patch)
                    1%nat 2%nat sample_patch eq_refl eq_refl eq_refl)
      as (_ & _ & Hno & _).
    exact (proj2 (proj2 (Hno eq_refl))).
  - destruct (proj2 (createConnection_checks_first sample_canconnect sample_checkobject
                       connecting_effect (Some 2%nat) 0 (Some 3%nat) 0 idle_patch)
                    2%nat 3%nat sample_patch eq_refl eq_refl eq_refl)
      as (Hfst & _ & _ & Hyes).
    destruct (Hyes eq_refl) as (Hcalls & Hptr).
    split; [exact Hfst |]. split; [exact Hcalls |].
    rewrite Hptr. reflexivity.
Defined.

Lemma sample_keys_distinct : distinct_keys sample_keys.
Proof.
  unfold distinct_keys, sample_keys. simpl.
  repeat (constructor; [simpl; intuition discriminate |]). constructor.
Qed.

Lemma keyPressed_dispatch_witness :
  keyPressed sample_effect sample_keys true (leftKey sample_keys) false
    sample_canvas idle_patch
  = Done (true, Patch.enqueueFunction
                  (Patch.moveObjects_fn [Some 1%nat] (-10) 0) idle_patch)
  /\ keyPressed sample_effect sample_keys true (deleteKey sample_keys) false
       sample_canvas idle_patch
     = Done (false, idle_patch)
  /\ Patch.drain sample_canconnect sample_checkobject sample_effect
       [Patch.moveObjects_fn [Some 1%nat] (-10) 0] (sample_patch, [])
     = (sample_patch,
        [Patch.call_setCurrent; Patch.call_noselect; Patch.call_select (Some 1%nat);
         Patch.call_moveselection (-10) 0; Patch.call_noselect;
         Patch.call_reset_undo_move; Patch.call_setCurrent]).
Proof.
  pose proof (proj2 (keyPressed_dispatch sample_canconnect sample_checkobject sample_effect
                       sample_keys sample_keys_distinct
                       true (leftKey sample_keys) false sample_canvas idle_patch)
                    eq_refl eq_refl) as H1.
  pose proof (proj2 (keyPressed_dispatch sample_canconnect sample_checkobject sample_effect
                       sample_keys sample_keys_distinct
                       true (deleteKey sample_keys) false sample_canvas idle_patch)
                    eq_refl eq_refl) as H2.
  split; [| split].
  - exact (proj1 H1 eq_refl).
  - apply (proj1 (proj2 (proj2 (proj2 (proj2 H2))))). simpl. tauto.
  - exact (proj1 (proj2 (proj2 (proj2 (proj2 (proj2 (proj2 H1)))))
                    (-10) 0 sample_patch eq_refl)).
Defined.

(** C9 as stated fails: backspace on the current canvas is not consumed and
    is not passed on either; the patch sees no call. A key that is passed
    on, such as the letter A (65), shows as a [call_key]. *)
Lemma backspace_is_not_forwarded :
  keyPressed sample_effect sample_keys true (backspaceKey sample_keys) false
    sample_canvas idle_patch
  = Done (false, idle_patch)
  /\ Patch.calls idle_patch = []
  /\ exists p',
       keyPressed sample_effect sample_keys true 65 false sample_canvas idle_patch
       = Done (false, p')
       /\ Patch.calls p' = [Patch.call_key 65 false].
Proof.
  split; [reflexivity |]. split; [reflexivity |].
  eexists. split; reflexivity.
Defined.

Lemma sample_canvas_unique : unique_boxes (boxes sample_canvas).
Proof.
  intros o. unfold proxies, sample_canvas, sample_box, points_to. cbn [boxes filter getPointer].
  destruct (Nat.eqb_spec 1 o), (Nat.eqb_spec 2 o), (Nat.eqb_spec 3 o);
    subst; simpl; try lia; discriminate.
Qed.

Lemma synchronise_idempotent_witness :
  exists cv1 cv2,
    synchronise sort_stable true sample_patch sample_canvas = Done cv1
    /\ synchronise sort_stable true sample_patch cv1 = Done cv2
    /\ Permutation (boxes cv1) (boxes cv2)
    /\ connections cv2 = connections cv1
    /\ heap_next cv2 = heap_next cv1.
Proof.
  destruct (synchronise_idempotent sort_stable sort_stable_Permutation sort_stable_sorted
              true sample_patch sample_canvas
              ltac:(vm_compute; repeat constructor; simpl; intuition lia)
              sample_canvas_unique
              ltac:(constructor; [right; right; simpl; intuition lia | constructor])
              ltac:(vm_compute; repeat constructor; simpl; intuition lia)
              ltac:(repeat constructor; simpl; auto; lia))
    as (cv1 & cv2 & H1 & H2 & Hp & _ & _ & Hc & Hn).
  exists cv1, cv2. auto.
Defined.

(** The scenario of the specification: the engine lists three objects and
    one cord; a first synchronise of an empty canvas shows three boxes in
    the engine's order and one connection, from the box of the cord's
    source to the box of its sink. *)
Example synchronise_shows_sample_patch :
  exists cv',
    synchronise sort_stable true sample_patch empty_canvas = Done cv'
    /\ map getPointer (boxes cv') = [Some 1; Some 2; Some 3]%nat
    /\ map (fun c => (outbox c, outIdx c, inbox c, inIdx c)) (connections cv')
       = [(100%nat, 0, 101%nat, 0)]
    /\ map box_this (boxes cv') = [100; 101; 102]%nat.
Proof. eexists. repeat split; vm_compute; reflexivity. Qed.

(** * Further properties

    Properties of further functions of the three files, and of the
    accessor and of synchronise beside those of the specification. *)

(** ** The accessor: indices and connections *)

(** X1. [getIndex] inverts the object list: on a chain without
    repetition, the object that [getObjects()] lists at place [n] has index
    [n]. *)
Theorem getIndex_of_listed_object (cnv : t_canvas) (n : nat) (o : t_gobj) :
  NoDup (gl_list cnv) ->
  nth_error (Patch.getObjects (Some cnv) false) n = Some o ->
  Patch.getIndex cnv (Some o) = Z.of_nat n.
Proof.
  intros Hnd Hn.
  assert (Ho : In o (Patch.getObjects (Some cnv) false)) by (eapply nth_error_In; eauto).
  destruct (getIndex_listed cnv o Ho) as [-> _].
  f_equal. apply find_offset_nth; auto.
  apply NoDup_filter. exact Hnd.
Qed.

(** X2. [getIndex] stays between -1 and the number of listed objects,
    and it is -1 exactly for what [getObjects()] does not list: the null
    pointer, the info parent, an object of another canvas. *)
Theorem getIndex_missing_object (cnv : t_canvas) (obj : voidp) :
  -1 <= Patch.getIndex cnv obj < size (Patch.getObjects (Some cnv) false)
  /\ (Patch.getIndex cnv obj = -1
      <-> forall o, obj = Some o -> ~ In o (Patch.getObjects (Some cnv) false)).
Proof.
  split; [apply getIndex_range |].
  unfold Patch.getIndex. rewrite getIndex_loop_offset.
  fold (Patch.getObjects (Some cnv) false).
  set (objects := Patch.getObjects (Some cnv) false).
  destruct (Nat.ltb_spec (find_offset obj objects) (length objects)) as [Hlt | Hge].
  - split; [lia |].
    intros Hno. apply find_offset_lt_In in Hlt. destruct Hlt as (g & -> & Hin).
    exfalso. exact (Hno g eq_refl Hin).
  - split; [| reflexivity].
    intros _ o -> Hin.
    assert ((find_offset (Some o) objects < length objects)%nat)
      by (apply find_offset_lt_In; eauto).
    lia.
Qed.

(** X3. [getConnections] reports exactly the cords that the engine's
    [canvas_isconnected], the cross-check of synchronise, confirms: a
    tuple [{inno, source, outno, sink}] is reported if and only if outlet
    [outno] of the source is connected to inlet [inno] of the sink. *)
Theorem getConnections_isconnected (cnv : t_canvas) (inno : Z) (inobj : t_gobj)
    (outno : Z) (outobj : t_gobj) :
  In (inno, inobj, outno, outobj) (Patch.getConnections cnv)
  <-> canvas_isconnected cnv (Some inobj) outno (Some outobj) inno = true.
Proof.
  unfold Patch.getConnections. rewrite in_map_iff. split.
  - intros (t & Ht & Hin). inversion Ht; subst.
    apply canvas_isconnected_cord. exact Hin.
  - intros H. apply canvas_isconnected_true in H.
    destruct H as (t & Hin & H1 & H2 & H3 & H4).
    exists t. split; [| exact Hin]. congruence.
Qed.
(** ** The two index functions of the accessor *)

Lemma glist_getindex_loop_offset (y2 : list t_gobj) (y : voidp) (indx : Z) :
  PatchMore.glist_getindex_loop y2 y indx = indx + Z.of_nat (find_offset y y2).
Proof.
  revert indx. induction y2 as [| g rest IH]; intros indx;
    cbn [PatchMore.glist_getindex_loop find_offset]; [lia |].
  replace (voidp_eqb (Some g) y) with (voidp_eqb y (Some g)).
  - destruct (voidp_eqb y (Some g)); [lia |]. rewrite IH. lia.
  - destruct y as [o |]; cbn [voidp_eqb]; [apply Nat.eqb_sym | reflexivity].
Qed.

Lemma getIndex_loop_firstn (cnv : t_canvas) (o : t_gobj) (y : list t_gobj) :
  forall i,
    In o y ->
    isInfoParent cnv o = false ->
    Patch.getIndex_loop cnv (Some o) y i
    = i + Z.of_nat (find_offset (Some o) y)
      - Z.of_nat (length (filter (isInfoParent cnv) (firstn (find_offset (Some o) y) y))).
Proof.
  induction y as [| g rest IH]; intros i Hin Hinfo; [destruct Hin |].
  cbn [Patch.getIndex_loop find_offset].
  destruct (isInfoParent cnv g) eqn:Eg.
  - assert (Hne : voidp_eqb (Some o) (Some g) = false).
    { cbn [voidp_eqb]. apply Nat.eqb_neq. intros ->. congruence. }
    rewrite Hne. cbn [firstn filter]. rewrite Eg. cbn [length].
    destruct Hin as [-> | Hin]; [congruence |].
    rewrite (IH i Hin Hinfo). lia.
  - destruct (voidp_eqb (Some o) (Some g)) eqn:E.
    + cbn [firstn filter length]. lia.
    + cbn [firstn filter]. rewrite Eg.
      destruct Hin as [-> | Hin].
      { cbn [voidp_eqb] in E. rewrite Nat.eqb_refl in E. discriminate. }
      rewrite (IH (i + 1) Hin Hinfo). lia.
Qed.

Lemma getIndex_not_listed (cnv : t_canvas) (o : t_gobj) :
  ~ In o (Patch.getObjects (Some cnv) false) -> Patch.getIndex cnv (Some o) = -1.
Proof.
  intros Hn. unfold Patch.getIndex. rewrite getIndex_loop_offset.
  fold (Patch.getObjects (Some cnv) false).
  destruct (Nat.ltb_spec (find_offset (Some o) (Patch.getObjects (Some cnv) false))
                         (length (Patch.getObjects (Some cnv) false))) as [Hlt | _];
    [| reflexivity].
  apply find_offset_lt_In in Hlt. destruct Hlt as (g & [= <-] & Hg). contradiction.
Qed.

(** X4. [glist_getindex] counts every object in front of the one asked
    for, [getIndex] skips the info parents. For an object on the chain that
    is not the info parent the two differ by the number of info parents in
    front of it; for the info parent itself the first returns its place on
    the chain and the second -1; for an object that is not on the chain the
    first returns the length of the chain and the second -1. *)
Theorem glist_getindex_and_getIndex (cnv : t_canvas) (o : t_gobj) :
  let indx := PatchMore.glist_getindex cnv (Some o) in
  (In o (gl_list cnv) -> isInfoParent cnv o = false ->
   Patch.getIndex cnv (Some o)
   = indx - Z.of_nat (length (filter (isInfoParent cnv)
                                     (firstn (Z.to_nat indx) (gl_list cnv)))))
  /\ (In o (gl_list cnv) -> isInfoParent cnv o = true ->
      nth_error (gl_list cnv) (Z.to_nat indx) = Some o
      /\ 0 <= indx < Z.of_nat (length (gl_list cnv))
      /\ (forall m, (m < Z.to_nat indx)%nat -> nth_error (gl_list cnv) m <> Some o)
      /\ Patch.getIndex cnv (Some o) = -1)
  /\ (~ In o (gl_list cnv) ->
      indx = Z.of_nat (length (gl_list cnv)) /\ Patch.getIndex cnv (Some o) = -1).
Proof.
  intros indx. subst indx. unfold PatchMore.glist_getindex.
  rewrite glist_getindex_loop_offset. cbn [Z.add]. rewrite Nat2Z.id.
  split; [| split].
  - intros Hin Hinfo. unfold Patch.getIndex.
    rewrite (getIndex_loop_firstn cnv o _ 0 Hin Hinfo). lia.
  - intros Hin Hinfo. destruct (find_offset_In o (gl_list cnv) Hin) as (Hnth & Hfirst).
    split; [exact Hnth |]. split; [| split; [exact Hfirst |]].
    + assert (Hlt : (find_offset (Some o) (gl_list cnv) < length (gl_list cnv))%nat)
        by (apply find_offset_lt_In; eauto).
      lia.
    + apply getIndex_not_listed. unfold Patch.getObjects. intros Hg.
      apply filter_In in Hg. destruct Hg as (_ & Hg). rewrite Hinfo in Hg. discriminate.
  - intros Hn. split.
    + f_equal. pose proof (find_offset_le (Some o) (gl_list cnv)) as Hle.
      destruct (Nat.eq_dec (find_offset (Some o) (gl_list cnv)) (length (gl_list cnv)))
        as [E | Hne]; [exact E |].
      exfalso. apply Hn.
      assert (Hlt : (find_offset (Some o) (gl_list cnv) < length (gl_list cnv))%nat) by lia.
      apply find_offset_lt_In in Hlt. destruct Hlt as (g & [= <-] & Hg). exact Hg.
    + apply getIndex_not_listed. unfold Patch.getObjects. intros Hg.
      apply filter_In in Hg. tauto.
Qed.


(** ** canConnect and createConnection; moveObjects *)

Section Queries.

Variable libpd_canconnect : t_canvas -> voidp -> Z -> voidp -> Z -> bool.
Variable pd_checkobject : t_canvas -> t_gobj -> voidp.
Variable pd_effect : Patch.pd_call -> t_canvas -> t_canvas.

Let canConnect := PatchMore.canConnect libpd_canconnect pd_checkobject pd_effect.
Let createConnection := Patch.createConnection libpd_canconnect pd_checkobject pd_effect.
Let run_moveObjects := Patch.run_moveObjects pd_checkobject pd_effect.

(** X5. [canConnect] answers what [createConnection] would return in the
    same state, and since it leaves the canvas of the engine as it is, the
    [createConnection] that follows it returns that answer. *)
Theorem canConnect_predicts_createConnection (src : option Patch.Object) (nout : Z)
    (sink : option Patch.Object) (nin : Z) (p p' : Patch.t) (answer : bool) :
  canConnect src nout sink nin p = Done (answer, p') ->
  fst (createConnection src nout sink nin p) = answer
  /\ fst (createConnection src nout sink nin p') = answer
  /\ Patch.queue p' = []
  /\ exists cnv,
       Patch.ptr p = Some cnv
       /\ Patch.ptr p'
          = Some (fst (Patch.drain libpd_canconnect pd_checkobject pd_effect
                         (Patch.queue p) (cnv, Patch.calls p))).
Proof.
  unfold canConnect, createConnection, PatchMore.canConnect, Patch.createConnection.
  destruct src as [s |], sink as [k |], (Patch.ptr p) as [cnv |]; try discriminate.
  intros H. injection H as <- <-.
  set (e := Patch.drain _ _ _ (Patch.queue p) (cnv, Patch.calls p)).
  unfold PatchMore.run_canConnect, Patch.run_createConnection, Patch.settled,
    Patch.query, Patch.checkObject, Patch.call.
  cbn [fst snd Patch.ptr Patch.queue Patch.calls Patch.drain fold_left].
  destruct (libpd_canconnect (fst e) (pd_checkobject (fst e) s) nout
                             (pd_checkobject (fst e) k) nin) eqn:E;
    cbn [negb fst snd Patch.calls]; repeat split; auto; exists cnv; auto.
Qed.

(** X6. The closure of [moveObjects] makes these engine calls, in this
    order, and no other: [setCurrent], [glist_noselect], one [glist_select]
    for every entry that is not null, in the order of the entries and each
    of that entry's own object as [checkObject] gives it, one
    [libpd_moveselection] by the given distance, [glist_noselect], the reset
    of [canvas_undo_already_set_move] and [setCurrent]; the engine canvas is
    what these calls make of it. Null entries change nothing. *)
Theorem moveObjects_engine_calls (objects : list (option Patch.Object)) (dx dy : Z)
    (e : Patch.engine) :
  let opening := [Patch.call_setCurrent; Patch.call_noselect] in
  let selects :=
    select_calls pd_checkobject pd_effect objects (replay pd_effect opening (fst e)) in
  let calls :=
    opening ++ selects
    ++ [Patch.call_moveselection dx dy; Patch.call_noselect;
        Patch.call_reset_undo_move; Patch.call_setCurrent] in
  run_moveObjects objects dx dy e = (replay pd_effect calls (fst e), snd e ++ calls)
  /\ length selects = length (not_null objects)
  /\ (forall i o,
        nth_error (not_null objects) i = Some o ->
        exists cnv',
          nth_error selects i = Some (Patch.call_select (pd_checkobject cnv' o)))
  /\ ((forall c c' o, pd_checkobject c o = pd_checkobject c' o) ->
      selects
      = map (fun o => Patch.call_select (pd_checkobject (fst e) o)) (not_null objects))
  /\ run_moveObjects (map Some (not_null objects)) dx dy e
     = run_moveObjects objects dx dy e.
Proof.
  intros opening selects calls.
  split; [apply run_moveObjects_calls |].
  split; [apply select_calls_length |].
  split; [| split].
  - unfold selects. generalize (replay pd_effect opening (fst e)).
    induction objects as [| [a |] objects IH]; intros c i o H.
    + destruct i; discriminate H.
    + destruct i as [| i]; cbn in H |- *.
      * injection H as <-. eauto.
      * apply (IH _ _ _ H).
    + apply (IH c i o H).
  - intros H. unfold selects. rewrite (select_calls_steady _ _ _ H).
    apply map_ext. intros a. f_equal. apply H.
  - unfold run_moveObjects. rewrite !run_moveObjects_calls.
    unfold move_calls. rewrite <- select_calls_not_null. reflexivity.
Qed.

End Queries.

(** ** The argument vector of createObject *)

Lemma strip_keyword_miss (keywords : list string) (symbol : string)
    (st : string * list string) :
  ~ In (PatchMore.token (snd st) 0) keywords ->
  PatchMore.strip_keyword keywords symbol st = st.
Proof.
  intros H. unfold PatchMore.strip_keyword.
  destruct (existsb _ keywords) eqn:E; [| reflexivity].
  apply existsb_exists in E. destruct E as (k & Hk & E).
  apply String.eqb_eq in E. subst k. contradiction.
Qed.

Lemma strip_keyword_step (tokens keywords : list string) (symbol : string)
    (st : string * list string) (n : nat) :
  ~ In EmptyString keywords ->
  symbol <> "obj"%string ->
  snd st = skipn n tokens ->
  (fst st = "obj"%string <-> n = 0%nat) ->
  exists m, (n <= m <= S n)%nat
            /\ snd (PatchMore.strip_keyword keywords symbol st) = skipn m tokens
            /\ (fst (PatchMore.strip_keyword keywords symbol st) = "obj"%string
                <-> m = 0%nat).
Proof.
  intros Hk Hs Hsk Hobj. unfold PatchMore.strip_keyword.
  destruct (existsb _ keywords) eqn:E.
  - exists (S n). cbn [fst snd]. split; [lia |]. split.
    + rewrite Hsk. clear. revert tokens.
      induction n as [| n IH]; intros [| t l]; cbn [skipn tl]; auto.
    + split; [congruence | discriminate].
  - exists n. split; [lia |]. split; assumption.
Qed.

Section CreateObject.

Variable addTokens : string -> list string.
Variable replace : string -> string -> string -> string.
Variable guiDefaults : string -> option string.
Variable bg fg lbl : string.

Let createObject := PatchMore.createObject addTokens replace guiDefaults bg fg lbl.
Let createObject_tokens :=
  PatchMore.createObject_tokens addTokens replace guiDefaults bg fg lbl.

(** X7. On a patch without canvas [createObject] asks for nothing. On a
    patch with one, the words are those of the name, followed by those of
    the preset that [guiDefaults] holds for the first word, with the
    colours filled in; when the first of them is neither [graph] nor one of
    the type keywords, a plain object is made and every word, the first
    included, is passed as an argument after the two coordinates. *)
Theorem createObject_plain_name (ptr : option t_canvas) (name : string) (x y : Z) :
  let words := createObject_tokens name in
  let first := PatchMore.token (addTokens name) 0 in
  (ptr = None -> createObject ptr name x y = None)
  /\ (ptr <> None ->
      ~ In (PatchMore.token words 0)
           ["graph"; "msg"; "message"; "comment"; "floatatom"; "listbox";
            "symbolatom"]%string ->
      createObject ptr name x y
      = Some (PatchMore.createobj "obj"
                (PatchMore.A_FLOAT (PatchMore.of_int x)
                 :: PatchMore.A_FLOAT (PatchMore.of_int y)
                 :: map PatchMore.atom_of_token words)))
  /\ (addTokens name <> [] -> PatchMore.token words 0 = first)
  /\ (guiDefaults first = None -> words = addTokens name)
  /\ (forall preset,
        guiDefaults first = Some preset ->
        words
        = addTokens name
          ++ addTokens
               (replace (replace (replace preset "bgColour" ("#" ++ bg))
                                 "fgColour" ("#" ++ fg))
                        "lblColour" ("#" ++ lbl))).
Proof.
  intros words first. subst words first.
  unfold createObject, createObject_tokens, PatchMore.createObject,
    PatchMore.createObject_tokens.
  split; [intros ->; reflexivity |]. split; [| split; [| split]].
  - intros Hptr H. destruct ptr as [cnv |]; [| contradiction]. f_equal.
    set (words := match guiDefaults _ with Some _ => _ | None => _ end) in *.
    unfold PatchMore.createObject_request.
    destruct (String.eqb_spec (PatchMore.token words 0) "graph") as [E | _].
    { exfalso. apply H. left. auto. }
    cbn [andb]. unfold PatchMore.type_and_arguments.
    repeat (rewrite (strip_keyword_miss _ _ ("obj"%string, words));
            [| cbn [snd]; intros Hin; apply H; cbn [In] in *; intuition]).
    reflexivity.
  - intros Hne. destruct (guiDefaults _); [| reflexivity].
    destruct (addTokens name); [contradiction | reflexivity].
  - intros ->. reflexivity.
  - intros preset ->. reflexivity.
Qed.

(** X8. Of the words that make an object which is not a graph -- those of
    the name and then those of its preset -- at most the first five are
    taken as type keywords and the rest are the arguments, in their order;
    the type is [obj] exactly when no word is taken, and there are two more
    atoms than arguments. *)
Theorem createObject_type_keywords (cnv : t_canvas) (name : string) (x y : Z) :
  let words := createObject_tokens name in
  PatchMore.token words 0 <> "graph"%string ->
  exists typesymbol n,
    createObject (Some cnv) name x y
    = Some (PatchMore.createobj typesymbol
              (PatchMore.A_FLOAT (PatchMore.of_int x)
               :: PatchMore.A_FLOAT (PatchMore.of_int y)
               :: map PatchMore.atom_of_token (skipn n words)))
    /\ (n <= 5)%nat
    /\ (typesymbol = "obj"%string <-> n = 0%nat).
Proof.
  intros words Hg. unfold createObject, PatchMore.createObject.
  fold createObject_tokens. fold words. unfold PatchMore.createObject_request.
  destruct (String.eqb_spec (PatchMore.token words 0) "graph") as [E | _]; [contradiction |].
  cbn [andb]. unfold PatchMore.type_and_arguments.
  destruct (strip_keyword_step words ["msg"; "message"]%string "msg"
              ("obj"%string, words) 0) as (n1 & L1 & S1 & O1);
    [cbn [In]; intuition discriminate | discriminate | reflexivity | tauto |].
  destruct (strip_keyword_step words ["comment"]%string "text" _ n1
              ltac:(cbn [In]; intuition discriminate) ltac:(discriminate) S1 O1)
    as (n2 & L2 & S2 & O2).
  destruct (strip_keyword_step words ["floatatom"]%string "floatatom" _ n2
              ltac:(cbn [In]; intuition discriminate) ltac:(discriminate) S2 O2)
    as (n3 & L3 & S3 & O3).
  destruct (strip_keyword_step words ["listbox"]%string "listbox" _ n3
              ltac:(cbn [In]; intuition discriminate) ltac:(discriminate) S3 O3)
    as (n4 & L4 & S4 & O4).
  destruct (strip_keyword_step words ["symbolatom"]%string "symbolatom" _ n4
              ltac:(cbn [In]; intuition discriminate) ltac:(discriminate) S4 O4)
    as (n5 & L5 & S5 & O5).
  destruct (PatchMore.strip_keyword ["symbolatom"%string] _ _) as [typesymbol rest].
  cbn [fst snd] in S5, O5. subst rest.
  exists typesymbol, n5. split; [reflexivity |]. split; [lia | exact O5].
Qed.

End CreateObject.




(** ** What synchronise shows *)

Lemma connect_console (cnv : t_canvas) (bs : list Box) (st st' : list Connection * nat * list string)
    (connection : Z * t_gobj * Z * t_gobj) :
  connect cnv bs st connection = Done st' ->
  (snd st' = snd st /\ (length (fst (fst st)) <= length (fst (fst st')))%nat)
  \/ (snd st' = snd st ++ [impossible_connection] /\ fst (fst st') = fst (fst st)).
Proof.
  destruct st as [[cs next] log], st' as [[cs' next'] log'].
  destruct connection as [[[inno inobj] outno] outobj].
  unfold connect. intros H. cbn [fst snd].
  destruct (_ || _) eqn:G1; [injection H as <- <- <-; auto |].
  apply bind_Done_inv in H. destruct H as (srcEdges & Hsrc & H).
  destruct (outno >=? size srcEdges) eqn:G2; [injection H as <- <- <-; auto |].
  apply bind_Done_inv in H. destruct H as (sinkEdges & Hsink & H).
  destruct (inno >=? size sinkEdges) eqn:G3; [injection H as <- <- <-; auto |].
  destruct (at_index bs (Patch.getIndex cnv (Some inobj))) as [srcBox |]; [| discriminate].
  destruct (at_index bs (Patch.getIndex cnv (Some outobj))) as [sinkBox |]; [| discriminate].
  destruct (existsb _ cs) eqn:Ex; [injection H as <- <- <-; auto |].
  apply bind_Done_inv in H. destruct H as (c & Hc & H). injection H as <- <- <-.
  left. split; [reflexivity |]. rewrite length_app. lia.
Qed.

Lemma connect_all_console (cnv : t_canvas) (bs : list Box) (pdConnections : Patch.Connections) :
  forall st st',
    connect_all cnv bs st pdConnections = Done st' ->
    exists k, snd st' = snd st ++ repeat impossible_connection k
              /\ (k <= length pdConnections)%nat.
Proof.
  induction pdConnections as [| connection rest IH]; intros st st' H.
  - injection H as <-. exists 0%nat. cbn [repeat]. rewrite app_nil_r. auto.
  - cbn [connect_all] in H. apply bind_Done_inv in H. destruct H as (st1 & H1 & H).
    destruct (IH _ _ H) as (k & Hk & Hle).
    destruct (connect_console _ _ _ _ _ H1) as [[E _] | [E _]].
    + exists k. rewrite Hk, E. split; [reflexivity | cbn [length]; lia].
    + exists (S k). rewrite Hk, E, <- app_assoc. split; [| cbn [length]; lia].
      reflexivity.
Qed.

Section Shown.

Variable std_sort : (Box -> Box -> bool) -> list Box -> list Box.

Hypothesis std_sort_Permutation :
  forall before l, Permutation l (std_sort before l).
Hypothesis std_sort_ordered :
  forall (key : Box -> nat) l,
    StronglySorted (fun a b => (key a <= key b)%nat)
                   (std_sort (fun a b => Nat.ltb (key a) (key b)) l).

(** X9. After synchronise every object that the engine lists has a box,
    and exactly one if no object had two boxes before. *)
Theorem every_listed_object_has_a_box (upd : bool) (cnv : t_canvas) (cv cv' : Canvas)
    (o : t_gobj) :
  synchronise std_sort upd cnv cv = Done cv' ->
  In o (Patch.getObjects (Some cnv) false) ->
  (1 <= proxies o (boxes cv'))%nat
  /\ ((proxies o (boxes cv) <= 1)%nat -> proxies o (boxes cv') = 1%nat).
Proof.
  intros H Ho.
  destruct (synchronise_covers std_sort std_sort_Permutation upd cnv cv cv' H o Ho)
    as (b & Hb & Hp).
  pose proof (proxies_In o _ b Hb Hp) as H1.
  pose proof (synchronise_proxies std_sort std_sort_Permutation upd cnv cv cv' o H) as H2.
  split; [exact H1 |]. intros Hu.
  rewrite Nat.max_l in H2 by exact Hu. lia.
Qed.

(** X12. After synchronise every box with a widget stands for an object
    that the engine lists. *)
Theorem widget_box_stands_for_listed_object (upd : bool) (cnv : t_canvas)
    (cv cv' : Canvas) (b : Box) :
  synchronise std_sort upd cnv cv = Done cv' ->
  In b (boxes cv') ->
  gui b = true ->
  exists o, getPointer b = Some o /\ In o (Patch.getObjects (Some cnv) false).
Proof.
  intros H Hb Hg.
  destruct (synchronise_boxes_In std_sort std_sort_Permutation upd cnv cv cv' b H Hb)
    as [(b0 & Hb0 & Hkeep & Hev) | (next2 & (o & a & Ho & _ & ->) & _)].
  - destruct (evolves_identity _ _ _ _ _ Hev) as (_ & Hp & Hg').
    rewrite Hp. destruct Hkeep as [Hk | Hk]; [congruence |].
    apply isObjectDeprecated_false. exact Hk.
  - exists o. split; [apply new_Box_fields | exact Ho].
Qed.

(** X11. A box with a widget whose object the engine no longer lists is
    destroyed by synchronise: a box that is at its address afterwards is
    one that this run has made anew, for an object that the engine lists,
    and is not the proxy of the deleted object. *)
Theorem widget_box_of_deleted_object_is_removed (upd : bool) (cnv : t_canvas)
    (cv cv' : Canvas) (b : Box) :
  synchronise std_sort upd cnv cv = Done cv' ->
  NoDup (map box_this (boxes cv)) ->
  In b (boxes cv) ->
  gui b = true ->
  isObjectDeprecated (Patch.getObjects (Some cnv) false) (getPointer b) = true ->
  forall b',
    In b' (boxes cv') -> box_this b' = box_this b ->
    getPointer b' <> getPointer b
    /\ exists o, In o (Patch.getObjects (Some cnv) false)
                 /\ b' = new_Box cnv o (box_this b).
Proof.
  intros H Hnd Hb Hg Hdep b' Hb' Heq.
  destruct (synchronise_boxes_In std_sort std_sort_Permutation upd cnv cv cv' b' H Hb')
    as [(b0 & Hb0 & Hkeep & Hev) | (next2 & (o & a & Ho & Ha & ->) & _)].
  - destruct (evolves_identity _ _ _ _ _ Hev) as (Ht & _ & _).
    assert (b0 = b) by (eapply NoDup_map_injective; eauto; congruence).
    subst b0. destruct Hkeep; congruence.
  - destruct (new_Box_fields cnv o a) as (Ht & Hp & _). rewrite Ht in Heq. subst a.
    split; [| eauto].
    rewrite Hp. intros E. symmetry in E.
    apply (proj1 (isObjectDeprecated_true _ _) Hdep o E Ho).
Qed.

(** X15. On a graph and in presentation mode synchronise always
    completes, and it leaves the connections and the console as they
    are. *)
Theorem graph_canvas_keeps_connections (upd : bool) (cnv : t_canvas) (cv : Canvas) :
  isGraph cv || presentationMode cv = true ->
  exists cv', synchronise std_sort upd cnv cv = Done cv'
              /\ connections cv' = connections cv
              /\ console cv' = console cv.
Proof.
  intros Hmode. unfold synchronise.
  cbn [deselectAll isGraph presentationMode boxes connections heap_next console
       selectedComponents].
  rewrite Hmode. cbn [negb bind].
  destruct (fold_left _ _ _) as [bs2 next2]. cbn [bind].
  eexists. repeat split; reflexivity.
Qed.

(** X16. All that synchronise prints is the line of line 240, at most
    once for each cord of the engine; what the console held stays in
    front. *)
Theorem console_grows_by_error_lines (upd : bool) (cnv : t_canvas) (cv cv' : Canvas) :
  synchronise std_sort upd cnv cv = Done cv' ->
  exists k, console cv' = console cv ++ repeat impossible_connection k
            /\ (k <= length (gl_lines cnv))%nat.
Proof.
  intros H. apply synchronise_Done in H.
  destruct H as (cs1 & bs2 & next2 & cs2 & next3 & log & _ & _ & Hc & ->).
  cbn [console].
  destruct (negb (isGraph cv || presentationMode cv)).
  - apply connect_all_console in Hc. cbn [snd] in Hc.
    destruct Hc as (k & Hk & Hle). exists k. split; [exact Hk |].
    unfold Patch.getConnections in Hle. rewrite length_map in Hle. exact Hle.
  - injection Hc as _ _ <-. exists 0%nat. cbn [repeat]. rewrite app_nil_r.
    split; [reflexivity | lia].
Qed.

(** X13. After synchronise, when no object had two boxes and the chain
    has no repetition, [boxes[getIndex(o)]] is the box of [o] for every
    listed object [o]: the lookup of lines 229-234 finds the right box. *)
Theorem box_at_index_of_object (upd : bool) (cnv : t_canvas) (cv cv' : Canvas)
    (o : t_gobj) :
  synchronise std_sort upd cnv cv = Done cv' ->
  NoDup (gl_list cnv) ->
  unique_boxes (boxes cv) ->
  In o (Patch.getObjects (Some cnv) false) ->
  exists b, at_index (boxes cv') (Patch.getIndex cnv (Some o)) = Some b
            /\ getPointer b = Some o.
Proof.
  intros H Hgl Hu Ho.
  set (objects := Patch.getObjects (Some cnv) false) in *.
  assert (Hndo : NoDup objects) by (apply NoDup_filter; exact Hgl).
  pose proof (synchronise_sorted std_sort std_sort_ordered upd cnv cv cv' H) as Hs.
  pose proof (synchronise_covers std_sort std_sort_Permutation upd cnv cv cv' H) as Hcov.
  assert (Hu' : unique_boxes (boxes cv')).
  { intros o'.
    pose proof (synchronise_proxies std_sort std_sort_Permutation upd cnv cv cv' o' H) as Hp.
    specialize (Hu o'). rewrite Nat.max_l in Hp by exact Hu. exact Hp. }
  fold objects in Hs, Hcov.
  destruct (getIndex_listed cnv o Ho) as [Hidx Hlt]. fold objects in Hidx, Hlt.
  pose proof (covered_length _ _ Hndo Hcov) as Hlen.
  set (p := find_offset (Some o) objects) in *.
  destruct (nth_error (boxes cv') p) as [b |] eqn:E; [| apply nth_error_None in E; lia].
  pose proof (sorted_boxes_aligned _ _ Hndo Hs Hcov Hu' p b E Hlt) as Hpos.
  destruct (position_listed objects b ltac:(lia)) as (o' & Hpo' & Ho').
  rewrite Hpos in Ho'.
  destruct (find_offset_In o objects Ho) as [Hnth _]. fold p in Hnth.
  assert (o' = o) by congruence. subst o'.
  exists b. split; [| exact Hpo'].
  rewrite Hidx. rewrite at_index_nonneg by lia. rewrite Nat2Z.id. exact E.
Qed.

(** X17. On a well-formed canvas in editing mode and a consistent
    engine, synchronise completes, every cord of the engine then has a
    connection between the boxes of its two objects, and every connection
    passes the test of lines 157-170. *)
Theorem every_cord_gets_a_connection (upd : bool) (cnv : t_canvas) (cv : Canvas) :
  heap_wf cv ->
  unique_boxes (boxes cv) ->
  Forall con_wf (connections cv) ->
  NoDup (gl_list cnv) ->
  cords_consistent cnv ->
  isGraph cv || presentationMode cv = false ->
  exists cv',
    synchronise std_sort upd cnv cv = Done cv'
    /\ (forall t, In t (gl_lines cnv) ->
          matched cnv (boxes cv') (connections cv') (tuple_of t))
    /\ (forall c, In c (connections cv') ->
          connection_deprecated cnv (Patch.getObjects (Some cnv) false) (boxes cv') c
          = Done false).
Proof.
  intros Hwf Hu Hc Hgl Hcords Hmode.
  destruct (synchronise_reconciles std_sort std_sort_Permutation std_sort_ordered
              upd cnv cv Hwf Hu Hc Hgl Hcords) as (cv' & Hrun & Hrec).
  exists cv'. split; [exact Hrun |].
  destruct Hrec as (_ & _ & _ & Hed).
  assert (Hmode' : isGraph cv' || presentationMode cv' = false).
  { apply synchronise_Done in Hrun.
    destruct Hrun as (? & ? & ? & ? & ? & ? & _ & _ & _ & ->). exact Hmode. }
  destruct (Hed Hmode') as [Hkeep Hall]. split; assumption.
Qed.

(** X10. synchronise keeps the box of every object that the engine
    still lists: after it a box is at the same address, with the same
    pointer and widget. *)
Theorem live_box_survives (upd : bool) (cnv : t_canvas) (cv cv' : Canvas) (b : Box) :
  synchronise std_sort upd cnv cv = Done cv' ->
  In b (boxes cv) ->
  isObjectDeprecated (Patch.getObjects (Some cnv) false) (getPointer b) = false ->
  exists b',
    In b' (boxes cv')
    /\ box_this b' = box_this b /\ getPointer b' = getPointer b /\ gui b' = gui b.
Proof.
  intros H Hb Hlive.
  destruct (synchronise_boxes std_sort upd cnv cv cv' H)
    as (kept & made & next2 & Hbs & Hev & _).
  assert (Hin : In b (clear_deleted_boxes (Patch.getObjects (Some cnv) false) (boxes cv)))
    by (apply clear_deleted_boxes_In; auto).
  destruct (Forall2_In_left _ _ _ _ Hev Hin) as (b' & Hb' & Hevb).
  exists b'. split.
  - rewrite Hbs. apply (Permutation_in _ (std_sort_Permutation _ _)).
    apply in_or_app. left. exact Hb'.
  - destruct (evolves_identity _ _ _ _ _ Hevb) as (Ht & Hp & Hg).
    repeat split; auto.
Qed.

(** X14. After synchronise on a canvas where no object has two boxes,
    every box of a listed object has been refreshed: it has the ports that
    the engine reports for the object, and its bounds when positions are
    updated. *)
Theorem boxes_show_engine_ports (upd : bool) (cnv : t_canvas) (cv cv' : Canvas)
    (b : Box) (o : t_gobj) :
  heap_wf cv ->
  unique_boxes (boxes cv) ->
  synchronise std_sort upd cnv cv = Done cv' ->
  In b (boxes cv') ->
  getPointer b = Some o ->
  In o (Patch.getObjects (Some cnv) false) ->
  numInputs b = obj_ninlets cnv o
  /\ numOutputs b = obj_noutlets cnv o
  /\ edges b = make_edges (box_this b) (obj_ninlets cnv o) (obj_noutlets cnv o)
  /\ (upd = true -> box_bounds b = obj_bounds cnv o).
Proof.
  intros Hwf Hu H Hb Hp Ho.
  apply synchronise_Done in H.
  destruct H as (cs1 & bs2 & next2 & cs2 & next3 & log & _ & Hfold & _ & ->).
  cbn [boxes] in Hb.
  destruct (box_passes_in_step std_sort std_sort_Permutation std_sort_ordered
              upd cnv cv bs2 next2 Hwf Hu Hfold) as ((_ & _ & _ & _ & Hfix) & _).
  specialize (Hfix b o Hb Ho Hp).
  destruct (up_to_date_ports cnv upd b o Hfix Hp) as [He Hn].
  split; [exact Hn |]. split; [| split; [exact He |]].
  - rewrite <- Hfix. unfold refresh_box.
    destruct upd; unfold updateBounds, updatePorts; cbn [getPointer numOutputs];
      rewrite Hp; reflexivity.
  - intros ->. rewrite <- Hfix. unfold refresh_box, updateBounds, updatePorts.
    cbn [getPointer box_bounds]. rewrite Hp. reflexivity.
Qed.

End Shown.

(** ** Presentation mode *)

Section PresentationMode.

Variable std_sort : (Box -> Box -> bool) -> list Box -> list Box.

(** X18. When presentation mode is switched on, the listener leaves the
    canvas without connections and without selection and locks it for
    commands; its synchronise completes whatever the canvas held. *)
Theorem presentation_mode_hides_connections (cnv : t_canvas) (ed : Editor) :
  presentationMode (canvas ed) = true ->
  exists ed',
    valueChanged std_sort presentationMode_value cnv ed = Done ed'
    /\ connections (canvas ed') = []
    /\ selectedComponents (canvas ed') = []
    /\ commandLocked ed' = true
    /\ presentationMode (canvas ed') = true.
Proof.
  intros Hmode. unfold valueChanged.
  cbn [deselectAll presentationMode]. rewrite Hmode.
  unfold synchronise.
  cbn [clear_connections deselectAll isGraph presentationMode boxes connections
       heap_next console selectedComponents].
  rewrite Hmode, orb_true_r. cbn [negb bind].
  destruct (fold_left _ _ _) as [bs2 next2]. cbn [bind].
  eexists. split; [reflexivity |]. cbn. auto.
Qed.

End PresentationMode.



(** ** The selection *)

Lemma isSelected_In (cv : Canvas) (c : nat) :
  isSelected cv c = true <-> In c (selectedComponents cv).
Proof.
  unfold isSelected. rewrite existsb_exists. split.
  - intros (x & Hx & E). apply Nat.eqb_eq in E. subst. exact Hx.
  - intros H. exists c. split; [exact H | apply Nat.eqb_refl].
Qed.

Lemma isSelected_ext (cv cv' : Canvas) (c : nat) :
  (In c (selectedComponents cv') <-> In c (selectedComponents cv)) ->
  isSelected cv' c = isSelected cv c.
Proof.
  intros H. destruct (isSelected cv c) eqn:E.
  - apply isSelected_In. apply H. apply isSelected_In. exact E.
  - destruct (isSelected cv' c) eqn:E'; [| reflexivity].
    apply isSelected_In in E'. apply H in E'. apply isSelected_In in E'. congruence.
Qed.

Lemma deselect_In (item x : nat) (l : list nat) :
  In x (deselect item l) -> In x l.
Proof.
  induction l as [| y l IH]; cbn [deselect]; [auto |].
  destruct (Nat.eqb y item); cbn [In]; intuition.
Qed.

Lemma deselect_other (item x : nat) (l : list nat) :
  x <> item -> In x l -> In x (deselect item l).
Proof.
  intros Hne. induction l as [| y l IH]; cbn [deselect In]; [auto |].
  destruct (Nat.eqb_spec y item); cbn [In]; intuition congruence.
Qed.

Lemma deselect_NoDup (item : nat) (l : list nat) :
  NoDup l -> NoDup (deselect item l) /\ ~ In item (deselect item l).
Proof.
  induction 1 as [| y l Hy Hnd [IH1 IH2]]; cbn [deselect].
  - split; [constructor | auto].
  - destruct (Nat.eqb_spec y item) as [-> | Hne].
    + split; assumption.
    + split.
      * constructor; [| exact IH1]. intros H. apply Hy. eapply deselect_In; eauto.
      * cbn [In]. intuition.
Qed.

Lemma addToSelection_In (item x : nat) (l : list nat) :
  In x (addToSelection item l) <-> x = item \/ In x l.
Proof.
  unfold addToSelection. destruct (existsb (Nat.eqb item) l) eqn:E.
  - split; [auto |]. intros [-> | H]; [| exact H].
    apply existsb_exists in E. destruct E as (y & Hy & E).
    apply Nat.eqb_eq in E. subst. exact Hy.
  - rewrite in_app_iff. cbn [In]. intuition.
Qed.

Lemma addToSelection_NoDup (item : nat) (l : list nat) :
  NoDup l -> NoDup (addToSelection item l).
Proof.
  intros H. unfold addToSelection. destruct (existsb (Nat.eqb item) l) eqn:E; [exact H |].
  apply NoDup_app; [exact H | repeat constructor; auto |].
  intros x Hx [<- | []].
  assert (existsb (Nat.eqb item) l = true); [| congruence].
  apply existsb_exists. exists item. split; [exact Hx | apply Nat.eqb_refl].
Qed.

(** What [setSelected] does to the selection, by cases. *)
Lemma setSelected_selection (c : nat) (b : bool) (cv : Canvas) :
  selectedComponents (setSelected c b cv)
  = if b then addToSelection c (selectedComponents cv)
    else deselect c (selectedComponents cv).
Proof.
  unfold setSelected, removeSelectedComponent.
  destruct (isSelected cv c) eqn:E, b; cbn [negb andb with_selection selectedComponents];
    try reflexivity.
  - unfold addToSelection.
    replace (existsb (Nat.eqb c) (selectedComponents cv)) with true; [reflexivity |].
    symmetry. apply existsb_exists. exists c. split; [| apply Nat.eqb_refl].
    apply isSelected_In. exact E.
  - assert (Hn : ~ In c (selectedComponents cv)).
    { intros H. apply isSelected_In in H. congruence. }
    clear E. induction (selectedComponents cv) as [| y l IH]; cbn [deselect]; [reflexivity |].
    destruct (Nat.eqb_spec y c) as [-> | Hne]; [exfalso; apply Hn; left; reflexivity |].
    f_equal. apply IH. intros H. apply Hn. right. exact H.
Qed.

Lemma setSelected_shape (c : nat) (b : bool) (cv : Canvas) :
  boxes (setSelected c b cv) = boxes cv
  /\ connections (setSelected c b cv) = connections cv
  /\ isGraph (setSelected c b cv) = isGraph cv
  /\ presentationMode (setSelected c b cv) = presentationMode cv
  /\ heap_next (setSelected c b cv) = heap_next cv
  /\ console (setSelected c b cv) = console cv.
Proof.
  unfold setSelected, removeSelectedComponent.
  destruct (isSelected cv c), b; cbn; auto 10.
Qed.

Lemma setSelected_NoDup (c : nat) (b : bool) (cv : Canvas) :
  NoDup (selectedComponents cv) -> NoDup (selectedComponents (setSelected c b cv)).
Proof.
  intros H. rewrite setSelected_selection. destruct b.
  - apply addToSelection_NoDup. exact H.
  - apply deselect_NoDup. exact H.
Qed.

Lemma setSelected_same (c : nat) (b : bool) (cv : Canvas) :
  NoDup (selectedComponents cv) -> isSelected (setSelected c b cv) c = b.
Proof.
  intros H. destruct b.
  - apply isSelected_In. rewrite setSelected_selection. apply addToSelection_In. auto.
  - destruct (isSelected _ c) eqn:E; [| reflexivity].
    apply isSelected_In in E. rewrite setSelected_selection in E.
    exfalso. exact (proj2 (deselect_NoDup c _ H) E).
Qed.

Lemma setSelected_other (c c' : nat) (b : bool) (cv : Canvas) :
  c' <> c -> isSelected (setSelected c b cv) c' = isSelected cv c'.
Proof.
  intros Hne. apply isSelected_ext. rewrite setSelected_selection. destruct b.
  - rewrite addToSelection_In. intuition.
  - split; [apply deselect_In | apply deselect_other; exact Hne].
Qed.

Lemma setSelected_true_keeps (c a : nat) (cv : Canvas) :
  isSelected cv a = true -> isSelected (setSelected c true cv) a = true.
Proof.
  intros H. apply isSelected_In. rewrite setSelected_selection.
  apply addToSelection_In. right. apply isSelected_In. exact H.
Qed.

(** X19. A component is selected after [setSelected(component, b)] exactly
    when [b] is true, and the selection set stays free of repetitions. *)
Theorem setSelected_then_isSelected (component : nat) (shouldNowBeSelected : bool)
    (cv : Canvas) :
  NoDup (selectedComponents cv) ->
  isSelected (setSelected component shouldNowBeSelected cv) component = shouldNowBeSelected
  /\ NoDup (selectedComponents (setSelected component shouldNowBeSelected cv)).
Proof.
  intros H. split; [apply setSelected_same | apply setSelected_NoDup]; exact H.
Qed.

(** X20. [setSelected] on one component changes neither whether another
    component is selected nor the boxes and connections. *)
Theorem setSelected_leaves_the_others (component other : nat)
    (shouldNowBeSelected : bool) (cv : Canvas) :
  other <> component ->
  isSelected (setSelected component shouldNowBeSelected cv) other = isSelected cv other
  /\ boxes (setSelected component shouldNowBeSelected cv) = boxes cv
  /\ connections (setSelected component shouldNowBeSelected cv) = connections cv.
Proof.
  intros H. split; [apply setSelected_other; exact H |].
  split; apply setSelected_shape.
Qed.


(** ** The lasso *)

Lemma fold_left_map_turns {A : Type} (f : A -> nat * option bool) (l : list A) :
  forall st,
    fold_left (fun st x => lasso_turn st (f x)) l st = fold_left lasso_turn (map f l) st.
Proof. induction l as [| x l IH]; intros st; cbn [fold_left map]; auto. Qed.

Lemma fold_left_pointwise {A B : Type} (f g : A -> B -> A) (l : list B) :
  (forall a b, f a b = g a b) -> forall a, fold_left f l a = fold_left g l a.
Proof.
  intros H. induction l as [| x l IH]; intros a; cbn [fold_left]; [reflexivity |].
  rewrite H. apply IH.
Qed.

Lemma lasso_turn_shape (st : list nat * Canvas) (turn : nat * option bool) :
  boxes (snd (lasso_turn st turn)) = boxes (snd st)
  /\ connections (snd (lasso_turn st turn)) = connections (snd st).
Proof.
  unfold lasso_turn. destruct (snd turn) as [[|] |]; cbn [snd]; auto;
    split; apply setSelected_shape.
Qed.

(** The loops of findLassoItemsInArea, turn by turn, on components at
    distinct addresses. *)
Lemma lasso_turns (l : list (nat * option bool)) :
  forall st,
    NoDup (map fst l) ->
    NoDup (selectedComponents (snd st)) ->
    let r := fold_left lasso_turn l st in
    (forall a d, In (a, d) l ->
       isSelected (snd r) a = match d with
                              | Some b => b
                              | None => isSelected (snd st) a
                              end)
    /\ (forall a, ~ In a (map fst l) -> isSelected (snd r) a = isSelected (snd st) a)
    /\ NoDup (selectedComponents (snd r))
    /\ boxes (snd r) = boxes (snd st)
    /\ connections (snd r) = connections (snd st)
    /\ fst r = fst st ++ map fst (filter (fun t => match snd t with
                                                   | Some true => true
                                                   | _ => false
                                                   end) l).
Proof.
  induction l as [| [a0 d0] l IH]; intros st Hnd Hsel; cbn zeta.
  - cbn [fold_left map filter]. rewrite app_nil_r.
    repeat split; auto. intros a d [].
  - cbn [fold_left]. cbn [map fst] in Hnd. inversion Hnd as [| ? ? Ha0 Hnd']; subst.
    set (st1 := lasso_turn st (a0, d0)).
    assert (Hsel1 : NoDup (selectedComponents (snd st1))).
    { unfold st1, lasso_turn. cbn [snd fst].
      destruct d0 as [[|] |]; cbn [snd]; auto; apply setSelected_NoDup; exact Hsel. }
    assert (Hown : isSelected (snd st1) a0 = match d0 with
                                             | Some b => b
                                             | None => isSelected (snd st) a0
                                             end).
    { unfold st1, lasso_turn. cbn [snd fst].
      destruct d0 as [[|] |]; cbn [snd]; auto; apply setSelected_same; exact Hsel. }
    assert (Hfr : forall a, a <> a0 -> isSelected (snd st1) a = isSelected (snd st) a).
    { intros a Hne. unfold st1, lasso_turn. cbn [snd fst].
      destruct d0 as [[|] |]; cbn [snd]; auto; apply setSelected_other; exact Hne. }
    destruct (lasso_turn_shape st (a0, d0)) as [Hb Hc]. fold st1 in Hb, Hc.
    destruct (IH st1 Hnd' Hsel1) as (I1 & I2 & I3 & I4 & I5 & I6).
    split; [| split; [| split; [| split; [| split]]]].
    + intros a d [E | Hin].
      * injection E as <- <-. rewrite (I2 a0 Ha0). exact Hown.
      * rewrite (I1 a d Hin). destruct d; [reflexivity |].
        apply Hfr. intros ->. apply Ha0. apply in_map_iff. exists (a0, None). auto.
    + intros a Hn. cbn [map fst In] in Hn.
      rewrite (I2 a); [apply Hfr |]; intuition.
    + exact I3.
    + congruence.
    + congruence.
    + rewrite I6. cbn [filter snd]. unfold st1, lasso_turn. cbn [snd fst].
      destruct d0 as [[|] |]; cbn [fst map]; try reflexivity.
      rewrite <- app_assoc. reflexivity.
Qed.

(** With a modifier key down no turn deselects. *)
Lemma lasso_turns_grow (l : list (nat * option bool)) :
  forall st,
    (forall a, ~ In (a, Some false) l) ->
    let r := fold_left lasso_turn l st in
    (forall a, isSelected (snd st) a = true -> isSelected (snd r) a = true)
    /\ (forall a, In (a, Some true) l -> isSelected (snd r) a = true).
Proof.
  induction l as [| [a0 d0] l IH]; intros st Hno; cbn zeta.
  - cbn [fold_left]. split; [auto | intros a []].
  - cbn [fold_left].
    set (st1 := lasso_turn st (a0, d0)).
    assert (Hk : forall a, isSelected (snd st) a = true -> isSelected (snd st1) a = true).
    { intros a Ha. unfold st1, lasso_turn. cbn [snd fst].
      destruct d0 as [[|] |]; cbn [snd]; auto.
      - apply setSelected_true_keeps. exact Ha.
      - exfalso. apply (Hno a0). left. reflexivity. }
    destruct (IH st1) as [I1 I2].
    { intros a Hin. apply (Hno a). right. exact Hin. }
    split.
    + intros a Ha. apply I1. apply Hk. exact Ha.
    + intros a [E | Hin]; [| apply I2; exact Hin].
      injection E as E1 E2. rewrite <- E1. apply I1. unfold st1, lasso_turn.
      rewrite E2. cbn [snd fst].
      apply isSelected_In. rewrite setSelected_selection.
      apply addToSelection_In. auto.
Qed.

Section LassoProperties.

Variable isAnyModifierKeyDown : bool.
Variable lasso_getBounds : Rectangle.
Variable Connection_getBounds : Connection -> Rectangle.
Variable Connection_intersects : Connection -> Rectangle -> bool.

Let lasso := findLassoItemsInArea isAnyModifierKeyDown lasso_getBounds
               Connection_getBounds Connection_intersects.
Let reaches := lasso_reaches lasso_getBounds Connection_getBounds.
Let hits := lasso_hits lasso_getBounds Connection_getBounds Connection_intersects.

Lemma lasso_box_turn (area : Rectangle) (st : list nat * Canvas) (element : Box) :
  lasso_box isAnyModifierKeyDown area st element
  = lasso_turn st (box_turn isAnyModifierKeyDown area element).
Proof.
  unfold lasso_box, lasso_turn, box_turn. cbn [fst snd].
  destruct (intersects area (box_bounds element)); [reflexivity |].
  destruct (negb isAnyModifierKeyDown); reflexivity.
Qed.

Lemma lasso_connection_turn (st : list nat * Canvas) (con : Connection) :
  lasso_connection isAnyModifierKeyDown lasso_getBounds Connection_getBounds
    Connection_intersects st con
  = lasso_turn st (connection_turn isAnyModifierKeyDown lasso_getBounds
                     Connection_getBounds Connection_intersects con).
Proof.
  unfold lasso_connection, lasso_turn, connection_turn, lasso_reaches, lasso_hits.
  cbn [fst snd].
  destruct (negb (intersects _ _)); [reflexivity |].
  destruct (Connection_intersects _ _); [reflexivity |].
  destruct (negb isAnyModifierKeyDown); reflexivity.
Qed.

Lemma findLassoItemsInArea_turns (itemsFound : list nat) (area : Rectangle) (cv : Canvas) :
  lasso itemsFound area cv
  = fold_left lasso_turn
      (map (box_turn isAnyModifierKeyDown area) (boxes cv)
       ++ map (connection_turn isAnyModifierKeyDown lasso_getBounds
                 Connection_getBounds Connection_intersects) (connections cv))
      (itemsFound, cv).
Proof.
  unfold lasso, findLassoItemsInArea. rewrite fold_left_app.
  rewrite <- !fold_left_map_turns.
  rewrite (fold_left_pointwise (lasso_box isAnyModifierKeyDown area)
             (fun st x => lasso_turn st (box_turn isAnyModifierKeyDown area x)))
    by (intros; apply lasso_box_turn).
  apply fold_left_pointwise. intros. apply lasso_connection_turn.
Qed.

(** X21. Without a modifier key, the lasso leaves exactly the boxes it
    intersects selected; a connection whose bounds it reaches is selected
    exactly when it hits the path, and any other component keeps its
    state. *)
Theorem lasso_selects_what_it_touches (itemsFound : list nat) (area : Rectangle)
    (cv : Canvas) :
  isAnyModifierKeyDown = false ->
  NoDup (selectedComponents cv) ->
  NoDup (map box_this (boxes cv) ++ map con_this (connections cv)) ->
  let r := lasso itemsFound area cv in
  (forall b, In b (boxes cv) ->
     isSelected (snd r) (box_this b) = intersects area (box_bounds b))
  /\ (forall c, In c (connections cv) ->
        isSelected (snd r) (con_this c)
        = if reaches c then hits c else isSelected cv (con_this c))
  /\ (forall a, ~ In a (map box_this (boxes cv) ++ map con_this (connections cv)) ->
        isSelected (snd r) a = isSelected cv a)
  /\ fst r = itemsFound
             ++ map box_this (filter (fun b => intersects area (box_bounds b)) (boxes cv))
             ++ map con_this (filter (fun c => reaches c && hits c) (connections cv)).
Proof.
  intros Hmod Hsel Hnd r. subst r. rewrite findLassoItemsInArea_turns.
  set (l := map _ (boxes cv) ++ map _ (connections cv)).
  assert (Hfst : map fst l = map box_this (boxes cv) ++ map con_this (connections cv)).
  { unfold l. rewrite map_app, !map_map. reflexivity. }
  destruct (lasso_turns l (itemsFound, cv)) as (I1 & I2 & _ & _ & _ & I6).
  { rewrite Hfst. exact Hnd. }
  { exact Hsel. }
  cbn [fst snd] in I1, I2, I6.
  split; [| split; [| split]].
  - intros b Hb.
    rewrite (I1 (box_this b) (snd (box_turn isAnyModifierKeyDown area b))).
    + unfold box_turn. cbn [snd]. rewrite Hmod.
      destruct (intersects area (box_bounds b)); reflexivity.
    + unfold l. apply in_or_app. left. apply in_map_iff. exists b. auto.
  - intros c Hc.
    rewrite (I1 (con_this c)
               (snd (connection_turn isAnyModifierKeyDown lasso_getBounds
                       Connection_getBounds Connection_intersects c))).
    + unfold connection_turn, reaches, hits. cbn [snd]. rewrite Hmod.
      destruct (lasso_reaches _ _ c); cbn [negb]; [| reflexivity].
      destruct (lasso_hits _ _ _ c); reflexivity.
    + unfold l. apply in_or_app. right. apply in_map_iff. exists c. auto.
  - intros a Ha. apply I2. rewrite Hfst. exact Ha.
  - rewrite I6. f_equal. unfold l. rewrite filter_app, map_app. f_equal.
    + clear. induction (boxes cv) as [| b bs IH]; [reflexivity |].
      cbn [map filter]. unfold box_turn at 1. cbn [snd].
      destruct (intersects area (box_bounds b)).
      * cbn [map fst]. f_equal. exact IH.
      * destruct (negb isAnyModifierKeyDown); exact IH.
    + clear. induction (connections cv) as [| c cs IH]; [reflexivity |].
      cbn [map filter]. unfold connection_turn at 1, reaches, hits. cbn [snd].
      destruct (lasso_reaches _ _ c); cbn [negb andb]; [| exact IH].
      destruct (lasso_hits _ _ _ c).
      * cbn [map fst]. f_equal. exact IH.
      * destruct (negb isAnyModifierKeyDown); exact IH.
Qed.

(** X22. With a modifier key down the lasso only adds: what was selected
    stays selected, and every box it intersects becomes selected. *)
Theorem lasso_with_modifier_only_adds (itemsFound : list nat) (area : Rectangle)
    (cv : Canvas) :
  isAnyModifierKeyDown = true ->
  let r := lasso itemsFound area cv in
  (forall a, isSelected cv a = true -> isSelected (snd r) a = true)
  /\ (forall b, In b (boxes cv) -> intersects area (box_bounds b) = true ->
        isSelected (snd r) (box_this b) = true)
  /\ (forall c, In c (connections cv) -> reaches c = true -> hits c = true ->
        isSelected (snd r) (con_this c) = true).
Proof.
  intros Hmod r. subst r. rewrite findLassoItemsInArea_turns.
  set (l := map _ (boxes cv) ++ map _ (connections cv)).
  destruct (lasso_turns_grow l (itemsFound, cv)) as [I1 I2].
  { intros a Hin. unfold l in Hin. apply in_app_or in Hin.
    destruct Hin as [Hin | Hin]; apply in_map_iff in Hin; destruct Hin as (x & E & _).
    - unfold box_turn in E. rewrite Hmod in E.
      destruct (intersects area (box_bounds x)); discriminate.
    - unfold connection_turn in E. rewrite Hmod in E.
      destruct (negb (lasso_reaches _ _ x)); [discriminate |].
      destruct (lasso_hits _ _ _ x); discriminate. }
  cbn [snd] in I1, I2.
  split; [exact I1 | split].
  - intros b Hb Hi. apply I2. unfold l. apply in_or_app. left.
    apply in_map_iff. exists b. split; [| exact Hb].
    unfold box_turn. rewrite Hi. reflexivity.
  - intros c Hc Hr Hh. apply I2. unfold l. apply in_or_app. right.
    apply in_map_iff. exists c. split; [| exact Hc].
    unfold connection_turn. unfold reaches, hits in Hr, Hh.
    rewrite Hr, Hh. reflexivity.
Qed.

End LassoProperties.


(** ** Copy, paste, duplicate and remove *)

Section Editing.

Variable libpd_canconnect : t_canvas -> voidp -> Z -> voidp -> Z -> bool.
Variable pd_checkobject : t_canvas -> t_gobj -> voidp.
Variable glist_isselected : t_canvas -> voidp -> bool.
Variable pd_effect : PatchEdit.pd_call -> t_canvas -> t_canvas.
Variable std_sort : (Box -> Box -> bool) -> list Box -> list Box.

Hypothesis std_sort_Permutation :
  forall before l, Permutation l (std_sort before l).

Let wait := PatchEdit.waitForStateUpdate libpd_canconnect pd_checkobject
              glist_isselected pd_effect.
Let drain := PatchEdit.drain libpd_canconnect pd_checkobject glist_isselected pd_effect.
Let run := PatchEdit.run libpd_canconnect pd_checkobject glist_isselected pd_effect.

(** A closure that reads through no null pointer. *)
Let sound (m : PatchEdit.mutation) : Prop := m <> PatchEdit.selectObject_fn None.

Lemma run_sound (m : PatchEdit.mutation) (e : PatchEdit.engine) :
  sound m -> exists e', run m e = Done e'.
Proof.
  unfold sound, run. destruct m as [| [o |] | | | | | | | | | |]; cbn [PatchEdit.run];
    intros H; try congruence; eauto.
  destruct (negb _); eauto.
Qed.

Lemma drain_sound (ms : list PatchEdit.mutation) :
  forall e, Forall sound ms -> exists e', drain ms e = Done e'.
Proof.
  induction ms as [| m ms IH]; intros e H; cbn [drain PatchEdit.drain]; [eauto |].
  inversion H as [| ? ? Hm Hms]; subst.
  destruct (run_sound m e Hm) as (e1 & E1). fold run. rewrite E1. cbn [bind].
  apply IH. exact Hms.
Qed.

Lemma drain_null (ms rest : list PatchEdit.mutation) :
  forall e, Forall sound ms ->
            drain (ms ++ PatchEdit.selectObject_fn None :: rest) e
            = Undefined NullDereference.
Proof.
  induction ms as [| m ms IH]; intros e H; cbn [app drain PatchEdit.drain].
  - reflexivity.
  - inversion H as [| ? ? Hm Hms]; subst.
    destruct (run_sound m e Hm) as (e1 & E1). fold run. rewrite E1. cbn [bind].
    apply IH. exact Hms.
Qed.

Lemma wait_queue (p p' : PatchEdit.t) :
  wait p = Done p' -> PatchEdit.queue p' = [].
Proof.
  unfold wait, PatchEdit.waitForStateUpdate.
  destruct (PatchEdit.queue p) as [| m ms] eqn:Q.
  - intros [= <-]. exact Q.
  - destruct (PatchEdit.ptr p) as [cnv |]; [| discriminate].
    intros H. apply bind_Done_inv in H. destruct H as (e & _ & [= <-]). reflexivity.
Qed.

Lemma select_in_engine_queue (cv : Canvas) (p : PatchEdit.t) :
  PatchEdit.queue (select_in_engine cv p)
  = PatchEdit.queue p
    ++ map (fun b => PatchEdit.selectObject_fn (getPointer b)) (getSelectionOfType_Box cv)
  /\ PatchEdit.ptr (select_in_engine cv p) = PatchEdit.ptr p
  /\ PatchEdit.calls (select_in_engine cv p) = PatchEdit.calls p.
Proof.
  unfold select_in_engine. revert p.
  induction (getSelectionOfType_Box cv) as [| b bs IH]; intros p; cbn [fold_left map].
  - rewrite app_nil_r. auto.
  - destruct (IH (PatchEdit.selectObject (getPointer b) p)) as (Q & P & C).
    rewrite Q, P, C. cbn [PatchEdit.selectObject PatchEdit.enqueueFunction
                          PatchEdit.queue PatchEdit.ptr PatchEdit.calls].
    rewrite <- app_assoc. auto.
Qed.

Lemma selects_sound (bs : list Box) :
  Forall (fun b => getPointer b <> None) bs ->
  Forall sound (map (fun b => PatchEdit.selectObject_fn (getPointer b)) bs).
Proof.
  intros H. apply Forall_map. eapply Forall_impl; [| exact H].
  intros b Hb. unfold sound. intros E. apply Hb. injection E as E. exact E.
Qed.

Lemma selects_null (bs : list Box) :
  ~ Forall (fun b => getPointer b <> None) bs ->
  exists ms rest,
    map (fun b => PatchEdit.selectObject_fn (getPointer b)) bs
    = ms ++ PatchEdit.selectObject_fn None :: rest
    /\ Forall sound ms.
Proof.
  induction bs as [| b bs IH]; intros H.
  - exfalso. apply H. constructor.
  - destruct (getPointer b) as [o |] eqn:E.
    + destruct IH as (ms & rest & Hm & Hs).
      { intros HF. apply H. constructor; [congruence | exact HF]. }
      exists (PatchEdit.selectObject_fn (Some o) :: ms), rest. cbn [map app].
      rewrite E, Hm. split; [reflexivity |].
      constructor; [unfold sound; congruence | exact Hs].
    + exists [], (map (fun b => PatchEdit.selectObject_fn (getPointer b)) bs).
      cbn [map app]. rewrite E. split; [reflexivity | constructor].
Qed.

(** X23. What [copySelection] queues is served without fault exactly when
    every selected box has an engine object: the pointer of a selected box
    goes to [selectObject] untested, and its closure reads through it. The
    canvas itself is left as it is. *)
Theorem copySelection_needs_engine_objects (cv : Canvas) (p : PatchEdit.t)
    (cnv : t_canvas) :
  PatchEdit.ptr p = Some cnv ->
  PatchEdit.queue p = [] ->
  fst (copySelection (cv, p)) = cv
  /\ ((exists p', wait (snd (copySelection (cv, p))) = Done p')
      <-> Forall (fun b => getPointer b <> None) (getSelectionOfType_Box cv))
  /\ (~ Forall (fun b => getPointer b <> None) (getSelectionOfType_Box cv) ->
      wait (snd (copySelection (cv, p))) = Undefined NullDereference).
Proof.
  intros Hptr Hq. split; [reflexivity |].
  destruct (select_in_engine_queue cv p) as (Q & P & C).
  assert (Hw : wait (snd (copySelection (cv, p)))
               = (e <- drain (map (fun b => PatchEdit.selectObject_fn (getPointer b))
                                  (getSelectionOfType_Box cv)
                              ++ [PatchEdit.copy_fn; PatchEdit.deselectAll_fn])
                          (cnv, PatchEdit.calls p) ;;
                  Done (PatchEdit.settled e))).
  { unfold wait, PatchEdit.waitForStateUpdate, copySelection.
    cbn [fst snd PatchEdit.deselectAll PatchEdit.copy PatchEdit.enqueueFunction
         PatchEdit.queue PatchEdit.ptr PatchEdit.calls].
    rewrite Q, P, C, Hq, Hptr. cbn [app]. rewrite <- app_assoc. cbn [app].
    destruct (map _ _ ++ _) eqn:E; [| reflexivity].
    apply app_eq_nil in E. destruct E; discriminate. }
  assert (Hbad : ~ Forall (fun b => getPointer b <> None) (getSelectionOfType_Box cv) ->
                 wait (snd (copySelection (cv, p))) = Undefined NullDereference).
  { intros Hn. rewrite Hw. destruct (selects_null _ Hn) as (ms & rest & Hm & Hs).
    rewrite Hm, <- app_assoc. cbn [app].
    unfold drain. rewrite (drain_null ms _ _ Hs). reflexivity. }
  split; [| exact Hbad]. split.
  - intros (p' & Hp').
    destruct (Forall_dec (fun b => getPointer b <> None)) with (l := getSelectionOfType_Box cv)
      as [Hall | Hn]; [| exact Hall | rewrite (Hbad Hn) in Hp'; discriminate].
    intros b. destruct (getPointer b); [left; congruence | right; congruence].
  - intros Hall. rewrite Hw.
    destruct (drain_sound (map (fun b => PatchEdit.selectObject_fn (getPointer b))
                               (getSelectionOfType_Box cv)
                           ++ [PatchEdit.copy_fn; PatchEdit.deselectAll_fn])
                          (cnv, PatchEdit.calls p)) as (e' & He').
    { apply Forall_app. split; [apply selects_sound; exact Hall |].
      repeat constructor; unfold sound; discriminate. }
    rewrite He'. cbn [bind]. eauto.
Qed.

Lemma synchronise_patch_Done (upd : bool) (cv cv' : Canvas) (p p' : PatchEdit.t) :
  synchronise_patch libpd_canconnect pd_checkobject glist_isselected pd_effect std_sort
    upd (cv, p) = Done (cv', p') ->
  exists cnv,
    PatchEdit.ptr p' = Some cnv
    /\ synchronise std_sort upd cnv cv = Done cv'
    /\ PatchEdit.queue p' = [].
Proof.
  unfold synchronise_patch. cbn [fst snd]. intros H.
  apply bind_Done_inv in H. destruct H as (p1 & Hw & H).
  destruct (PatchEdit.ptr p1) as [cnv |]; [| discriminate].
  apply bind_Done_inv in H. destruct H as (cv1 & Hs & H).
  injection H as <- <-. cbn [PatchEdit.ptr PatchEdit.queue].
  eexists. split; [reflexivity |]. split; [exact Hs |].
  apply (wait_queue p p1). exact Hw.
Qed.

Lemma select_from_engine_selection (cnv : t_canvas) (bs : list Box) :
  forall cv,
    NoDup (map box_this bs) ->
    (forall b, In b bs -> ~ In (box_this b) (selectedComponents cv)) ->
    let cv' := fold_left (fun cv box =>
                            if glist_isselected cnv (getPointer box)
                            then setSelected (box_this box) true cv
                            else cv) bs cv in
    selectedComponents cv'
    = selectedComponents cv
      ++ map box_this (filter (fun b => glist_isselected cnv (getPointer b)) bs)
    /\ boxes cv' = boxes cv /\ connections cv' = connections cv.
Proof.
  induction bs as [| b bs IH]; intros cv Hnd Hfresh; cbn zeta.
  - cbn [fold_left filter map]. rewrite app_nil_r. auto.
  - cbn [fold_left filter]. cbn [map] in Hnd. inversion Hnd as [| ? ? Hb Hnd']; subst.
    destruct (glist_isselected cnv (getPointer b)).
    + assert (Hsel : selectedComponents (setSelected (box_this b) true cv)
                     = selectedComponents cv ++ [box_this b]).
      { rewrite setSelected_selection. unfold addToSelection.
        destruct (existsb _ _) eqn:E; [| reflexivity].
        exfalso. apply (Hfresh b (or_introl eq_refl)).
        apply existsb_exists in E. destruct E as (x & Hx & E).
        apply Nat.eqb_eq in E. subst x. exact Hx. }
      destruct (IH (setSelected (box_this b) true cv) Hnd') as (I1 & I2 & I3).
      { intros b' Hb' Hin. rewrite Hsel in Hin. apply in_app_or in Hin.
        destruct Hin as [Hin | [E | []]].
        - exact (Hfresh b' (or_intror Hb') Hin).
        - apply Hb. rewrite E. apply in_map. exact Hb'. }
      cbn zeta in I1, I2, I3. rewrite I1, I2, I3, Hsel. cbn [map].
      rewrite <- app_assoc. split; [reflexivity |]. split; apply setSelected_shape.
    + apply IH; [exact Hnd' |]. intros b' Hb'. apply Hfresh. right. exact Hb'.
Qed.

Lemma show_engine_selection_Done (cv cv' : Canvas) (p p' : PatchEdit.t) :
  heap_wf cv ->
  show_engine_selection libpd_canconnect pd_checkobject glist_isselected pd_effect
    std_sort (cv, p) = Done (cv', p') ->
  exists cnv,
    PatchEdit.ptr p' = Some cnv
    /\ selectedComponents cv'
       = map box_this (filter (fun b => glist_isselected cnv (getPointer b)) (boxes cv'))
    /\ PatchEdit.queue p' = [PatchEdit.deselectAll_fn].
Proof.
  intros Hwf H. unfold show_engine_selection in H.
  apply bind_Done_inv in H. destruct H as ([cv1 p1] & Hs & H).
  apply synchronise_patch_Done in Hs. destruct Hs as (cnv & Hp & Hs & Hq).
  cbn [fst snd] in H. rewrite Hp in H. injection H as <- <-.
  exists cnv. cbn [PatchEdit.deselectAll PatchEdit.enqueueFunction PatchEdit.ptr
                   PatchEdit.queue].
  split; [exact Hp |]. split; [| rewrite Hq; reflexivity].
  pose proof (synchronise_heap_wf std_sort std_sort_Permutation false cnv cv cv1 Hs Hwf)
    as (Hnd & _ & _).
  assert (Hsel : selectedComponents cv1 = []).
  { apply synchronise_Done in Hs.
    destruct Hs as (? & ? & ? & ? & ? & ? & _ & _ & _ & ->). reflexivity. }
  destruct (select_from_engine_selection cnv (boxes cv1) cv1 Hnd) as (I1 & I2 & _).
  { intros b _. rewrite Hsel. intros []. }
  cbn zeta in I1, I2. unfold select_from_engine. rewrite I1, I2, Hsel. reflexivity.
Qed.

(** X24. After a paste or a duplicate, the selected components are the
    boxes of the objects that the engine holds selected, in the order of
    the boxes; what was selected before counts no longer. The engine's own
    deselect is queued and not yet served. *)
Theorem paste_and_duplicate_show_engine_selection (text : string) (cv cv' : Canvas)
    (p p' : PatchEdit.t) :
  heap_wf cv ->
  pasteSelection libpd_canconnect pd_checkobject glist_isselected pd_effect std_sort
    text (cv, p) = Done (cv', p')
  \/ duplicateSelection libpd_canconnect pd_checkobject glist_isselected pd_effect
       std_sort (cv, p) = Done (cv', p') ->
  exists cnv,
    PatchEdit.ptr p' = Some cnv
    /\ selectedComponents cv'
       = map box_this (filter (fun b => glist_isselected cnv (getPointer b)) (boxes cv'))
    /\ PatchEdit.queue p' = [PatchEdit.deselectAll_fn].
Proof.
  intros Hwf [H | H]; eapply show_engine_selection_Done; eauto.
Qed.

Lemma contains_spec (objects : list t_gobj) (o : t_gobj) :
  contains objects (Some o) = true <-> In o objects.
Proof.
  unfold contains. rewrite existsb_exists. split.
  - intros (x & Hx & E). apply voidp_eqb_eq in E. injection E as ->. exact Hx.
  - intros H. exists o. split; [exact H | apply voidp_eqb_refl].
Qed.

Lemma remove_selected_cord_request (cv : Canvas) (objects : list t_gobj)
    (con : Connection) (p p' : PatchEdit.t) (cnv : t_canvas) :
  PatchEdit.ptr p = Some cnv ->
  remove_selected_cord cv objects p con = Done p' ->
  PatchEdit.ptr p' = PatchEdit.ptr p
  /\ PatchEdit.calls p' = PatchEdit.calls p
  /\ exists added,
       PatchEdit.queue p' = PatchEdit.queue p ++ added
       /\ (forall m, In m added ->
             exists s k, isSelected cv (con_this con) = true
                         /\ removal_of cv con s k m
                         /\ ~ In s objects /\ ~ In k objects)
       /\ (forall s k m, isSelected cv (con_this con) = true ->
             removal_of cv con s k m -> ~ In s objects -> ~ In k objects ->
             added = [m]).
Proof.
  intros Hp H. unfold remove_selected_cord in H.
  assert (Hnone : PatchEdit.ptr p = PatchEdit.ptr p /\ PatchEdit.calls p = PatchEdit.calls p
                  /\ exists added : list PatchEdit.mutation,
                       PatchEdit.queue p = PatchEdit.queue p ++ added
                       /\ (forall m, In m added ->
                             exists s k, isSelected cv (con_this con) = true
                                         /\ removal_of cv con s k m
                                         /\ ~ In s objects /\ ~ In k objects)
                       /\ added = []).
  { split; [first [reflexivity | exact Hp] |]. split; [reflexivity |]. exists []. rewrite app_nil_r. repeat split. intros m []. }
  destruct (isSelected cv (con_this con)) eqn:Esel.
  2:{ injection H as <-. destruct Hnone as (P & C & added & Q & F & ->).
      split; [first [reflexivity | exact Hp] |]. split; [reflexivity |]. exists []. split; [exact Q |]. split; [exact F |].
      intros; discriminate. }
  destruct (deref_box (boxes cv) (outbox con)) as [ob |] eqn:Eob; [| discriminate].
  destruct (contains objects (getPointer ob)) eqn:Eo.
  { injection H as <-. destruct Hnone as (P & C & added & Q & F & ->).
    split; [first [reflexivity | exact Hp] |]. split; [reflexivity |]. exists []. split; [exact Q |]. split; [exact F |].
    intros s k m _ ((ob' & Hob' & Hs) & _) Hns _. exfalso. apply Hns.
    apply contains_spec. rewrite <- Hs. congruence. }
  destruct (deref_box (boxes cv) (inbox con)) as [ib |] eqn:Eib; [| discriminate].
  destruct (contains objects (getPointer ib)) eqn:Ei.
  { injection H as <-. destruct Hnone as (P & C & added & Q & F & ->).
    split; [first [reflexivity | exact Hp] |]. split; [reflexivity |]. exists []. split; [exact Q |]. split; [exact F |].
    intros s k m _ (_ & (ib' & Hib' & Hk) & _) _ Hnk. exfalso. apply Hnk.
    apply contains_spec. rewrite <- Hk. congruence. }
  injection H as <-. unfold PatchEdit.removeConnection. rewrite Hp.
  destruct (getPointer ob) as [s |] eqn:Es.
  2:{ cbn beta iota. destruct Hnone as (P & C & added & Q & F & ->).
      split; [first [reflexivity | exact Hp] |]. split; [reflexivity |]. exists []. split; [exact Q |]. split; [exact F |].
      intros s k m _ ((ob' & Hob' & Hs) & _) _ _. congruence. }
  destruct (getPointer ib) as [k |] eqn:Ek.
  2:{ cbn beta iota. destruct Hnone as (P & C & added & Q & F & ->).
      split; [first [reflexivity | exact Hp] |]. split; [reflexivity |]. exists []. split; [exact Q |]. split; [exact F |].
      intros s' k m _ (_ & (ib' & Hib' & Hk) & _) _ _. congruence. }
  cbn [PatchEdit.enqueueFunction PatchEdit.ptr PatchEdit.calls PatchEdit.queue].
  split; [exact Hp |]. split; [reflexivity |].
  exists [PatchEdit.removeConnection_fn s (outIdx con) k (inIdx con)].
  split; [reflexivity |]. split.
  - intros m [<- | []]. exists s, k. split; [reflexivity |].
    split; [repeat split; eauto |].
    split; intros Hin; apply contains_spec in Hin; congruence.
  - intros s' k' m _ ((ob' & Hob' & Hs) & (ib' & Hib' & Hk) & ->) _ _.
    congruence.
Qed.

Lemma remove_selected_cords_requests (cv : Canvas) (objects : list t_gobj)
    (cnv : t_canvas) (cons : list Connection) :
  forall p p',
    PatchEdit.ptr p = Some cnv ->
    remove_selected_cords cv objects cons p = Done p' ->
    PatchEdit.ptr p' = PatchEdit.ptr p
    /\ PatchEdit.calls p' = PatchEdit.calls p
    /\ exists added,
         PatchEdit.queue p' = PatchEdit.queue p ++ added
         /\ Forall (fun m => exists con s k,
                      In con cons
                      /\ isSelected cv (con_this con) = true
                      /\ removal_of cv con s k m
                      /\ ~ In s objects /\ ~ In k objects) added
         /\ (forall con s k m,
               In con cons -> isSelected cv (con_this con) = true ->
               removal_of cv con s k m -> ~ In s objects -> ~ In k objects ->
               In m added).
Proof.
  induction cons as [| con rest IH]; intros p p' Hp H; cbn [remove_selected_cords] in H.
  - injection H as <-. split; [first [reflexivity | exact Hp] |]. split; [reflexivity |]. exists []. rewrite app_nil_r.
    split; [reflexivity |]. split; [constructor |]. intros con s k m [].
  - apply bind_Done_inv in H. destruct H as (p1 & H1 & H).
    destruct (remove_selected_cord_request cv objects con p p1 cnv Hp H1)
      as (P1 & C1 & a1 & Q1 & F1 & G1).
    assert (Hp1 : PatchEdit.ptr p1 = Some cnv) by congruence.
    destruct (IH _ _ Hp1 H) as (P & C & added & Q & F & G).
    split; [congruence |]. split; [congruence |].
    exists (a1 ++ added). split; [rewrite Q, Q1, <- app_assoc; reflexivity |]. split.
    + apply Forall_app. split.
      * apply Forall_forall. intros m Hm. destruct (F1 m Hm) as (s & k & R).
        exists con, s, k. split; [left; reflexivity | exact R].
      * eapply Forall_impl; [| exact F].
        intros m (c0 & s & k & Hc0 & R). exists c0, s, k. split; [right; exact Hc0 | exact R].
    + intros c0 s k m [<- | Hc0] Hsel Hr Hs Hk; apply in_or_app.
      * left. rewrite (G1 s k m Hsel Hr Hs Hk). left. reflexivity.
      * right. eapply G; eauto.
Qed.

Lemma selectObjects_queue (objects : list t_gobj) :
  forall p,
    let p' := fold_left (fun p o => PatchEdit.selectObject (Some o) p) objects p in
    PatchEdit.queue p'
    = PatchEdit.queue p ++ map (fun o => PatchEdit.selectObject_fn (Some o)) objects
    /\ PatchEdit.ptr p' = PatchEdit.ptr p
    /\ PatchEdit.calls p' = PatchEdit.calls p.
Proof.
  induction objects as [| o objects IH]; intros p; cbn zeta; cbn [fold_left map].
  - rewrite app_nil_r. auto.
  - destruct (IH (PatchEdit.selectObject (Some o) p)) as (Q & P & C).
    cbn zeta in Q, P, C.
    split; [| split]; (etransitivity; [eassumption |]);
      cbn [PatchEdit.selectObject PatchEdit.enqueueFunction
           PatchEdit.queue PatchEdit.ptr PatchEdit.calls]; [| reflexivity ..].
    rewrite <- app_assoc. reflexivity.
Qed.

(** X25. What [removeSelection] queues is served without fault: it hands
    the engine only pointers that are not null. Between the engine's
    deselect with the selection of the objects to remove and [finishRemove]
    stand the removals of connections: each is the removal of a selected
    connection of the canvas, from the outlet of the object of the box at
    its outlet end to the inlet of the object of the box at its inlet end,
    neither of which is among the objects that are removed; and every
    selected connection between two such objects has its removal there. *)
Theorem removeSelection_requests_are_served (cv : Canvas) (p p1 : PatchEdit.t)
    (cnv : t_canvas) :
  PatchEdit.ptr p = Some cnv ->
  PatchEdit.queue p = [] ->
  removeSelection_requests cv p = Done p1 ->
  (exists p2, wait p1 = Done p2)
  /\ exists cords,
       PatchEdit.queue p1
       = [PatchEdit.deselectAll_fn]
         ++ map (fun o => PatchEdit.selectObject_fn (Some o)) (selected_objects cv)
         ++ [PatchEdit.removeSelection_fn] ++ cords ++ [PatchEdit.finishRemove_fn]
       /\ Forall (fun m => exists con s k,
                    In con (connections cv)
                    /\ isSelected cv (con_this con) = true
                    /\ removal_of cv con s k m
                    /\ ~ In s (selected_objects cv) /\ ~ In k (selected_objects cv)) cords
       /\ (forall con s k m,
             In con (connections cv) -> isSelected cv (con_this con) = true ->
             removal_of cv con s k m ->
             ~ In s (selected_objects cv) -> ~ In k (selected_objects cv) ->
             In m cords).
Proof.
  intros Hptr Hq H. unfold removeSelection_requests in H.
  apply bind_Done_inv in H. destruct H as (p0 & H0 & H). injection H as <-.
  destruct (selectObjects_queue (selected_objects cv) (PatchEdit.deselectAll p))
    as (Q1 & P1 & C1). cbn zeta in Q1, P1, C1.
  apply (remove_selected_cords_requests cv (selected_objects cv) cnv) in H0.
  2:{ cbn [PatchEdit.removeSelection PatchEdit.enqueueFunction PatchEdit.ptr].
      rewrite P1. exact Hptr. }
  destruct H0 as (P & C & cords & Q & F & G).
  cbn [PatchEdit.removeSelection PatchEdit.enqueueFunction PatchEdit.queue
       PatchEdit.ptr PatchEdit.calls] in P, C, Q.
  rewrite Q1 in Q. rewrite P1 in P. rewrite C1 in C.
  cbn [PatchEdit.deselectAll PatchEdit.enqueueFunction PatchEdit.queue
       PatchEdit.ptr PatchEdit.calls] in P, C, Q.
  rewrite Hq in Q. cbn [app] in Q.
  assert (HQ : PatchEdit.queue (PatchEdit.finishRemove p0)
               = [PatchEdit.deselectAll_fn]
                 ++ map (fun o => PatchEdit.selectObject_fn (Some o)) (selected_objects cv)
                 ++ [PatchEdit.removeSelection_fn] ++ cords ++ [PatchEdit.finishRemove_fn]).
  { cbn [PatchEdit.finishRemove PatchEdit.enqueueFunction PatchEdit.queue].
    rewrite Q. cbn [app]. rewrite <- !app_assoc. reflexivity. }
  split; [| exists cords; split; [exact HQ | split; [exact F | exact G]]].
  unfold wait, PatchEdit.waitForStateUpdate. rewrite HQ.
  cbn [PatchEdit.finishRemove PatchEdit.enqueueFunction PatchEdit.ptr PatchEdit.calls].
  rewrite P, Hptr. cbn [app].
  match goal with
  | |- exists p2, (e <- PatchEdit.drain _ _ _ _ ?ms ?e0 ;; _) = _ =>
      destruct (drain_sound ms e0) as (e' & He')
  end.
  { constructor; [unfold sound; discriminate |].
    apply Forall_app. split.
    - apply Forall_map. apply Forall_forall. intros o _. unfold sound. discriminate.
    - constructor; [unfold sound; discriminate |].
      apply Forall_app. split; [| repeat constructor; unfold sound; discriminate].
      eapply Forall_impl; [| exact F].
      intros m (c0 & s & k & _ & _ & (_ & _ & ->) & _). unfold sound. discriminate. }
  unfold drain in He'. rewrite He'. cbn [bind]. eauto.
Qed.

End Editing.


(** ** The console of the processor *)

Lemma substring_suffix (n : nat) (s : juce_String) :
  exists skipped, s = skipped ++ substring n s.
Proof.
  revert s. induction n as [| n IH]; intros s.
  - exists []. reflexivity.
  - destruct s as [| c s]; cbn [substring].
    + exists []. reflexivity.
    + destruct (IH s) as (k & Hk). exists (c :: k). cbn [app].
      f_equal. exact Hk.
Qed.

(** X26. A message that starts with [error:] or with [verbose(4):] is
    printed as an error without that prefix and without the character that
    follows it, whatever that character is and however many bytes store
    it; when nothing follows the prefix the error line is empty. *)
Theorem receivePrint_strips_prefix (c : juce_wchar) (s : juce_String)
    (log : list console_line) :
  receivePrint (literal "error:" ++ c :: s) log = log ++ [logError s]
  /\ receivePrint (literal "verbose(4):" ++ c :: s) log = log ++ [logError s]
  /\ receivePrint (literal "error:") log = log ++ [logError []]
  /\ receivePrint (literal "verbose(4):") log = log ++ [logError []].
Proof. repeat split; reflexivity. Qed.

(** X27. The empty message prints nothing; any other message adds one line
    and keeps those before it, and the text of the line is what is left
    of the message after some of its first characters. *)
Theorem receivePrint_one_line (message : juce_String) (log : list console_line) :
  receivePrint [] log = log
  /\ (message <> [] ->
      exists text skipped,
        (receivePrint message log = log ++ [logError text]
         \/ receivePrint message log = log ++ [logMessage text])
        /\ message = skipped ++ text).
Proof.
  split; [reflexivity |]. intros Hne. unfold receivePrint.
  destruct message as [| c m]; [congruence |].
  destruct (startsWith (c :: m) (literal "error:")).
  - destruct (substring_suffix 7 (c :: m)) as (k & Hk). eauto.
  - destruct (startsWith (c :: m) (literal "verbose(4):")).
    + destruct (substring_suffix 12 (c :: m)) as (k & Hk). eauto.
    + exists (c :: m), []. auto.
Qed.


(** ** The further properties on the sample data *)

Lemma sample_patch_NoDup : NoDup (gl_list sample_patch).
Proof. vm_compute. repeat constructor; simpl; intuition lia. Qed.

Lemma sample_canvas_heap_wf : heap_wf sample_canvas.
Proof. vm_compute. repeat constructor; simpl; intuition lia. Qed.

Lemma getIndex_of_listed_object_witness :
  nth_error (Patch.getObjects (Some sample_patch) false) 2 = Some 3%nat
  /\ Patch.getIndex sample_patch (Some 3%nat) = 2.
Proof.
  split; [reflexivity |].
  apply (getIndex_of_listed_object sample_patch 2 3%nat sample_patch_NoDup eq_refl).
Defined.

Lemma glist_getindex_and_getIndex_witness :
  (PatchMore.glist_getindex patch_with_leading_info_parent (Some 2%nat) = 2
   /\ Patch.getIndex patch_with_leading_info_parent (Some 2%nat)
      = PatchMore.glist_getindex patch_with_leading_info_parent (Some 2%nat)
        - Z.of_nat (length (filter (isInfoParent patch_with_leading_info_parent)
                              (firstn (Z.to_nat (PatchMore.glist_getindex
                                                   patch_with_leading_info_parent
                                                   (Some 2%nat)))
                                      (gl_list patch_with_leading_info_parent)))))
  /\ (PatchMore.glist_getindex patch_with_leading_info_parent (Some 9%nat) = 0
      /\ Patch.getIndex patch_with_leading_info_parent (Some 9%nat) = -1).
Proof.
  split; (split; [reflexivity |]).
  - apply (proj1 (glist_getindex_and_getIndex patch_with_leading_info_parent 2%nat)).
    + simpl. auto.
    + reflexivity.
  - apply (proj1 (proj2 (glist_getindex_and_getIndex patch_with_leading_info_parent 9%nat))).
    + simpl. auto.
    + reflexivity.
Defined.

Lemma canConnect_predicts_createConnection_witness :
  PatchMore.canConnect sample_canconnect sample_checkobject sample_effect
    (Some 1%nat) 0 (Some 2%nat) 1 idle_patch
  = Done (false, {| Patch.ptr := Some sample_patch; Patch.queue := [];
                    Patch.calls := [Patch.call_canconnect (Some 1%nat) 0 (Some 2%nat) 1] |})
  /\ fst (Patch.createConnection sample_canconnect sample_checkobject sample_effect
            (Some 1%nat) 0 (Some 2%nat) 1 idle_patch) = false.
Proof.
  split; [reflexivity |].
  apply (proj1 (canConnect_predicts_createConnection sample_canconnect sample_checkobject
                  sample_effect (Some 1%nat) 0 (Some 2%nat) 1 idle_patch _ false eq_refl)).
Defined.

Lemma moveObjects_engine_calls_witness :
  Patch.run_moveObjects sample_checkobject sample_effect
    [Some 1%nat; None; Some 3%nat] 5 0 (sample_patch, [])
  = (sample_patch,
     [Patch.call_setCurrent; Patch.call_noselect;
      Patch.call_select (Some 1%nat); Patch.call_select (Some 3%nat);
      Patch.call_moveselection 5 0; Patch.call_noselect;
      Patch.call_reset_undo_move; Patch.call_setCurrent]).
Proof.
  exact (proj1 (moveObjects_engine_calls sample_checkobject sample_effect
                  [Some 1%nat; None; Some 3%nat] 5 0 (sample_patch, []))).
Defined.

Lemma createObject_plain_name_witness :
  PatchMore.createObject sample_addTokens sample_replace sample_guiDefaults
    "ffffff" "000000" "000000" (Some sample_patch) "tgl 1" 10 20
  = Some (PatchMore.createobj "obj"
            [PatchMore.A_FLOAT (PatchMore.of_int 10); PatchMore.A_FLOAT (PatchMore.of_int 20);
             PatchMore.A_SYMBOL "tgl"; PatchMore.A_FLOAT (PatchMore.of_token "1");
             PatchMore.A_FLOAT (PatchMore.of_token "25");
             PatchMore.A_SYMBOL "#ffffff"; PatchMore.A_SYMBOL "#000000"])
  /\ PatchMore.createObject sample_addTokens sample_replace sample_guiDefaults
       "ffffff" "000000" "000000" None "tgl 1" 10 20
     = None.
Proof.
  pose proof (createObject_plain_name sample_addTokens sample_replace sample_guiDefaults
                "ffffff" "000000" "000000") as T.
  split.
  - apply (proj1 (proj2 (T (Some sample_patch) "tgl 1"%string 10 20))).
    + discriminate.
    + vm_compute. intuition discriminate.
  - apply (proj1 (T None "tgl 1"%string 10 20)). reflexivity.
Defined.

Lemma createObject_type_keywords_witness :
  exists typesymbol n,
    PatchMore.createObject sample_addTokens sample_replace sample_guiDefaults
      "ffffff" "000000" "000000" (Some sample_patch) "msg comment hello" 10 20
    = Some (PatchMore.createobj typesymbol
              (PatchMore.A_FLOAT (PatchMore.of_int 10)
               :: PatchMore.A_FLOAT (PatchMore.of_int 20)
               :: map PatchMore.atom_of_token
                    (skipn n ["msg"; "comment"; "hello"]%string)))
    /\ (n <= 5)%nat
    /\ (typesymbol = "obj"%string <-> n = 0%nat).
Proof.
  apply (createObject_type_keywords sample_addTokens sample_replace sample_guiDefaults
           "ffffff" "000000" "000000" sample_patch "msg comment hello"%string 10 20).
  vm_compute. discriminate.
Defined.

Lemma every_listed_object_has_a_box_witness :
  exists cv',
    synchronise sort_stable true sample_patch empty_canvas = Done cv'
    /\ proxies 2%nat (boxes cv') = 1%nat.
Proof.
  eexists. split; [vm_compute; reflexivity |].
  apply (proj2 (every_listed_object_has_a_box sort_stable sort_stable_Permutation
                  true sample_patch empty_canvas _ 2%nat
                  ltac:(vm_compute; reflexivity) ltac:(simpl; auto))).
  unfold proxies. simpl. lia.
Defined.

Lemma live_box_survives_witness :
  exists cv' b',
    synchronise sort_stable false sample_patch sample_canvas = Done cv'
    /\ In b' (boxes cv')
    /\ box_this b' = 100%nat /\ getPointer b' = Some 1%nat /\ gui b' = false.
Proof.
  eexists.
  destruct (live_box_survives sort_stable sort_stable_Permutation
              false sample_patch sample_canvas _ (sample_box 100 1%nat false)
              ltac:(vm_compute; reflexivity) ltac:(simpl; auto) eq_refl)
    as (b' & Hin & Ht & Hp & Hg).
  exists b'. split; [reflexivity |]. repeat split; auto.
Defined.

Lemma widget_box_of_deleted_object_is_removed_witness :
  exists cv',
    synchronise sort_stable true sample_patch canvas_on_reused_heap = Done cv'
    /\ map box_this (boxes cv') = [100; 50; 51]%nat
    /\ forall b',
         In b' (boxes cv') -> box_this b' = 50%nat ->
         getPointer b' <> Some 77%nat
         /\ exists o, In o (Patch.getObjects (Some sample_patch) false)
                      /\ b' = new_Box sample_patch o 50.
Proof.
  eexists. split; [vm_compute; reflexivity |]. split; [vm_compute; reflexivity |].
  apply (widget_box_of_deleted_object_is_removed sort_stable sort_stable_Permutation
           true sample_patch canvas_on_reused_heap _ stale_widget
           ltac:(vm_compute; reflexivity)
           ltac:(vm_compute; repeat constructor; simpl; intuition lia)
           ltac:(simpl; auto) eq_refl eq_refl).
Defined.

Lemma widget_box_stands_for_listed_object_witness :
  exists cv' o,
    synchronise sort_stable true sample_patch sample_canvas = Done cv'
    /\ getPointer (sample_box 101 2%nat true) = Some o
    /\ In o (Patch.getObjects (Some sample_patch) false).
Proof.
  eexists.
  destruct (widget_box_stands_for_listed_object sort_stable sort_stable_Permutation
              true sample_patch sample_canvas _ (sample_box 101 2%nat true)
              ltac:(vm_compute; reflexivity) ltac:(vm_compute; auto) eq_refl)
    as (o & Hp & Ho).
  exists o. split; [reflexivity |]. split; assumption.
Defined.

Lemma box_at_index_of_object_witness :
  exists cv' b,
    synchronise sort_stable true sample_patch sample_canvas = Done cv'
    /\ at_index (boxes cv') (Patch.getIndex sample_patch (Some 3%nat)) = Some b
    /\ getPointer b = Some 3%nat.
Proof.
  eexists.
  destruct (box_at_index_of_object sort_stable sort_stable_Permutation sort_stable_sorted
              true sample_patch sample_canvas _ 3%nat
              ltac:(vm_compute; reflexivity) sample_patch_NoDup sample_canvas_unique
              ltac:(simpl; auto))
    as (b & Hb & Hp).
  exists b. split; [reflexivity |]. split; assumption.
Defined.

Lemma boxes_show_engine_ports_witness :
  exists cv',
    synchronise sort_stable true sample_patch sample_canvas = Done cv'
    /\ numInputs (sample_box 101 2%nat true) = obj_ninlets sample_patch 2%nat
    /\ numOutputs (sample_box 101 2%nat true) = obj_noutlets sample_patch 2%nat.
Proof.
  eexists. split; [vm_compute; reflexivity |].
  destruct (boxes_show_engine_ports sort_stable sort_stable_Permutation sort_stable_sorted
              true sample_patch sample_canvas _ (sample_box 101 2%nat true) 2%nat
              sample_canvas_heap_wf sample_canvas_unique
              ltac:(vm_compute; reflexivity) ltac:(vm_compute; auto) eq_refl
              ltac:(simpl; auto))
    as (Hi & Ho & _).
  split; assumption.
Defined.

Lemma graph_canvas_keeps_connections_witness :
  exists cv',
    synchronise sort_stable true sample_patch presented_canvas = Done cv'
    /\ connections cv' = connections presented_canvas
    /\ console cv' = console presented_canvas.
Proof.
  apply (graph_canvas_keeps_connections sort_stable true sample_patch presented_canvas).
  reflexivity.
Defined.

Lemma console_grows_by_error_lines_witness :
  exists cv' k,
    synchronise sort_stable true patch_with_outlet_out_of_range empty_canvas = Done cv'
    /\ console cv' = [impossible_connection]
    /\ console cv' = console empty_canvas ++ repeat impossible_connection k
    /\ (k <= length (gl_lines patch_with_outlet_out_of_range))%nat.
Proof.
  eexists.
  destruct (console_grows_by_error_lines sort_stable true patch_with_outlet_out_of_range
              empty_canvas _ ltac:(vm_compute; reflexivity))
    as (k & Hk & Hle).
  exists k. split; [reflexivity |]. split; [reflexivity |]. split; assumption.
Defined.

Lemma every_cord_gets_a_connection_witness :
  exists cv',
    synchronise sort_stable true sample_patch sample_canvas = Done cv'
    /\ forall t, In t (gl_lines sample_patch) ->
         matched sample_patch (boxes cv') (connections cv') (tuple_of t).
Proof.
  destruct (every_cord_gets_a_connection sort_stable sort_stable_Permutation
              sort_stable_sorted true sample_patch sample_canvas
              sample_canvas_heap_wf sample_canvas_unique
              ltac:(constructor; [right; right; simpl; intuition lia | constructor])
              sample_patch_NoDup
              ltac:(repeat constructor; simpl; auto; lia)
              eq_refl)
    as (cv' & Hrun & Hall & _).
  exists cv'. split; assumption.
Defined.

Lemma presentation_mode_hides_connections_witness :
  exists ed',
    valueChanged sort_stable presentationMode_value sample_patch sample_editor = Done ed'
    /\ connections (canvas ed') = []
    /\ selectedComponents (canvas ed') = []
    /\ commandLocked ed' = true
    /\ presentationMode (canvas ed') = true.
Proof.
  apply (presentation_mode_hides_connections sort_stable sample_patch sample_editor).
  reflexivity.
Defined.

Lemma setSelected_then_isSelected_witness :
  isSelected (setSelected 100 false sample_canvas) 100 = false
  /\ NoDup (selectedComponents (setSelected 100 false sample_canvas)).
Proof.
  apply (setSelected_then_isSelected 100 false sample_canvas).
  simpl. repeat constructor. simpl. tauto.
Defined.

Lemma setSelected_leaves_the_others_witness :
  isSelected (setSelected 101 true sample_canvas) 100 = isSelected sample_canvas 100
  /\ boxes (setSelected 101 true sample_canvas) = boxes sample_canvas
  /\ connections (setSelected 101 true sample_canvas) = connections sample_canvas.
Proof.
  apply (setSelected_leaves_the_others 101 100 true sample_canvas). lia.
Defined.

Lemma lasso_selects_what_it_touches_witness :
  let r := findLassoItemsInArea false sample_area sample_connection_bounds
             sample_connection_path [] sample_area placed_canvas in
  isSelected (snd r) 100 = false
  /\ isSelected (snd r) 101 = true
  /\ isSelected (snd r) 102 = true
  /\ fst r = [101; 102]%nat.
Proof.
  destruct (lasso_selects_what_it_touches false sample_area sample_connection_bounds
              sample_connection_path [] sample_area placed_canvas eq_refl
              ltac:(simpl; repeat constructor; simpl; tauto)
              ltac:(simpl; repeat constructor; simpl; intuition lia))
    as (Hb & _ & _ & Hf).
  cbv zeta. split; [| split; [| split]].
  - apply (Hb (placed_box 100 1%nat 0 0)). simpl. auto.
  - apply (Hb (placed_box 101 2%nat 50 50)). simpl. auto.
  - apply (Hb (placed_box 102 3%nat 60 40)). simpl. auto.
  - exact Hf.
Defined.

Lemma lasso_with_modifier_only_adds_witness :
  let r := findLassoItemsInArea true sample_area sample_connection_bounds
             sample_connection_path [] sample_area placed_canvas in
  isSelected (snd r) 100 = true /\ isSelected (snd r) 101 = true.
Proof.
  destruct (lasso_with_modifier_only_adds true sample_area sample_connection_bounds
              sample_connection_path [] sample_area placed_canvas eq_refl)
    as (Hkeep & Hb & _).
  cbv zeta. split.
  - apply Hkeep. reflexivity.
  - apply (Hb (placed_box 101 2%nat 50 50)); [simpl; auto | reflexivity].
Defined.

Lemma copySelection_needs_engine_objects_witness :
  PatchEdit.waitForStateUpdate sample_canconnect sample_checkobject sample_isselected
    sample_edit_effect
    (snd (copySelection (canvas_with_selected_blank_box, idle_edit_patch)))
  = Undefined NullDereference.
Proof.
  apply (proj2 (proj2 (copySelection_needs_engine_objects sample_canconnect
                         sample_checkobject sample_isselected sample_edit_effect
                         canvas_with_selected_blank_box idle_edit_patch sample_patch
                         eq_refl eq_refl))).
  intros H. inversion H as [| b bs Hb _]. apply Hb. reflexivity.
Defined.

Lemma paste_and_duplicate_show_engine_selection_witness :
  exists cv' p' cnv,
    pasteSelection sample_canconnect sample_checkobject sample_isselected
      sample_edit_effect sort_stable "#X obj 10 10 osc~;" (sample_canvas, idle_edit_patch)
    = Done (cv', p')
    /\ PatchEdit.ptr p' = Some cnv
    /\ selectedComponents cv'
       = map box_this (filter (fun b => sample_isselected cnv (getPointer b)) (boxes cv'))
    /\ selectedComponents cv' = [102%nat]
    /\ PatchEdit.queue p' = [PatchEdit.deselectAll_fn].
Proof.
  pose proof (fun cv' p' H =>
                paste_and_duplicate_show_engine_selection sample_canconnect
                  sample_checkobject sample_isselected sample_edit_effect sort_stable
                  sort_stable_Permutation "#X obj 10 10 osc~;" sample_canvas cv'
                  idle_edit_patch p' sample_canvas_heap_wf (or_introl H)) as T.
  eexists. eexists.
  edestruct T as (cnv & Hp & Hs & Hq); [vm_compute; reflexivity |].
  exists cnv. split; [reflexivity |]. repeat split; auto.
Defined.

Lemma removeSelection_requests_are_served_witness :
  exists p1 p2,
    removeSelection_requests canvas_with_selected_cord idle_edit_patch = Done p1
    /\ PatchEdit.queue p1
       = [PatchEdit.deselectAll_fn; PatchEdit.selectObject_fn (Some 3%nat);
          PatchEdit.removeSelection_fn;
          PatchEdit.removeConnection_fn 1%nat 0 2%nat 0; PatchEdit.finishRemove_fn]
    /\ PatchEdit.waitForStateUpdate sample_canconnect sample_checkobject sample_isselected
         sample_edit_effect p1 = Done p2.
Proof.
  eexists.
  destruct (removeSelection_requests_are_served sample_canconnect sample_checkobject
              sample_isselected sample_edit_effect
              canvas_with_selected_cord idle_edit_patch _ sample_patch
              eq_refl eq_refl ltac:(vm_compute; reflexivity))
    as ((p2 & Hw) & _).
  exists p2. split; [reflexivity |]. split; [reflexivity | exact Hw].
Defined.
